(** * Far::internal::StencilBuilder / WeightTable (opensubdiv/far/stencilBuilder.cpp)

    A shallow embedding of the stencil weight table of OpenSubdiv and of the
    facade built on it, followed by the properties proved about them.

    Conventions of the embedding.
    - [int] values are mathematical integers ([Z]); the code never relies on
      signed wrap-around.  [size_t] is a 64 bit unsigned integer and its
      wrap-around is written out where the code computes with it
      ([GetNumVertsInStencil]).
    - A [std::vector<T>] is a [list T].  [operator[]] outside the vector, and a
      failing [assert], have no defined result: every operation that can reach
      one returns an [option], and [None] stands for that outcome.
    - [float] is a parameter of the development (class [FloatOps]); the
      instance [binary32] is IEEE-754 single precision, the instance [exactQ]
      is exact rational arithmetic.
    - [reserve] calls only change capacities and are not part of the state. *)

From Stdlib Require Import ZArith Bool Lia.
From Stdlib Require Import Floats.SpecFloat.
From Stdlib Require Import QArith.QArith_base QArith.Qcanon.
From stdpp Require Import base tactics option list.

Local Open Scope Z_scope.

(** ** [std::vector] *)

Section Vector.
Context {A : Type}.

(** [v.size()] *)
Definition vsize (v : list A) : Z := Z.of_nat (length v).

(** [v[i]] read; the index is an [int] or a [size_t]. *)
Definition vget (v : list A) (i : Z) : option A :=
  if decide (0 ≤ i) then v !! Z.to_nat i else None.

(** [v[i] = x] *)
Definition vset (v : list A) (i : Z) (x : A) : option (list A) :=
  if decide (0 ≤ i < vsize v) then Some (<[Z.to_nat i := x]> v) else None.

(** [v.back()] *)
Definition vback (v : list A) : option A := last v.

(** [v.push_back(x)] *)
Definition vpush (v : list A) (x : A) : list A := v ++ [x].

(** [v.resize(n)] with value-initialised new elements [d]. *)
Definition vresize (n : Z) (d : A) (v : list A) : list A :=
  resize (Z.to_nat n) d v.
End Vector.

(** ** [float] *)

Class FloatOps (F : Type) := {
  f0 : F;                      (* 0.0f *)
  f1 : F;                      (* 1.0f *)
  fadd : F → F → F;            (* operator+ *)
  fmul : F → F → F;            (* operator* *)
  feq : F → F → bool           (* operator== *)
}.

(** IEEE-754 binary32: 24 bits of precision, exponent of infinity 128. *)
Definition b32_add : spec_float → spec_float → spec_float := SFadd 24 128.
Definition b32_mul : spec_float → spec_float → spec_float := SFmul 24 128.
Definition b32_one : spec_float := S754_finite false 8388608 (-23).

#[export] Instance binary32 : FloatOps spec_float := {
  f0 := S754_zero false;
  f1 := b32_one;
  fadd := b32_add;
  fmul := b32_mul;
  feq := SFeqb
}.

(** Exact arithmetic on canonical rationals. *)
#[export] Instance exactQ : FloatOps Qc := {
  f0 := Q2Qc 0%Q;
  f1 := Q2Qc 1%Q;
  fadd := Qcplus;
  fmul := Qcmult;
  feq := fun a b => if Qc_eq_dec a b then true else false
}.

(** The laws of exact arithmetic that the algebraic reading of a stencil
  needs; [binary32] has none of the distributivity and associativity
  laws. *)
Class ExactLaws (F : Type) `{FloatOps F} : Prop := {
  fadd_comm : ∀ a b : F, fadd a b = fadd b a;
  fadd_assoc : ∀ a b c : F, fadd a (fadd b c) = fadd (fadd a b) c;
  fadd_0_l : ∀ a : F, fadd f0 a = a;
  fmul_1_l : ∀ a : F, fmul f1 a = a;
  fmul_1_r : ∀ a : F, fmul a f1 = a;
  fmul_0_l : ∀ a : F, fmul f0 a = f0;
  fmul_add_distr_r : ∀ a b c : F, fmul (fadd a b) c = fadd (fmul a c) (fmul b c)
}.

Section Model.
Context {F : Type} `{FloatOps F}.

(** ** [struct PointDerivWeight] *)

Record PointDerivWeight := mkPointDerivWeight {
  p : F;
  du : F;
  dv : F
}.

(** [PointDerivWeight()] *)
Definition PointDerivWeight_default : PointDerivWeight :=
  mkPointDerivWeight f0 f0 f0.

(** [PointDerivWeight(float w)] *)
Definition PointDerivWeight_of_float (w : F) : PointDerivWeight :=
  mkPointDerivWeight w w w.

(** [operator*] *)
Definition pdw_mul (lhs rhs : PointDerivWeight) : PointDerivWeight :=
  mkPointDerivWeight (fmul (p lhs) (p rhs))
                     (fmul (du lhs) (du rhs))
                     (fmul (dv lhs) (dv rhs)).

(** [operator+=] *)
Definition pdw_add (lhs rhs : PointDerivWeight) : PointDerivWeight :=
  mkPointDerivWeight (fadd (p lhs) (p rhs))
                     (fadd (du lhs) (du rhs))
                     (fadd (dv lhs) (dv rhs)).

(** The template parameter [W] of the engine: [W(1.0)] and [operator*]. *)
Class Payload (W : Type) := {
  w_one : W;
  w_mul : W → W → W
}.

#[export] Instance float_payload : Payload F := {
  w_one := f1;
  w_mul := fmul
}.

#[export] Instance pdw_payload : Payload PointDerivWeight := {
  w_one := PointDerivWeight_of_float f1;
  w_mul := pdw_mul
}.

(** ** [class WeightTable] *)

Record WeightTable := mkWeightTable {
  _dests : list Z;
  _sources : list Z;
  _weights : list F;
  _duWeights : list F;
  _dvWeights : list F;
  _indices : list Z;
  _sizes : list Z;
  _size : Z;
  _lastOffset : Z;
  _coarseVertCount : Z;
  _compactWeights : bool
}.

Definition with_weights (t : WeightTable) (w : list F) : WeightTable :=
  mkWeightTable (_dests t) (_sources t) w (_duWeights t) (_dvWeights t)
    (_indices t) (_sizes t) (_size t) (_lastOffset t)
    (_coarseVertCount t) (_compactWeights t).

Definition with_derivs (t : WeightTable) (wu wv : list F) : WeightTable :=
  mkWeightTable (_dests t) (_sources t) (_weights t) wu wv
    (_indices t) (_sizes t) (_size t) (_lastOffset t)
    (_coarseVertCount t) (_compactWeights t).

Definition with_index (t : WeightTable) (ix sz : list Z) : WeightTable :=
  mkWeightTable (_dests t) (_sources t) (_weights t) (_duWeights t)
    (_dvWeights t) ix sz (_size t) (_lastOffset t)
    (_coarseVertCount t) (_compactWeights t).

Definition with_lastOffset (t : WeightTable) (o : Z) : WeightTable :=
  mkWeightTable (_dests t) (_sources t) (_weights t) (_duWeights t)
    (_dvWeights t) (_indices t) (_sizes t) (_size t) o
    (_coarseVertCount t) (_compactWeights t).

Definition with_entry (t : WeightTable) (ds ss : list Z) (n : Z)
  : WeightTable :=
  mkWeightTable ds ss (_weights t) (_duWeights t) (_dvWeights t)
    (_indices t) (_sizes t) n (_lastOffset t)
    (_coarseVertCount t) (_compactWeights t).

(** *** Accumulators (the template parameter [WACCUM]) *)

Record Accumulator (W : Type) := mkAccumulator {
  PushBack : W → WeightTable → WeightTable;
  Add : Z → W → WeightTable → option WeightTable;
  Get : Z → WeightTable → option W
}.
Global Arguments PushBack {W} _ _ _.
Global Arguments Add {W} _ _ _ _.
Global Arguments Get {W} _ _ _.

(** [class PointDerivAccumulator] *)
Definition PointDerivAccumulator : Accumulator PointDerivWeight := {|
  PushBack weight t :=
    with_derivs (with_weights t (vpush (_weights t) (p weight)))
      (vpush (_duWeights t) (du weight))
      (vpush (_dvWeights t) (dv weight));
  Add i weight t :=
    w ← vget (_weights t) i;
    ws ← vset (_weights t) i (fadd w (p weight));
    wu ← vget (_duWeights t) i;
    wus ← vset (_duWeights t) i (fadd wu (du weight));
    wv ← vget (_dvWeights t) i;
    wvs ← vset (_dvWeights t) i (fadd wv (dv weight));
    Some (with_derivs (with_weights t ws) wus wvs);
  Get index t :=
    w ← vget (_weights t) index;
    wu ← vget (_duWeights t) index;
    wv ← vget (_dvWeights t) index;
    Some (mkPointDerivWeight w wu wv)
|}.

(** [class ScalarAccumulator]; its [PushBack] takes a [PointDerivWeight],
    so the [float] handed to it is converted first and [.p] is stored. *)
Definition ScalarAccumulator : Accumulator F := {|
  PushBack weight t :=
    with_weights t (vpush (_weights t) (p (PointDerivWeight_of_float weight)));
  Add i w t :=
    w0 ← vget (_weights t) i;
    ws ← vset (_weights t) i (fadd w0 w);
    Some (with_weights t ws);
  Get index t := vget (_weights t) index
|}.

(** *** Constructor *)

(** The capacity handed to [reserve]. *)
Definition reserve_hint (coarseVerts : Z) : Z :=
  Z.max coarseVerts (Z.min (5 * 1024 * 1024) (coarseVerts * 2)).

(** The loop writing the trivial control vertex stencils. *)
Fixpoint init_loop (n : nat) (i : Z) (t : WeightTable) : option WeightTable :=
  match n with
  | O => Some t
  | S n' =>
      ix ← vset (_indices t) i i;
      sz ← vset (_sizes t) i 1;
      ds ← vset (_dests t) i i;
      ss ← vset (_sources t) i i;
      ws ← vset (_weights t) i f1;
      init_loop n' (i + 1)
        (with_weights (with_entry (with_index t ix sz) ds ss (_size t)) ws)
  end.

(** [WeightTable(coarseVerts, genCtrlVertStencils, compactWeights)].  A
    negative count makes [reserve] and [resize] throw. *)
Definition WeightTable_new (coarseVerts : Z) (genCtrlVertStencils : bool)
    (compactWeights : bool) : option WeightTable :=
  let t0 := mkWeightTable [] [] [] [] [] [] [] 0 0 coarseVerts compactWeights in
  if decide (reserve_hint coarseVerts < 0) then None
  else if negb genCtrlVertStencils then Some t0
  else
    let t1 :=
      mkWeightTable (vresize coarseVerts 0 []) (vresize coarseVerts 0 [])
        (vresize coarseVerts f0 []) [] []
        (vresize coarseVerts 0 []) (vresize coarseVerts 0 [])
        0 0 coarseVerts compactWeights in
    t2 ← init_loop (Z.to_nat coarseVerts) 0 t1;
    let n := vsize (_sources t2) in
    Some (with_lastOffset (with_entry t2 (_dests t2) (_sources t2) n) (n - 1)).

(** *** [add], [merge], [AddWithWeight] *)

Section Engine.
Context {W : Type} `{Payload W}.

(** [WeightTable::add] *)
Definition add (src dst : Z) (weight : W) (weights : Accumulator W)
    (t : WeightTable) : option WeightTable :=
  t1 ← (if bool_decide (_dests t = [])
           || bool_decide (vback (_dests t) ≠ Some dst)
        then
          let t' :=
            if decide (dst + 1 > vsize (_indices t))
            then with_index t (vresize (dst + 1) 0 (_indices t))
                              (vresize (dst + 1) 0 (_sizes t))
            else t in
          ix ← vset (_indices t') dst (vsize (_sources t'));
          sz ← vset (_sizes t') dst 0;
          Some (with_lastOffset (with_index t' ix sz) (vsize (_sources t')))
        else Some t);
  n ← vget (_sizes t1) dst;
  sz ← vset (_sizes t1) dst (n + 1);
  let t2 := with_index t1 (_indices t1) sz in
  let t3 := with_entry t2 (vpush (_dests t2) dst) (vpush (_sources t2) src)
              (_size t2 + 1) in
  Some (PushBack weights weight t3).

(** The scan of [merge]: [Some (Some i)] is the first index in
    [lastOffset .. tableSize) whose source is [src]. *)
Fixpoint scan_sources (srcs : list Z) (src : Z) (i : Z) (n : nat)
  : option (option Z) :=
  match n with
  | O => Some None
  | S n' =>
      s ← vget srcs i;
      if bool_decide (s = src) then Some (Some i)
      else scan_sources srcs src (i + 1) n'
  end.

(** The condition guarding the scan, evaluated left to right. *)
Definition merge_guard (t : WeightTable) (lastOffset dst : Z)
  : option bool :=
  if _compactWeights t && negb (bool_decide (_dests t = [])) then
    d ← vget (_dests t) lastOffset;
    Some (bool_decide (d = dst))
  else Some false.

(** [WeightTable::merge] *)
Definition merge (src dst : Z) (weight weightFactor : W)
    (lastOffset tableSize : Z) (weights : Accumulator W)
    (t : WeightTable) : option WeightTable :=
  g ← merge_guard t lastOffset dst;
  if g : bool then
    r ← scan_sources (_sources t) src lastOffset
          (Z.to_nat (tableSize - lastOffset));
    match r with
    | Some i => Add weights i (w_mul weight weightFactor) t
    | None => add src dst (w_mul weight weightFactor) weights t
    end
  else add src dst (w_mul weight weightFactor) weights t.

(** The loop of [AddWithWeight] over the stencil of [src]. *)
Fixpoint resolve_loop (n : nat) (i : Z) (dest : Z) (weight : W)
    (weights : Accumulator W) (t : WeightTable) : option WeightTable :=
  match n with
  | O => Some t
  | S n' =>
      s ← vget (_sources t) i;
      if bool_decide (s < _coarseVertCount t) then
        w ← Get weights i t;
        t' ← merge s dest w weight (_lastOffset t) (_size t) weights t;
        resolve_loop n' (i + 1) dest weight weights t'
      else None
  end.

(** [WeightTable::AddWithWeight] *)
Definition AddWithWeight (src dest : Z) (weight : W)
    (weights : Accumulator W) (t : WeightTable) : option WeightTable :=
  if bool_decide (src < _coarseVertCount t) then
    merge src dest weight w_one (_lastOffset t) (_size t) weights t
  else
    len ← vget (_sizes t) src;
    start ← vget (_indices t) src;
    resolve_loop (Z.to_nat len) start dest weight weights t.
End Engine.

(** ** [class StencilBuilder] *)

(** Modelled from the spec: the external [Stencil] type (declared in a
    header that is not part of the sources) exposes a contribution count, an
    index array and a weight array. *)
Record Stencil := mkStencil {
  GetSizePtr : Z;                 (* the [int] that [GetSizePtr()] points to *)
  GetVertexIndices : list Z;
  GetWeights : list F
}.

(** [StencilBuilder::GetNumVerticesTotal] *)
Definition GetNumVerticesTotal (t : WeightTable) : Z := vsize (_weights t).

(** The value of an integer expression computed in [size_t]. *)
Definition size_t_wrap (n : Z) : Z := n mod 2 ^ 64.

(** [StencilBuilder::GetNumVertsInStencil]; [stencilIndex] and the right
    hand side of the comparison are [size_t]. *)
Definition GetNumVertsInStencil (stencilIndex : Z) (t : WeightTable)
  : option Z :=
  if decide (stencilIndex > size_t_wrap (vsize (_sizes t) - 1)) then Some 0
  else vget (_sizes t) stencilIndex.

(** [StencilBuilder::Index::AddWithWeight(Index const&, float)]; the handle
    [this] is the destination [_index]. *)
Definition Index_AddWithWeight (_index : Z) (src : Z) (weight : F)
    (t : WeightTable) : option WeightTable :=
  if feq weight f0 then Some t
  else AddWithWeight src _index weight ScalarAccumulator t.

Fixpoint stencil_loop (n : nat) (i : Z) (_index : Z) (src : Stencil)
    (weight : F) (t : WeightTable) : option WeightTable :=
  match n with
  | O => Some t
  | S n' =>
      w ← vget (GetWeights src) i;
      if feq w f0 then stencil_loop n' (i + 1) _index src weight t
      else
        srcIndex ← vget (GetVertexIndices src) i;
        t' ← AddWithWeight srcIndex _index (fmul weight w)
               ScalarAccumulator t;
        stencil_loop n' (i + 1) _index src weight t'
  end.

(** [StencilBuilder::Index::AddWithWeight(Stencil const&, float)] *)
Definition Index_AddWithWeight_stencil (_index : Z) (src : Stencil)
    (weight : F) (t : WeightTable) : option WeightTable :=
  if feq weight f0 then Some t
  else stencil_loop (Z.to_nat (GetSizePtr src)) 0 _index src weight t.

Fixpoint stencil_deriv_loop (n : nat) (i : Z) (_index : Z) (src : Stencil)
    (weight wdu wdv : F) (t : WeightTable) : option WeightTable :=
  match n with
  | O => Some t
  | S n' =>
      w ← vget (GetWeights src) i;
      if feq w f0 then
        stencil_deriv_loop n' (i + 1) _index src weight wdu wdv t
      else
        srcIndex ← vget (GetVertexIndices src) i;
        t' ← AddWithWeight srcIndex _index
               (pdw_mul (mkPointDerivWeight weight wdu wdv)
                        (PointDerivWeight_of_float w))
               PointDerivAccumulator t;
        stencil_deriv_loop n' (i + 1) _index src weight wdu wdv t'
  end.

(** [StencilBuilder::Index::AddWithWeight(Stencil const&, float, float, float)] *)
Definition Index_AddWithWeight_deriv (_index : Z) (src : Stencil)
    (weight wdu wdv : F) (t : WeightTable) : option WeightTable :=
  if feq weight f0 && feq wdu f0 && feq wdv f0 then Some t
  else stencil_deriv_loop (Z.to_nat (GetSizePtr src)) 0 _index src
         weight wdu wdv t.

End Model.

Arguments PointDerivWeight F : clear implicits.
Arguments WeightTable F : clear implicits.
Arguments Stencil F : clear implicits.
Arguments Accumulator F W : clear implicits.

(** * Specification vocabulary *)

Section Specification.
Context {F : Type} `{FloatOps F}.

(** The members that no accumulator writes. *)
Definition same_shape (t t' : WeightTable F) : Prop :=
  _dests t' = _dests t ∧ _sources t' = _sources t ∧
  _indices t' = _indices t ∧ _sizes t' = _sizes t ∧
  _size t' = _size t ∧ _lastOffset t' = _lastOffset t ∧
  _coarseVertCount t' = _coarseVertCount t ∧
  _compactWeights t' = _compactWeights t.

(** The representation invariant of the table.  [shape_ok] is the part
    that no accumulator can break: the destination tags run in parallel with
    the sources and the cached [_size], [_indices] and [_sizes] have one slot
    per stencil, every recorded range lies inside the flat storage, and the
    stencil that starts at [_lastOffset] is the one of the last destination
    and reaches to the end of the storage; a destination that owns an entry
    has a stencil of at least one entry. *)
Record shape_ok (t : WeightTable F) : Prop := {
  wf_dests : vsize (_dests t) = vsize (_sources t);
  wf_size : _size t = vsize (_sources t);
  wf_sizes : vsize (_sizes t) = vsize (_indices t);
  wf_last : _dests t ≠ [] → 0 ≤ _lastOffset t < vsize (_dests t);
  wf_open : ∀ i d, _lastOffset t ≤ i → vget (_dests t) i = Some d →
            vback (_dests t) = Some d;
  wf_cur : ∀ d, vback (_dests t) = Some d →
           vget (_indices t) d = Some (_lastOffset t) ∧
           vget (_sizes t) d = Some (vsize (_sources t) - _lastOffset t);
  wf_dest_range : ∀ d, d ∈ _dests t → 0 ≤ d < vsize (_sizes t);
  wf_dest_size : ∀ d n, d ∈ _dests t → vget (_sizes t) d = Some n → 1 ≤ n;
  wf_range : ∀ d o n, vget (_indices t) d = Some o →
             vget (_sizes t) d = Some n →
             0 ≤ o ∧ 0 ≤ n ∧ o + n ≤ vsize (_sources t)
}.

(** [wf] adds that [_weights] runs in parallel with [_sources]. *)
Definition wf (t : WeightTable F) : Prop :=
  shape_ok t ∧ vsize (_weights t) = vsize (_sources t).

(** [_indices] or [_sizes] after the conditional [resize] of [add]; the
    condition reads the length of [_indices] for both. *)
Definition grow (ix : list Z) (dst : Z) (l : list Z) : list Z :=
  if decide (dst + 1 > vsize ix) then vresize (dst + 1) 0 l else l.

(** The table [add] hands to [PushBack] when it starts a new stencil. *)
Definition add_new_table (src dst : Z) (t : WeightTable F) : WeightTable F :=
  mkWeightTable (vpush (_dests t) dst) (vpush (_sources t) src)
    (_weights t) (_duWeights t) (_dvWeights t)
    (<[Z.to_nat dst := vsize (_sources t)]> (grow (_indices t) dst (_indices t)))
    (<[Z.to_nat dst := 1]> (grow (_indices t) dst (_sizes t)))
    (_size t + 1) (vsize (_sources t))
    (_coarseVertCount t) (_compactWeights t).

(** The table [add] hands to [PushBack] when it extends the stencil of the
    last destination, whose size was [n]. *)
Definition add_same_table (src dst n : Z) (t : WeightTable F) : WeightTable F :=
  mkWeightTable (vpush (_dests t) dst) (vpush (_sources t) src)
    (_weights t) (_duWeights t) (_dvWeights t)
    (_indices t) (<[Z.to_nat dst := n + 1]> (_sizes t))
    (_size t + 1) (_lastOffset t)
    (_coarseVertCount t) (_compactWeights t).

(** The table [add] hands to [PushBack]. *)
Definition add_table (src dst : Z) (t : WeightTable F) : WeightTable F :=
  if decide (vback (_dests t) = Some dst)
  then add_same_table src dst (vsize (_sources t) - _lastOffset t) t
  else add_new_table src dst t.

(** What every write keeps: the construction parameters, the entries
    already stored as a prefix of the sources and destination tags, and the
    slots of [_sizes]. *)
Record extends (t t' : WeightTable F) : Prop := {
  ext_coarse : _coarseVertCount t' = _coarseVertCount t;
  ext_compact : _compactWeights t' = _compactWeights t;
  ext_sources : _sources t `prefix_of` _sources t';
  ext_dests : _dests t `prefix_of` _dests t';
  ext_sizes : vsize (_sizes t) ≤ vsize (_sizes t')
}.

(** The state of the constructor's loop: the five vectors it writes have
    [L] slots and the first [i] stencils are the trivial ones. *)
Definition filled (t : WeightTable F) (L i : Z) : Prop :=
  vsize (_indices t) = L ∧ vsize (_sizes t) = L ∧ vsize (_dests t) = L ∧
  vsize (_sources t) = L ∧ vsize (_weights t) = L ∧
  ∀ j, 0 ≤ j < i →
    vget (_indices t) j = Some j ∧ vget (_sizes t) j = Some 1 ∧
    vget (_dests t) j = Some j ∧ vget (_sources t) j = Some j ∧
    vget (_weights t) j = Some f1.

(** Every source stored in the table is a coarse vertex. *)
Definition coarse_only (t : WeightTable F) : Prop :=
  ∀ s, s ∈ _sources t → s < _coarseVertCount t.

(** What the engine relies on from an accumulator: it writes the weight
    vectors only, [PushBack] appends one slot, [Add] keeps the lengths, and
    [Add] and [Get] are defined on every slot once the backing vectors
    hold [n] slots ([acc_len t n]). *)
Class AccLaws {W : Type} (acc : Accumulator F W) := {
  acc_len : WeightTable F → Z → Prop;
  acc_len_ext : ∀ t t' n,
    _weights t' = _weights t → _duWeights t' = _duWeights t →
    _dvWeights t' = _dvWeights t → acc_len t n → acc_len t' n;
  acc_len_weights : ∀ t n, acc_len t n → vsize (_weights t) = n;
  PushBack_shape : ∀ w t, same_shape t (PushBack acc w t);
  PushBack_weights : ∀ w t,
    vsize (_weights (PushBack acc w t)) = vsize (_weights t) + 1;
  PushBack_prefix : ∀ w t, _weights t `prefix_of` _weights (PushBack acc w t);
  PushBack_len : ∀ w t n, acc_len t n → acc_len (PushBack acc w t) (n + 1);
  Add_shape : ∀ i w t t', Add acc i w t = Some t' → same_shape t t';
  Add_weights : ∀ i w t t', Add acc i w t = Some t' →
    vsize (_weights t') = vsize (_weights t);
  Add_len : ∀ i w t t' n, Add acc i w t = Some t' → acc_len t n → acc_len t' n;
  Add_is_Some : ∀ i w t n, acc_len t n → 0 ≤ i < n → is_Some (Add acc i w t);
  Get_is_Some : ∀ i t n, acc_len t n → 0 ≤ i < n → is_Some (Get acc i t)
}.

(** The slots of [_sizes] and [_indices] of the destinations other than
    [dst] are kept, or are new and zero. *)
Definition slots_kept (dst : Z) (t t' : WeightTable F) : Prop :=
  ∀ d x, d ≠ dst →
    (vget (_sizes t') d = Some x → x = 0 ∨ vget (_sizes t) d = Some x) ∧
    (vget (_indices t') d = Some x → x = 0 ∨ vget (_indices t) d = Some x).

(** Where the stencil of [dest] starts if a contribution is appended now:
    at [_lastOffset] when [dest] is the last destination (its stencil is
    open), at the end of the storage otherwise. *)
Definition open_start (t : WeightTable F) (dest : Z) : Z :=
  if decide (vback (_dests t) = Some dest) then _lastOffset t
  else vsize (_sources t).

(** The sources already in the open stencil of [dest]. *)
Definition open_sources (t : WeightTable F) (dest : Z) : list Z :=
  drop (Z.to_nat (open_start t dest)) (_sources t).

(** ** Sequences of engine calls and the caller's contract *)

(** One call [AddWithWeight(src, dest, weight, GetScalarAccumulator())]. *)
Record call := mkCall { c_src : Z; c_dest : Z; c_weight : F }.

Definition run_call (c : call) (t : WeightTable F) : option (WeightTable F) :=
  AddWithWeight (c_src c) (c_dest c) (c_weight c) ScalarAccumulator t.

Fixpoint run_calls (cs : list call) (t : WeightTable F)
  : option (WeightTable F) :=
  match cs with
  | [] => Some t
  | c :: cs' => t' ← run_call c t; run_calls cs' t'
  end.

(** Construction followed by a sequence of calls. *)
Definition build (coarseVerts : Z) (genCtrlVertStencils compactWeights : bool)
    (cs : list call) : option (WeightTable F) :=
  t ← WeightTable_new coarseVerts genCtrlVertStencils compactWeights;
  run_calls cs t.

(** The finalized destinations once a call for [dest] is issued while
    [cur] was being built. *)
Definition finalized (fin : list Z) (cur : option Z) (dest : Z) : list Z :=
  if bool_decide (cur = Some dest) then fin
  else match cur with Some d => d :: fin | None => fin end.

(** The sequential-by-destination, dependency-order contract: destination
    ids are not negative, the calls for one destination are consecutive (a
    finalized destination is never written again), and a source is a coarse
    vertex or a destination finalized earlier. *)
Fixpoint sequential_from (cv : Z) (fin : list Z) (cur : option Z)
    (cs : list call) : bool :=
  match cs with
  | [] => true
  | c :: cs' =>
      let fin' := finalized fin cur (c_dest c) in
      bool_decide (0 ≤ c_dest c) && bool_decide (c_dest c ∉ fin') &&
      (bool_decide (c_src c < cv) || bool_decide (c_src c ∈ fin')) &&
      sequential_from cv fin' (Some (c_dest c)) cs'
  end.

Definition sequential (cv : Z) (cs : list call) : bool :=
  sequential_from cv [] None cs.

(** Every stencil with a positive size lies inside the storage and holds
    coarse sources only. *)
Definition stencils_coarse (t : WeightTable F) (cv : Z) : Prop :=
  ∀ d k, vget (_sizes t) d = Some k → 0 < k →
    ∃ o, vget (_indices t) d = Some o ∧
         ∀ i, o ≤ i < o + k → ∃ s, vget (_sources t) i = Some s ∧ s < cv.

(** ** The value of a stencil and its algebraic expansion *)

(** The sum of the stored weights whose source is [c] among the [n]
    entries that start at index [i]. *)
Fixpoint range_coef (t : WeightTable F) (i : Z) (n : nat) (c : Z) : F :=
  match n with
  | O => f0
  | S n' =>
      match vget (_sources t) i, vget (_weights t) i with
      | Some s, Some w =>
          if bool_decide (s = c) then fadd w (range_coef t (i + 1) n' c)
          else range_coef t (i + 1) n' c
      | _, _ => f0
      end
  end.

(** The coefficient of the coarse vertex [c] in the stencil of [d]. *)
Definition stencil_coef (t : WeightTable F) (d c : Z) : F :=
  match vget (_indices t) d, vget (_sizes t) d with
  | Some o, Some k => range_coef t o (Z.to_nat k) c
  | _, _ => f0
  end.

(** The coefficient of [c] in the stencil that is open for [dest]. *)
Definition open_coef (t : WeightTable F) (dest c : Z) : F :=
  range_coef t (open_start t dest)
    (Z.to_nat (vsize (_sources t) - open_start t dest)) c.

(** The coefficient of [c] in what a call contributes for the source
    [src]: a coarse vertex stands for itself. *)
Definition src_coef (t : WeightTable F) (src c : Z) : F :=
  if bool_decide (src < _coarseVertCount t)
  then (if bool_decide (src = c) then f1 else f0)
  else stencil_coef t src c.

Definition fsum (l : list F) : F := foldr fadd f0 l.

(** The contribution chains.  [env v c] lists, for the vertex [v] and the
    coarse vertex [c], the product of the weights along every chain of
    contributions that leads from [c] to [v]; a call for [dest] with source
    [src] and weight [w] extends every chain that reaches [src] by [w]. *)
Definition src_chains (cv : Z) (env : Z → Z → list F) (s c : Z) : list F :=
  if bool_decide (s < cv)
  then (if bool_decide (s = c) then [f1] else [])
  else env s c.

Definition chain_step (cv : Z) (env : Z → Z → list F) (cl : call)
  : Z → Z → list F :=
  fun v c =>
    if bool_decide (v = c_dest cl)
    then env v c ++ map (fun q => fmul q (c_weight cl))
                        (src_chains cv env (c_src cl) c)
    else env v c.

Definition chain_products (cv : Z) (cs : list call) : Z → Z → list F :=
  fold_left (chain_step cv) cs (fun _ _ => []).

(** What a call for [dst] keeps, [P] being the start of the open stencil:
    the entries below [P] and the slots of the other destinations; the only
    destination tag it adds is [dst]. *)
Record kept (P dst : Z) (t t' : WeightTable F) : Prop := {
  kept_sources : ∀ j, j < P → vget (_sources t') j = vget (_sources t) j;
  kept_weights : ∀ j, j < P → vget (_weights t') j = vget (_weights t) j;
  kept_indices : ∀ d, d ≠ dst → d < vsize (_sizes t) →
                 vget (_indices t') d = vget (_indices t) d;
  kept_sizes : ∀ d, d ≠ dst → d < vsize (_sizes t) →
               vget (_sizes t') d = vget (_sizes t) d;
  kept_len : vsize (_sizes t) ≤ vsize (_sizes t');
  kept_coarse : _coarseVertCount t' = _coarseVertCount t;
  kept_dests : ∀ d, d ∈ _dests t' → d ∈ _dests t ∨ d = dst
}.

(** ** Sequences of facade writes *)

Inductive write :=
  | WIndex (dest src : Z) (weight : F)
  | WStencil (dest : Z) (src : Stencil F) (weight : F)
  | WDeriv (dest : Z) (src : Stencil F) (weight wdu wdv : F).

Definition do_write (x : write) (t : WeightTable F) : option (WeightTable F) :=
  match x with
  | WIndex dest src weight => Index_AddWithWeight dest src weight t
  | WStencil dest src weight => Index_AddWithWeight_stencil dest src weight t
  | WDeriv dest src weight wdu wdv =>
      Index_AddWithWeight_deriv dest src weight wdu wdv t
  end.

Fixpoint do_writes (xs : list write) (t : WeightTable F)
  : option (WeightTable F) :=
  match xs with
  | [] => Some t
  | x :: xs' => t' ← do_write x t; do_writes xs' t'
  end.

Definition write_dest (x : write) : Z :=
  match x with
  | WIndex dest _ _ | WStencil dest _ _ | WDeriv dest _ _ _ _ => dest
  end.

Definition is_deriv (x : write) : bool :=
  match x with WDeriv _ _ _ _ _ => true | _ => false end.

(** The states a [StencilBuilder] can be in: constructed, then written
    through the facade. *)
Definition built (coarseVerts : Z) (genCtrlVertStencils compactWeights : bool)
    (xs : list write) : option (WeightTable F) :=
  t ← WeightTable_new coarseVerts genCtrlVertStencils compactWeights;
  do_writes xs t.

(** The invariant of a run under the contract: the table is well formed and
    coarse-only, every finalized destination owns an entry, and the
    destination being built is the last one in the storage. *)
Definition run_inv (t : WeightTable F) (fin : list Z) (cur : option Z)
  : Prop :=
  wf t ∧ coarse_only t ∧ (∀ d, d ∈ fin → d ∈ _dests t) ∧
  (∀ d, cur = Some d → vback (_dests t) = Some d).

(** What every successful facade write keeps and establishes. *)
Definition write_post (dest : Z) (t t' : WeightTable F) : Prop :=
  wf t' ∧ coarse_only t' ∧ extends t t' ∧ slots_kept dest t t'.

(** The three weight vectors run in parallel with the sources. *)
Definition deriv_len (t : WeightTable F) : Prop :=
  vsize (_weights t) = vsize (_sources t) ∧
  vsize (_duWeights t) = vsize (_sources t) ∧
  vsize (_dvWeights t) = vsize (_sources t).

End Specification.

Arguments call F : clear implicits.
Arguments write F : clear implicits.

(** * Concrete values, tables and runs

    Binary32 values are written as [S754_finite sign mantissa exponent];
    the tables are the results of the runs named with them, as the lemmas
    that use them check by evaluation. *)

Definition b32_zero : spec_float := S754_zero false.
Definition b32_half : spec_float := S754_finite false 8388608 (-24).
Definition b32_06 : spec_float := S754_finite false 10066330 (-24).
Definition b32_04 : spec_float := S754_finite false 13421773 (-25).
Definition b32_03 : spec_float := S754_finite false 10066330 (-25).
Definition b32_02 : spec_float := S754_finite false 13421773 (-26).
Definition b32_three : spec_float := S754_finite false 12582912 (-22).
(** 2^-24, half of the distance from 1.0 to the next binary32 value. *)
Definition b32_eps : spec_float := S754_finite false 8388608 (-47).

(** The example of the specification: with three control vertices,
    [A = 1.0 * control0], [B = 0.6 * control1 + 0.4 * control2] and
    [dest = 0.5 * A + 0.5 * B], where [A], [B], [dest] are the vertices 3, 4
    and 5; and the table it builds after the three trivial stencils. *)
Definition example_calls : list (call spec_float) :=
  [ mkCall 0 3 b32_one;
    mkCall 1 4 b32_06; mkCall 2 4 b32_04;
    mkCall 3 5 b32_half; mkCall 4 5 b32_half ].

Definition example_table : WeightTable spec_float :=
  mkWeightTable [0; 1; 2; 3; 4; 4; 5; 5; 5] [0; 1; 2; 0; 1; 2; 0; 1; 2]
    [b32_one; b32_one; b32_one; b32_one; b32_06; b32_04;
     b32_half; b32_03; b32_02]
    [] [] [0; 1; 2; 3; 4; 6] [1; 1; 1; 1; 2; 3] 9 6 3 true.

(** The same calls in exact rational arithmetic. *)
Definition q_half : Qc := Q2Qc (1 # 2).
Definition q_06 : Qc := Q2Qc (6 # 10).
Definition q_04 : Qc := Q2Qc (4 # 10).

Definition exact_calls : list (call Qc) :=
  [ mkCall 0 3 (Q2Qc 1); mkCall 1 4 q_06; mkCall 2 4 q_04;
    mkCall 3 5 q_half; mkCall 4 5 q_half ].

(** One call whose destination is the control vertex 2, and the table it
    builds after the three trivial stencils: the contribution lands in the
    trivial stencil of vertex 2. *)
Definition control_dest_calls : list (call spec_float) :=
  [ mkCall 0 2 b32_half ].

Definition control_dest_table : WeightTable spec_float :=
  mkWeightTable [0; 1; 2; 2] [0; 1; 2; 0]
    [b32_one; b32_one; b32_one; b32_half] [] []
    [0; 1; 2] [1; 1; 2] 4 2 3 true.

(** The table constructed for two control vertices with their trivial
    stencils and compaction. *)
Definition ctrl2 : WeightTable spec_float :=
  mkWeightTable [0; 1] [0; 1] [b32_one; b32_one] [] [] [0; 1] [1; 1]
    2 1 2 true.

(** The empty table constructed for three control vertices. *)
Definition plain3 : WeightTable spec_float :=
  mkWeightTable [] [] [] [] [] [] [] 0 0 3 true.

(** The external one-entry stencil [{index 0, weight 1.0}]. *)
Definition unit_stencil : Stencil spec_float := mkStencil 1 [0] [b32_one].

(** Two derivative-aware writes to vertex 3 of the channels
    [(weight, du, dv) = (0, 1, 0)] and [(1, 0, 0)] through [unit_stencil],
    and the table they build from an empty one. *)
Definition deriv_writes : list (write spec_float) :=
  [ WDeriv 3 unit_stencil b32_zero b32_one b32_zero;
    WDeriv 3 unit_stencil b32_one b32_zero b32_zero ].

Definition deriv_table : WeightTable spec_float :=
  mkWeightTable [3] [0] [b32_one] [b32_one] [b32_zero]
    [0; 0; 0; 0] [0; 0; 0; 1] 1 0 3 true.

(** One derivative-aware write to vertex 1, and the table it builds after
    the trivial stencil of a single control vertex. *)
Definition deriv_ctrl_writes : list (write spec_float) :=
  [WDeriv 1 unit_stencil b32_one b32_zero b32_zero].

Definition deriv_ctrl_table : WeightTable spec_float :=
  mkWeightTable [0; 1] [0; 0] [b32_one; b32_one] [b32_zero] [b32_zero]
    [0; 1] [1; 1] 2 1 1 true.

(** One scalar write to vertex 3 that skips vertex 2, the table it builds
    from an empty one for two control vertices, and the table it builds after
    the two trivial stencils. *)
Definition sparse_writes : list (write spec_float) := [WIndex 3 0 b32_one].

Definition sparse_table : WeightTable spec_float :=
  mkWeightTable [3] [0] [b32_one] [] [] [0; 0; 0; 0] [0; 0; 0; 1]
    1 0 2 true.

Definition sparse_ctrl_table : WeightTable spec_float :=
  mkWeightTable [0; 1; 3] [0; 1; 0] [b32_one; b32_one; b32_one] [] []
    [0; 1; 0; 2] [1; 1; 0; 1] 3 2 2 true.

(** * Further vocabulary: tags, frames, views *)

Section Tags.
Context {F : Type} `{FloatOps F}.

(** What the frame properties rely on from an accumulator: [PushBack] keeps
    every stored slot of the three weight vectors, and [Add] writes the slot
    it is given only. *)
Class AccFrame {W : Type} (acc : Accumulator F W) : Prop := {
  PushBack_old : ∀ w t j,
    (∀ x, vget (_weights t) j = Some x →
          vget (_weights (PushBack acc w t)) j = Some x) ∧
    (∀ x, vget (_duWeights t) j = Some x →
          vget (_duWeights (PushBack acc w t)) j = Some x) ∧
    (∀ x, vget (_dvWeights t) j = Some x →
          vget (_dvWeights (PushBack acc w t)) j = Some x);
  Add_other : ∀ i w t t' j, Add acc i w t = Some t' → j ≠ i →
    vget (_weights t') j = vget (_weights t) j ∧
    vget (_duWeights t') j = vget (_duWeights t) j ∧
    vget (_dvWeights t') j = vget (_dvWeights t) j
}.

(** Every entry inside the recorded range of a stencil carries the tag of
    that stencil's destination in [_dests]. *)
Definition tagged (t : WeightTable F) : Prop :=
  ∀ d o k i, vget (_indices t) d = Some o → vget (_sizes t) d = Some k →
    o ≤ i < o + k → vget (_dests t) i = Some d.

(** No two entries inside the recorded range of a stencil have the same
    source. *)
Definition distinct_sources (t : WeightTable F) : Prop :=
  ∀ d o k i j s, vget (_indices t) d = Some o → vget (_sizes t) d = Some k →
    o ≤ i < o + k → o ≤ j < o + k →
    vget (_sources t) i = Some s → vget (_sources t) j = Some s → i = j.

(** The stencil of [d] is the same in [t'] as in [t]: same offset, same
    size, and in every entry of the range the same source and weight; a
    derivative weight stored for the entry is kept too. *)
Definition stencil_kept (d : Z) (t t' : WeightTable F) : Prop :=
  ∀ o k, vget (_indices t) d = Some o → vget (_sizes t) d = Some k →
    vget (_indices t') d = Some o ∧ vget (_sizes t') d = Some k ∧
    ∀ i, o ≤ i < o + k →
      vget (_sources t') i = vget (_sources t) i ∧
      vget (_weights t') i = vget (_weights t) i ∧
      (∀ x, vget (_duWeights t) i = Some x →
            vget (_duWeights t') i = Some x) ∧
      (∀ x, vget (_dvWeights t) i = Some x →
            vget (_dvWeights t') i = Some x).

(** The stencils of all destinations other than [dst] are kept. *)
Definition others_kept (dst : Z) (t t' : WeightTable F) : Prop :=
  ∀ d, d ≠ dst → stencil_kept d t t'.

(** The table as the scalar interface sees it: the derivative vectors are
    dropped. *)
Definition scalar_view (t : WeightTable F) : WeightTable F :=
  with_derivs t [] [].

(** The engine calls a facade call with an external stencil amounts to: one
    per entry whose weight is not 0, with the product of the two weights. *)
Fixpoint stencil_calls (dest : Z) (weight : F) (indices : list Z)
    (weights : list F) : list (call F) :=
  match indices, weights with
  | ix :: indices', w :: weights' =>
      if feq w f0 then stencil_calls dest weight indices' weights'
      else mkCall ix dest (fmul weight w)
           :: stencil_calls dest weight indices' weights'
  | _, _ => []
  end.

(** A slot of [_sizes] whose vertex owns no stored entry holds 0. *)
Definition unowned_empty (t : WeightTable F) : Prop :=
  ∀ d k, vget (_sizes t) d = Some k → d ∉ _dests t → k = 0.

(** The invariants of the tables reached by writes. *)
Definition reach_inv (t : WeightTable F) : Prop :=
  wf t ∧ coarse_only t ∧ tagged t ∧ unowned_empty t.

(** Two tables that describe the same stencils: the same coarse vertex
    count, the same destination written last, the same destinations owning
    entries and the same coefficient of every coarse vertex in every
    stencil. *)
Definition agree (t1 t2 : WeightTable F) : Prop :=
  _coarseVertCount t1 = _coarseVertCount t2 ∧
  vback (_dests t1) = vback (_dests t2) ∧
  (∀ d, d ∈ _dests t1 ↔ d ∈ _dests t2) ∧
  ∀ d c, stencil_coef t1 d c = stencil_coef t2 d c.
(** The scalar counterpart of a write: the derivative-aware call without
    its two derivative weights. *)
Definition scalar_write (x : write F) : write F :=
  match x with
  | WDeriv dest src weight _ _ => WStencil dest src weight
  | _ => x
  end.

(** The position weight of a derivative-aware write is not 0. *)
Definition position_nonzero (x : write F) : bool :=
  match x with
  | WDeriv _ _ weight _ _ => negb (feq weight f0)
  | _ => true
  end.

End Tags.

(** * Channels of the derivative payload, and the chains of a run *)

Section Channels.
Context {F : Type} `{FloatOps F}.

(** The three channels of the derivative payload. *)
Inductive channel := ChannelP | ChannelDu | ChannelDv.

(** The component of a payload in a channel. *)
Definition chan (c : channel) (a : PointDerivWeight F) : F :=
  match c with ChannelP => p a | ChannelDu => du a | ChannelDv => dv a end.

(** The weight vector of the table that holds a channel. *)
Definition chan_weights (c : channel) (t : WeightTable F) : list F :=
  match c with
  | ChannelP => _weights t
  | ChannelDu => _duWeights t
  | ChannelDv => _dvWeights t
  end.

(** One channel of a table on its own: the table of the scalar interface
    whose weights are the weights of that channel. *)
Definition channel_view (c : channel) (t : WeightTable F) : WeightTable F :=
  mkWeightTable (_dests t) (_sources t) (chan_weights c t) [] []
    (_indices t) (_sizes t) (_size t) (_lastOffset t)
    (_coarseVertCount t) (_compactWeights t).

(** The first call of a run does not extend a stencil that the constructor
    left open: with pre-populated control vertex stencils the trivial stencil
    of the last control vertex, [coarseVerts - 1], is the one at the end of
    the storage. *)
Definition fresh_start (cv : Z) (gen : bool) (cs : list (call F)) : bool :=
  match cs with
  | [] => true
  | c :: _ => negb (gen && bool_decide (c_dest c = cv - 1))
  end.

(** The invariant of a run under the contract that ties the table to the
    chains: every finalized destination owns an entry, the destination being
    built is the last one in the storage, and the coefficients of every
    destination of the run are the sums of its chain products. *)
Definition chain_inv (cv : Z) (t : WeightTable F) (env : Z → Z → list F)
    (fin : list Z) (cur : option Z) : Prop :=
  reach_inv t ∧ _coarseVertCount t = cv ∧
  (∀ d, d ∈ fin → d ∈ _dests t) ∧
  (∀ d, cur = Some d → vback (_dests t) = Some d) ∧
  (∀ d c, d ∈ fin ∨ cur = Some d → stencil_coef t d c = fsum (env d c)) ∧
  (∀ d c, ¬ (d ∈ fin ∨ cur = Some d) → env d c = []).

End Channels.

(** The rational number a binary32 value stands for (0 for the zeros, the
    infinities and NaN). *)
Definition b32_value (x : spec_float) : Q :=
  match x with
  | S754_finite s m e =>
      ((if s then -1 else 1) * inject_Z (Z.pos m) * 2 ^ e)%Q
  | _ => 0%Q
  end.

(** A call with its binary32 weight read as the rational it stands for. *)
Definition exact_call (c : call spec_float) : call Qc :=
  mkCall (c_src c) (c_dest c) (Q2Qc (b32_value (c_weight c))).

(** Calls on which cancellation shows: vertex 3 receives control vertex 0
    three times, with the weights 2^24, 1 and -2^24, and vertex 4 receives
    vertex 3; and the table they build from an empty one with compaction. *)
Definition b32_2p24 : spec_float := S754_finite false 8388608 1.
Definition b32_m2p24 : spec_float := S754_finite true 8388608 1.

Definition cancel_calls : list (call spec_float) :=
  [ mkCall 0 3 b32_2p24; mkCall 0 3 b32_one; mkCall 0 3 b32_m2p24;
    mkCall 3 4 b32_one ].

Definition cancel_table : WeightTable spec_float :=
  mkWeightTable [3; 4] [0; 0] [b32_zero; b32_zero] [] []
    [0; 0; 0; 0; 1] [0; 0; 0; 1; 1] 2 1 1 true.

(** One write that opens vertex 2 with the coarse source 0, the table it
    builds from an empty one for two control vertices, and that table after
    two more contributions of 0.5 for the source 0. *)
Definition b32_15 : spec_float := S754_finite false 12582912 (-23).

Definition held_writes : list (write spec_float) := [WIndex 2 0 b32_half].

Definition held_table : WeightTable spec_float :=
  mkWeightTable [2] [0] [b32_half] [] [] [0; 0; 0] [0; 0; 1] 1 0 2 true.

Definition held_again_table : WeightTable spec_float :=
  mkWeightTable [2] [0] [b32_15] [] [] [0; 0; 0] [0; 0; 1] 1 0 2 true.

(** The table constructed for one control vertex with its trivial stencil,
    and that table after the derivative-aware contribution [(0, 1, 0)] of
    control vertex 0 to vertex 1. *)
Definition ctrl1 : WeightTable spec_float :=
  mkWeightTable [0] [0] [b32_one] [] [] [0] [1] 1 0 1 true.

Definition ctrl1_du_table : WeightTable spec_float :=
  mkWeightTable [0; 1] [0; 0] [b32_one; b32_zero] [b32_one] [b32_zero]
    [0; 1] [1; 1] 2 1 1 true.

(** [deriv_table] after the two contributions [(0, 1, 0)] and [(1, 0, 0)]
    for the source 0 that vertex 3 already holds. *)
Definition b32_two : spec_float := S754_finite false 8388608 (-22).

Definition deriv_again_table : WeightTable spec_float :=
  mkWeightTable [3] [0] [b32_two] [b32_two] [b32_zero]
    [0; 0; 0; 0] [0; 0; 0; 1] 1 0 3 true.

(** The calls of the worked example as facade writes. *)
Definition example_writes : list (write spec_float) :=
  [ WIndex 3 0 b32_one;
    WIndex 4 1 b32_06; WIndex 4 2 b32_04;
    WIndex 5 3 b32_half; WIndex 5 4 b32_half ].

(** The table after the first three writes of the example, and the same
    two tables when compaction is off. *)
Definition example_prefix_table : WeightTable spec_float :=
  mkWeightTable [0; 1; 2; 3; 4; 4] [0; 1; 2; 0; 1; 2]
    [b32_one; b32_one; b32_one; b32_one; b32_06; b32_04]
    [] [] [0; 1; 2; 3; 4] [1; 1; 1; 1; 2] 6 4 3 true.

Definition flat_prefix_table : WeightTable spec_float :=
  mkWeightTable [0; 1; 2; 3; 4; 4] [0; 1; 2; 0; 1; 2]
    [b32_one; b32_one; b32_one; b32_one; b32_06; b32_04]
    [] [] [0; 1; 2; 3; 4] [1; 1; 1; 1; 2] 6 4 3 false.

Definition flat_table : WeightTable spec_float :=
  mkWeightTable [0; 1; 2; 3; 4; 4; 5; 5; 5] [0; 1; 2; 0; 1; 2; 0; 1; 2]
    [b32_one; b32_one; b32_one; b32_one; b32_06; b32_04;
     b32_half; b32_03; b32_02]
    [] [] [0; 1; 2; 3; 4; 6] [1; 1; 1; 1; 2; 3] 9 6 3 false.

(** The table before the last write of the example, compaction off. *)
Definition flat_mid_table : WeightTable spec_float :=
  mkWeightTable [0; 1; 2; 3; 4; 4; 5] [0; 1; 2; 0; 1; 2; 0]
    [b32_one; b32_one; b32_one; b32_one; b32_06; b32_04; b32_half]
    [] [] [0; 1; 2; 3; 4; 6] [1; 1; 1; 1; 2; 1] 7 6 3 false.

(** An external stencil with a zero weight in the middle. *)
Definition gap_stencil : Stencil spec_float :=
  mkStencil 3 [0; 0; 1] [b32_half; b32_zero; b32_half].

(** The first four writes of the example in exact rational arithmetic, and
    the table they build after the three trivial stencils: vertex 5 is open
    and holds half of vertex 3. *)
Definition exact_writes : list (write Qc) :=
  [ WIndex 3 0 (Q2Qc 1%Q); WIndex 4 1 q_06; WIndex 4 2 q_04;
    WIndex 5 3 q_half ].

Definition exact_mid_table : WeightTable Qc :=
  match built 3 true true exact_writes with
  | Some t => t
  | None => mkWeightTable [] [] [] [] [] [] [] 0 0 3 true
  end.

(** Calls in exact arithmetic on which compaction shows: vertex 3 receives
    control vertex 0 twice, and vertex 4 receives vertex 3 and control
    vertex 0; and the tables they build after the two trivial stencils with
    compaction on and off. *)
Definition merging_calls : list (call Qc) :=
  [ mkCall 0 3 q_half; mkCall 1 3 q_04; mkCall 0 3 q_half;
    mkCall 3 4 q_06; mkCall 0 4 q_04 ].

Definition merged_table : WeightTable Qc :=
  match build 2 true true merging_calls with
  | Some t => t
  | None => mkWeightTable [] [] [] [] [] [] [] 0 0 2 true
  end.

Definition unmerged_table : WeightTable Qc :=
  match build 2 true false merging_calls with
  | Some t => t
  | None => mkWeightTable [] [] [] [] [] [] [] 0 0 2 false
  end.

(** * Facts about the vector operations *)

Section VectorFacts.
Context {A : Type}.
Implicit Types (v : list A) (i : Z) (x : A).

Lemma vget_Some v i x :
  vget v i = Some x ↔ 0 ≤ i ∧ v !! Z.to_nat i = Some x.
Proof.
  unfold vget. case_decide as Hi.
  - split; [by intros Hl|by intros [_ Hl]].
  - split; [done|]. intros [Hi' _]. lia.
Qed.

Lemma vget_range v i x : vget v i = Some x → 0 ≤ i < vsize v.
Proof.
  intros [Hi Hl]%vget_Some. apply lookup_lt_Some in Hl.
  unfold vsize. lia.
Qed.

Lemma vget_is_Some v i : 0 ≤ i < vsize v → is_Some (vget v i).
Proof.
  intros Hi. unfold vget. rewrite decide_True by lia.
  apply lookup_lt_is_Some_2. unfold vsize in Hi. lia.
Qed.

Lemma vget_None v i : ¬ (0 ≤ i < vsize v) → vget v i = None.
Proof.
  intros Hi. destruct (vget v i) eqn:E; [|done].
  apply vget_range in E. lia.
Qed.

Lemma vget_nat v (n : nat) : vget v (Z.of_nat n) = v !! n.
Proof. unfold vget. rewrite decide_True by lia. by rewrite Nat2Z.id. Qed.

Lemma vset_Some v i x :
  0 ≤ i < vsize v → vset v i x = Some (<[Z.to_nat i := x]> v).
Proof. intros Hi. unfold vset. by rewrite decide_True. Qed.

Lemma vset_inv v i x v' :
  vset v i x = Some v' → 0 ≤ i < vsize v ∧ v' = <[Z.to_nat i := x]> v.
Proof.
  unfold vset. case_decide as Hi; [|done]. intros Hv.
  injection Hv as <-. done.
Qed.

Lemma vsize_insert v (n : nat) x : vsize (<[n := x]> v) = vsize v.
Proof. unfold vsize. by rewrite length_insert. Qed.

Lemma vsize_vpush v x : vsize (vpush v x) = vsize v + 1.
Proof. unfold vsize, vpush. rewrite length_app. simpl. lia. Qed.

Lemma vsize_nonneg v : 0 ≤ vsize v.
Proof. unfold vsize. lia. Qed.

Lemma vsize_vresize n d v : 0 ≤ n → vsize (vresize n d v) = n.
Proof. intros Hn. unfold vsize, vresize. rewrite length_resize. lia. Qed.

Lemma vget_insert_eq v i x :
  0 ≤ i < vsize v → vget (<[Z.to_nat i := x]> v) i = Some x.
Proof.
  intros Hi. apply vget_Some. split; [lia|].
  apply list_lookup_insert_eq. unfold vsize in Hi. lia.
Qed.

Lemma vget_insert_ne v i j x :
  0 ≤ i → i ≠ j → vget (<[Z.to_nat i := x]> v) j = vget v j.
Proof.
  intros Hi Hne. unfold vget. case_decide; [|done].
  apply list_lookup_insert_ne. lia.
Qed.

Lemma vget_vpush_lt v i x : i < vsize v → vget (vpush v x) i = vget v i.
Proof.
  intros Hi. unfold vget, vpush. case_decide; [|done].
  apply lookup_app_l. unfold vsize in Hi. lia.
Qed.

Lemma vget_vpush_eq v x : vget (vpush v x) (vsize v) = Some x.
Proof.
  unfold vsize. rewrite vget_nat. unfold vpush.
  by rewrite lookup_app_r, Nat.sub_diag.
Qed.

Lemma vget_vpush_Some v i x y :
  vget (vpush v x) i = Some y →
  (i < vsize v ∧ vget v i = Some y) ∨ (i = vsize v ∧ y = x).
Proof.
  intros Hg. destruct (decide (i < vsize v)) as [Hlt|Hge].
  - left. by rewrite vget_vpush_lt in Hg.
  - right. pose proof (vget_range _ _ _ Hg) as Hr.
    rewrite vsize_vpush in Hr. assert (i = vsize v) as -> by lia.
    rewrite vget_vpush_eq in Hg. injection Hg as <-. done.
Qed.

Lemma vback_vpush v x : vback (vpush v x) = Some x.
Proof. apply last_snoc. Qed.

Lemma vback_vget v : v ≠ [] → vback v = vget v (vsize v - 1).
Proof.
  intros Hv. unfold vback. rewrite last_lookup.
  destruct v as [|a v]; [done|].
  unfold vsize. simpl length.
  replace (Z.of_nat (S (length v)) - 1) with (Z.of_nat (length v)) by lia.
  by rewrite vget_nat.
Qed.

Lemma vget_vresize_old n d v i :
  i < vsize v → i < n → vget (vresize n d v) i = vget v i.
Proof.
  intros Hi Hn. unfold vget, vresize. case_decide; [|done].
  unfold vsize in Hi. rewrite resize_spec.
  rewrite lookup_app_l by (rewrite length_take; lia).
  apply lookup_take_lt. lia.
Qed.

Lemma vget_vresize_new n d v i :
  vsize v ≤ i < n → vget (vresize n d v) i = Some d.
Proof.
  intros Hi. unfold vget, vresize. unfold vsize in Hi.
  rewrite decide_True by lia. rewrite resize_spec.
  rewrite lookup_app_r by (rewrite length_take; lia).
  apply lookup_replicate_2. rewrite length_take. lia.
Qed.

Lemma elem_of_vget v x : x ∈ v ↔ ∃ i, vget v i = Some x.
Proof.
  rewrite list_elem_of_lookup. split.
  - intros [n Hn]. exists (Z.of_nat n). by rewrite vget_nat.
  - intros [i [_ Hi]%vget_Some]. eauto.
Qed.
End VectorFacts.

(** * The accumulators *)

Section AccumulatorFacts.
Context {F : Type} `{FloatOps F}.
Implicit Types (t : WeightTable F).

Lemma same_shape_refl t : same_shape t t.
Proof. by repeat split. Qed.

#[export] Program Instance ScalarAccumulator_laws
  : AccLaws (ScalarAccumulator (F:=F)) := {
  acc_len t n := vsize (_weights t) = n
}.
Next Obligation. simpl. intros t t' n -> _ _. done. Qed.
Next Obligation. simpl. done. Qed.
Next Obligation. intros. by repeat split. Qed.
Next Obligation. intros. simpl. apply vsize_vpush. Qed.
Next Obligation. intros. simpl. by apply prefix_app_r. Qed.
Next Obligation. simpl. intros w t n <-. apply vsize_vpush. Qed.
Next Obligation.
  simpl. intros i w t t' Ht. simplify_option_eq. by repeat split.
Qed.
Next Obligation.
  simpl. intros i w t t' Ht. simplify_option_eq.
  match goal with Hs : vset _ _ _ = Some _ |- _ =>
    apply vset_inv in Hs as [_ ->] end.
  apply vsize_insert.
Qed.
Next Obligation.
  simpl. intros i w t t' n Ht <-. simplify_option_eq.
  match goal with Hs : vset _ _ _ = Some _ |- _ =>
    apply vset_inv in Hs as [_ ->] end.
  apply vsize_insert.
Qed.
Next Obligation.
  simpl. intros i w t n <- Hi.
  destruct (vget_is_Some (_weights t) i Hi) as [w0 ->]. simpl.
  by rewrite vset_Some.
Qed.
Next Obligation. simpl. intros i t n <- Hi. by apply vget_is_Some. Qed.

#[export] Program Instance PointDerivAccumulator_laws
  : AccLaws (PointDerivAccumulator (F:=F)) := {
  acc_len t n :=
    vsize (_weights t) = n ∧ vsize (_duWeights t) = n ∧
    vsize (_dvWeights t) = n
}.
Next Obligation. simpl. intros t t' n -> -> ->. done. Qed.
Next Obligation. simpl. intros t n (Hw & _). done. Qed.
Next Obligation. intros. by repeat split. Qed.
Next Obligation. intros. simpl. apply vsize_vpush. Qed.
Next Obligation. intros. simpl. by apply prefix_app_r. Qed.
Next Obligation.
  simpl. intros w t n (<- & Hu & Hv). rewrite !vsize_vpush. lia.
Qed.
Next Obligation.
  simpl. intros i w t t' Ht. simplify_option_eq. by repeat split.
Qed.
Next Obligation.
  simpl. intros i w t t' Ht. simplify_option_eq.
  repeat match goal with Hs : vset _ _ _ = Some _ |- _ =>
    apply vset_inv in Hs as [_ ->] end.
  apply vsize_insert.
Qed.
Next Obligation.
  simpl. intros i w t t' n Ht (<- & Hu & Hv). simplify_option_eq.
  repeat match goal with Hs : vset _ _ _ = Some _ |- _ =>
    apply vset_inv in Hs as [_ ->] end.
  by rewrite !vsize_insert.
Qed.
Next Obligation.
  simpl. intros i w t n (Hw & Hu & Hv) Hi.
  destruct (vget_is_Some (_weights t) i) as [w0 ->]; [lia|]. simpl.
  rewrite vset_Some by lia. simpl.
  destruct (vget_is_Some (_duWeights t) i) as [w1 ->]; [lia|]. simpl.
  rewrite vset_Some by lia. simpl.
  destruct (vget_is_Some (_dvWeights t) i) as [w2 ->]; [lia|]. simpl.
  by rewrite vset_Some by lia.
Qed.
Next Obligation.
  simpl. intros i t n (Hw & Hu & Hv) Hi.
  destruct (vget_is_Some (_weights t) i) as [w0 ->]; [lia|]. simpl.
  destruct (vget_is_Some (_duWeights t) i) as [w1 ->]; [lia|]. simpl.
  destruct (vget_is_Some (_dvWeights t) i) as [w2 ->]; [lia|]. done.
Qed.
End AccumulatorFacts.

(** * The engine: [add], [merge], [AddWithWeight] *)

Section EngineFacts.
Context {F : Type} `{FloatOps F} {W : Type} `{!Payload W}.
Context (acc : Accumulator F W) `{!AccLaws acc}.
Implicit Types (t : WeightTable F) (src dst : Z) (w : W).

Lemma shape_ok_same t t' : same_shape t t' → shape_ok t → shape_ok t'.
Proof.
  intros (Hd & Hs & Hi & Hz & Hn & Hl & _ & _) [].
  split; rewrite ?Hd, ?Hs, ?Hi, ?Hz, ?Hn, ?Hl; done.
Qed.

Lemma vsize_grow ix dst l :
  0 ≤ dst → vsize l = vsize ix → dst < vsize (grow ix dst l).
Proof.
  intros Hd Hl. unfold grow. case_decide.
  - rewrite vsize_vresize; lia.
  - lia.
Qed.

Lemma vsize_grow_eq ix dst l :
  0 ≤ dst → vsize l = vsize ix →
  vsize (grow ix dst l) = Z.max (vsize ix) (dst + 1).
Proof.
  intros Hd Hl. unfold grow. case_decide.
  - rewrite vsize_vresize; lia.
  - lia.
Qed.

Lemma vget_grow_old ix dst l i :
  vsize l = vsize ix → i < vsize l → vget (grow ix dst l) i = vget l i.
Proof.
  intros Hl Hi. unfold grow. case_decide; [|done].
  apply vget_vresize_old; lia.
Qed.

Lemma vget_grow_new ix dst l i :
  vsize l = vsize ix → vsize l ≤ i ≤ dst → vget (grow ix dst l) i = Some 0.
Proof.
  intros Hl Hi. unfold grow. rewrite decide_True by lia.
  apply vget_vresize_new. lia.
Qed.

Lemma vget_grow_Some ix dst l i x :
  0 ≤ dst → vsize l = vsize ix → vget (grow ix dst l) i = Some x →
  vget l i = Some x ∨ (vsize l ≤ i ∧ x = 0).
Proof.
  intros Hd Hl Hg. destruct (decide (i < vsize l)) as [Hi|Hi].
  - left. by rewrite vget_grow_old in Hg.
  - right. split; [lia|]. pose proof (vget_range _ _ _ Hg) as Hr.
    rewrite vsize_grow_eq in Hr by done.
    rewrite vget_grow_new in Hg by lia. congruence.
Qed.

(** [add] when [dst] is not the last destination: a new stencil starts. *)
Lemma add_new src dst w t :
  0 ≤ dst → vsize (_sizes t) = vsize (_indices t) →
  vback (_dests t) ≠ Some dst →
  add src dst w acc t = Some (PushBack acc w (add_new_table src dst t)).
Proof.
  intros Hd Hsz Hb. unfold add.
  rewrite (bool_decide_eq_true_2 _ Hb), orb_true_r.
  assert (dst < vsize (grow (_indices t) dst (_indices t))) as Hi
    by (by apply vsize_grow).
  assert (dst < vsize (grow (_indices t) dst (_sizes t))) as Hs
    by (by apply vsize_grow).
  unfold grow in Hi, Hs. unfold add_new_table, grow.
  destruct (decide (dst + 1 > vsize (_indices t))); simpl;
    rewrite !vset_Some by lia; simpl;
    rewrite vget_insert_eq by lia; simpl;
    rewrite vset_Some by (rewrite vsize_insert; lia); simpl;
    by rewrite list_insert_insert_eq.
Qed.

(** [add] when [dst] is the last destination: its stencil grows. *)
Lemma add_same src dst w t n :
  vback (_dests t) = Some dst → vget (_sizes t) dst = Some n →
  add src dst w acc t = Some (PushBack acc w (add_same_table src dst n t)).
Proof.
  intros Hb Hn. unfold add.
  assert (_dests t ≠ []) as Hne by (intros E; by rewrite E in Hb).
  rewrite (bool_decide_eq_false_2 _ Hne).
  rewrite bool_decide_eq_false_2 by (intros E; by apply E).
  simpl. rewrite Hn. simpl.
  rewrite vset_Some by (by eapply vget_range). done.
Qed.

Lemma shape_ok_add_new src dst t :
  0 ≤ dst → shape_ok t → vback (_dests t) ≠ Some dst →
  shape_ok (add_new_table src dst t).
Proof.
  intros Hd [] Hb.
  pose proof (vsize_grow (_indices t) dst (_indices t) Hd eq_refl) as Hgi.
  pose proof (vsize_grow (_indices t) dst (_sizes t) Hd wf_sizes0) as Hgs.
  pose proof (vsize_grow_eq (_indices t) dst (_indices t) Hd eq_refl) as Hei.
  pose proof (vsize_grow_eq (_indices t) dst (_sizes t) Hd wf_sizes0) as Hes.
  split; unfold add_new_table; simpl.
  - rewrite !vsize_vpush. lia.
  - rewrite vsize_vpush. lia.
  - rewrite !vsize_insert. lia.
  - intros _. rewrite vsize_vpush. pose proof (vsize_nonneg (_sources t)). lia.
  - intros i d Hi [[Hlt _]|[_ ->]]%vget_vpush_Some; [lia|].
    apply vback_vpush.
  - intros d Hbk. rewrite vback_vpush in Hbk. injection Hbk as <-.
    rewrite !vget_insert_eq by lia. rewrite vsize_vpush.
    split; [done|]. f_equal. lia.
  - intros d [Hin| ->%list_elem_of_singleton]%elem_of_app.
    + apply wf_dest_range0 in Hin. rewrite vsize_insert. lia.
    + rewrite vsize_insert. lia.
  - intros d n Hin Hn. destruct (decide (d = dst)) as [->|Hne].
    + rewrite vget_insert_eq in Hn by lia. injection Hn as <-. lia.
    + rewrite vget_insert_ne in Hn by done.
      apply elem_of_app in Hin as [Hin|Hin%list_elem_of_singleton]; [|done].
      pose proof (wf_dest_range0 _ Hin).
      rewrite vget_grow_old in Hn by lia. by eapply wf_dest_size0.
  - intros d o n Ho Hn. rewrite vsize_vpush.
    destruct (decide (d = dst)) as [->|Hne].
    + rewrite vget_insert_eq in Ho, Hn by lia.
      pose proof (vsize_nonneg (_sources t)).
      injection Ho as <-. injection Hn as <-. lia.
    + rewrite vget_insert_ne in Ho, Hn by done.
      destruct (vget_grow_Some _ _ _ _ _ Hd eq_refl Ho) as [Ho'|[Ho' ->]];
        destruct (vget_grow_Some _ _ _ _ _ Hd wf_sizes0 Hn) as [Hn'|[Hn' ->]].
      * specialize (wf_range0 _ _ _ Ho' Hn'). lia.
      * apply vget_range in Ho'. lia.
      * apply vget_range in Hn'. lia.
      * pose proof (vsize_nonneg (_sources t)). lia.
Qed.

Lemma shape_ok_add_same src dst t :
  shape_ok t → vback (_dests t) = Some dst →
  shape_ok (add_same_table src dst (vsize (_sources t) - _lastOffset t) t).
Proof.
  intros [] Hb.
  destruct (wf_cur0 _ Hb) as [Hix Hsz].
  pose proof (vget_range _ _ _ Hsz) as Hr.
  assert (_dests t ≠ []) as Hne by (intros E; by rewrite E in Hb).
  split; unfold add_same_table; simpl.
  - rewrite !vsize_vpush. lia.
  - rewrite vsize_vpush. lia.
  - rewrite vsize_insert. lia.
  - intros _. rewrite vsize_vpush. specialize (wf_last0 Hne). lia.
  - intros i d Hi [[Hlt Hg]|[_ ->]]%vget_vpush_Some.
    + rewrite (wf_open0 _ _ Hi Hg) in Hb. injection Hb as ->.
      apply vback_vpush.
    + apply vback_vpush.
  - intros d Hbk. rewrite vback_vpush in Hbk. injection Hbk as <-.
    rewrite vget_insert_eq by lia. rewrite vsize_vpush.
    split; [done|]. f_equal. lia.
  - intros d [Hin| ->%list_elem_of_singleton]%elem_of_app.
    + apply wf_dest_range0 in Hin. rewrite vsize_insert. lia.
    + rewrite vsize_insert. lia.
  - intros d n Hin Hn. destruct (decide (d = dst)) as [->|Hne'].
    + rewrite vget_insert_eq in Hn by lia. injection Hn as <-.
      specialize (wf_range0 _ _ _ Hix Hsz). lia.
    + rewrite vget_insert_ne in Hn by lia.
      apply elem_of_app in Hin as [Hin|Hin%list_elem_of_singleton]; [|done].
      by eapply wf_dest_size0.
  - intros d o n Ho Hn. rewrite vsize_vpush.
    destruct (decide (d = dst)) as [->|Hne'].
    + rewrite vget_insert_eq in Hn by lia. injection Hn as <-.
      specialize (wf_range0 _ _ _ Ho Hsz).
      rewrite Hix in Ho. injection Ho as <-. lia.
    + rewrite vget_insert_ne in Hn by lia.
      specialize (wf_range0 _ _ _ Ho Hn). lia.
Qed.

Lemma shape_ok_add_table src dst t :
  0 ≤ dst → shape_ok t → shape_ok (add_table src dst t).
Proof.
  intros Hd Hok. unfold add_table. case_decide.
  - by apply shape_ok_add_same.
  - by apply shape_ok_add_new.
Qed.

(** [add] is defined for every destination id that is not negative. *)
Lemma add_eq src dst w t :
  shape_ok t → 0 ≤ dst →
  add src dst w acc t = Some (PushBack acc w (add_table src dst t)).
Proof.
  intros Hok Hd. unfold add_table. case_decide as Hb.
  - apply add_same; [done|]. by apply (wf_cur _ Hok).
  - apply add_new; [done| |done]. by apply (wf_sizes _ Hok).
Qed.

Lemma add_nonneg src dst w t t' :
  shape_ok t → add src dst w acc t = Some t' → 0 ≤ dst.
Proof.
  intros Hok Ha. destruct (decide (vback (_dests t) = Some dst)) as [Hb|Hb].
  - assert (dst ∈ _dests t) as Hin by (by eapply last_Some_elem_of).
    apply (wf_dest_range _ Hok) in Hin. lia.
  - unfold add in Ha. rewrite (bool_decide_eq_true_2 _ Hb), orb_true_r in Ha.
    apply bind_Some in Ha as (t1 & Ht1 & _).
    apply bind_Some in Ht1 as (ix & Hix & _).
    apply vset_inv in Hix. lia.
Qed.

Lemma add_inv src dst w t t' :
  shape_ok t → add src dst w acc t = Some t' →
  0 ≤ dst ∧ t' = PushBack acc w (add_table src dst t).
Proof.
  intros Hok Ha. pose proof (add_nonneg _ _ _ _ _ Hok Ha) as Hd.
  rewrite add_eq in Ha by done. naive_solver.
Qed.

Lemma add_table_sources src dst t :
  _sources (add_table src dst t) = vpush (_sources t) src.
Proof. unfold add_table. by case_decide. Qed.

Lemma add_table_dests src dst t :
  _dests (add_table src dst t) = vpush (_dests t) dst.
Proof. unfold add_table. by case_decide. Qed.

Lemma add_table_weights src dst t :
  _weights (add_table src dst t) = _weights t ∧
  _duWeights (add_table src dst t) = _duWeights t ∧
  _dvWeights (add_table src dst t) = _dvWeights t.
Proof. unfold add_table. by case_decide. Qed.

Lemma add_table_params src dst t :
  _coarseVertCount (add_table src dst t) = _coarseVertCount t ∧
  _compactWeights (add_table src dst t) = _compactWeights t.
Proof. unfold add_table. by case_decide. Qed.

Lemma add_table_sizes_len src dst t :
  0 ≤ dst → shape_ok t →
  vsize (_sizes (add_table src dst t)) = Z.max (vsize (_sizes t)) (dst + 1).
Proof.
  intros Hd Hok. pose proof (wf_sizes _ Hok) as Hsz.
  unfold add_table. case_decide as Hb; simpl; rewrite vsize_insert.
  - assert (dst ∈ _dests t) as Hin by (by eapply last_Some_elem_of).
    apply (wf_dest_range _ Hok) in Hin. lia.
  - rewrite vsize_grow_eq by done. lia.
Qed.

Lemma extends_refl t : extends t t.
Proof. split; done || lia. Qed.

Lemma extends_trans t1 t2 t3 : extends t1 t2 → extends t2 t3 → extends t1 t3.
Proof.
  intros [] []. split; try congruence; try (by etrans); lia.
Qed.

Lemma extends_same_shape t t' : same_shape t t' → extends t t'.
Proof.
  intros (Hd & Hs & Hi & Hz & Hn & Hl & Hc & Hk).
  split; rewrite ?Hd, ?Hs, ?Hz; done || lia.
Qed.

Lemma extends_add src dst w t t' :
  shape_ok t → add src dst w acc t = Some t' → extends t t'.
Proof.
  intros Hok Ha. apply add_inv in Ha as [Hd ->]; [|done].
  eapply extends_trans; [|apply extends_same_shape, PushBack_shape].
  destruct (add_table_params src dst t) as [Hc Hk].
  split; rewrite ?add_table_sources, ?add_table_dests; try done.
  - by apply prefix_app_r.
  - by apply prefix_app_r.
  - rewrite add_table_sizes_len by done. lia.
Qed.

Lemma wf_add src dst w t t' :
  wf t → add src dst w acc t = Some t' → wf t'.
Proof.
  intros [Hok Hw] Ha. apply add_inv in Ha as [Hd ->]; [|done]. split.
  - eapply shape_ok_same; [apply PushBack_shape|].
    by apply shape_ok_add_table.
  - destruct (PushBack_shape w (add_table src dst t)) as (_ & -> & _).
    rewrite PushBack_weights, add_table_sources, vsize_vpush.
    destruct (add_table_weights src dst t) as (-> & _). lia.
Qed.

Lemma acc_len_add src dst w t t' :
  shape_ok t → acc_len t (vsize (_sources t)) →
  add src dst w acc t = Some t' → acc_len t' (vsize (_sources t')).
Proof.
  intros Hok Hl Ha. apply add_inv in Ha as [Hd ->]; [|done].
  destruct (PushBack_shape w (add_table src dst t)) as (_ & -> & _).
  rewrite add_table_sources, vsize_vpush. apply PushBack_len.
  destruct (add_table_weights src dst t) as (Hw & Hu & Hv).
  by eapply acc_len_ext.
Qed.

Lemma coarse_only_add src dst w t t' :
  shape_ok t → coarse_only t → src < _coarseVertCount t →
  add src dst w acc t = Some t' → coarse_only t'.
Proof.
  intros Hok Hc Hs Ha. apply add_inv in Ha as [Hd ->]; [|done].
  destruct (PushBack_shape w (add_table src dst t)) as (_ & Hss & _ & _ & _ & _ & Hcv & _).
  unfold coarse_only. rewrite Hss, Hcv, add_table_sources.
  destruct (add_table_params src dst t) as [-> _].
  intros s [Hin| ->%list_elem_of_singleton]%elem_of_app; [by apply Hc|done].
Qed.

(** [Add] of an accumulator keeps the invariants. *)
Lemma wf_Add i w t t' : wf t → Add acc i w t = Some t' → wf t'.
Proof.
  intros [Hok Hw] Ha. pose proof (Add_shape _ _ _ _ Ha) as Hsh. split.
  - by eapply shape_ok_same.
  - destruct Hsh as (_ & -> & _). by rewrite (Add_weights _ _ _ _ Ha).
Qed.

Lemma coarse_only_Add i w t t' :
  coarse_only t → Add acc i w t = Some t' → coarse_only t'.
Proof.
  intros Hc Ha.
  destruct (Add_shape _ _ _ _ Ha) as (_ & Hs & _ & _ & _ & _ & Hcv & _).
  unfold coarse_only. by rewrite Hs, Hcv.
Qed.

(** ** [merge] *)

Lemma scan_sources_spec srcs src i n :
  0 ≤ i → i + Z.of_nat n ≤ vsize srcs →
  ∃ r, scan_sources srcs src i n = Some r ∧
       match r with
       | Some j => i ≤ j < i + Z.of_nat n ∧ vget srcs j = Some src ∧
                   ∀ k, i ≤ k < j → vget srcs k ≠ Some src
       | None => ∀ k, i ≤ k < i + Z.of_nat n → vget srcs k ≠ Some src
       end.
Proof.
  revert i. induction n as [|n IH]; intros i Hi Hn.
  - exists None. split; [done|]. intros k Hk. lia.
  - simpl. destruct (vget_is_Some srcs i) as [s Hs]; [lia|].
    rewrite Hs. simpl. case_bool_decide as Heq.
    + subst s. exists (Some i). split; [done|]. repeat split; [lia..|done|].
      intros k Hk. lia.
    + destruct (IH (i + 1)) as (r & Hr & Hspec); [lia..|].
      exists r. split; [done|]. destruct r as [j|].
      * destruct Hspec as (Hj & Hg & Hlt). repeat split; [lia..|done|].
        intros k Hk. destruct (decide (k = i)) as [->|Hne].
        -- rewrite Hs. congruence.
        -- apply Hlt. lia.
      * intros k Hk. destruct (decide (k = i)) as [->|Hne].
        -- rewrite Hs. congruence.
        -- apply Hspec. lia.
Qed.

Lemma scan_sources_found srcs src i k j :
  scan_sources srcs src i k = Some (Some j) → vget srcs j = Some src.
Proof.
  revert i. induction k as [|k IH]; intros i Hr; [done|].
  simpl in Hr. apply bind_Some in Hr as (s & Hs & Hr).
  case_bool_decide; [naive_solver|]. by eapply IH.
Qed.

(** On a well-formed table the guard of [merge] asks whether compaction is
    on and [dst] is the last destination. *)
Lemma merge_guard_eq t dst :
  shape_ok t →
  merge_guard t (_lastOffset t) dst =
  Some (_compactWeights t && bool_decide (vback (_dests t) = Some dst)).
Proof.
  intros Hok. unfold merge_guard.
  destruct (_compactWeights t); simpl; [|done].
  case_bool_decide as He; simpl.
  - by rewrite He.
  - destruct (vget_is_Some (_dests t) (_lastOffset t)) as [d Hd].
    { by apply (wf_last _ Hok). }
    rewrite Hd. simpl. f_equal.
    pose proof (wf_open _ Hok _ _ (Z.le_refl _) Hd) as Hb. rewrite Hb.
    apply bool_decide_ext. naive_solver.
Qed.

(** Every successful [merge] is either one [Add] on a stored slot or one
    [add]. *)
Lemma merge_cases src dst w f lo n t t' :
  merge src dst w f lo n acc t = Some t' →
  (∃ i, vget (_sources t) i = Some src ∧
        Add acc i (w_mul w f) t = Some t') ∨
  add src dst (w_mul w f) acc t = Some t'.
Proof.
  unfold merge. intros Hm.
  apply bind_Some in Hm as (g & _ & Hm). destruct g; [|by right].
  apply bind_Some in Hm as (r & Hr & Hm). destruct r as [i|]; [|by right].
  left. exists i. split; [|done]. by eapply scan_sources_found.
Qed.

Lemma wf_merge src dst w f lo n t t' :
  wf t → merge src dst w f lo n acc t = Some t' → wf t'.
Proof.
  intros Hwf [(i & _ & Ha)|Ha]%merge_cases.
  - by eapply wf_Add.
  - by eapply wf_add.
Qed.

Lemma extends_merge src dst w f lo n t t' :
  shape_ok t → merge src dst w f lo n acc t = Some t' → extends t t'.
Proof.
  intros Hok [(i & _ & Ha)|Ha]%merge_cases.
  - by eapply extends_same_shape, Add_shape.
  - by eapply extends_add.
Qed.

Lemma coarse_only_merge src dst w f lo n t t' :
  shape_ok t → coarse_only t → src < _coarseVertCount t →
  merge src dst w f lo n acc t = Some t' → coarse_only t'.
Proof.
  intros Hok Hc Hs [(i & _ & Ha)|Ha]%merge_cases.
  - by eapply coarse_only_Add.
  - by eapply coarse_only_add.
Qed.

Lemma acc_len_merge src dst w f lo n t t' :
  shape_ok t → acc_len t (vsize (_sources t)) →
  merge src dst w f lo n acc t = Some t' → acc_len t' (vsize (_sources t')).
Proof.
  intros Hok Hl [(i & _ & Ha)|Ha]%merge_cases.
  - destruct (Add_shape _ _ _ _ Ha) as (_ & -> & _). by eapply Add_len.
  - by eapply acc_len_add.
Qed.

(** [merge], called as [AddWithWeight] calls it, is defined on every
    well-formed table whose accumulator covers the storage. *)
Lemma merge_is_Some src dst w f t :
  shape_ok t → acc_len t (vsize (_sources t)) → 0 ≤ dst →
  is_Some (merge src dst w f (_lastOffset t) (_size t) acc t).
Proof.
  intros Hok Hl Hd. unfold merge. rewrite merge_guard_eq by done. simpl.
  destruct (_compactWeights t && bool_decide (vback (_dests t) = Some dst))
    eqn:Hg; [|rewrite add_eq by done; eauto].
  apply andb_prop in Hg as [_ Hb%bool_decide_eq_true].
  assert (_dests t ≠ []) as Hne by (intros E; by rewrite E in Hb).
  pose proof (wf_last _ Hok Hne) as Hlo.
  rewrite (wf_dests _ Hok) in Hlo. rewrite (wf_size _ Hok).
  destruct (scan_sources_spec (_sources t) src (_lastOffset t)
              (Z.to_nat (vsize (_sources t) - _lastOffset t)))
    as (r & -> & Hr); [lia..|].
  simpl. destruct r as [i|]; [|rewrite add_eq by done; eauto].
  destruct Hr as (Hi & _). eapply Add_is_Some; [done|lia].
Qed.

(** After a [merge], [dst] is the last destination. *)
Lemma merge_vback src dst w f t t' :
  shape_ok t → merge src dst w f (_lastOffset t) (_size t) acc t = Some t' →
  vback (_dests t') = Some dst.
Proof.
  intros Hok Hm. unfold merge in Hm. rewrite merge_guard_eq in Hm by done.
  simpl in Hm.
  assert (∀ t1, add src dst (w_mul w f) acc t = Some t1 →
                vback (_dests t1) = Some dst) as Hadd.
  { intros t1 [_ ->]%add_inv; [|done].
    destruct (PushBack_shape (w_mul w f) (add_table src dst t)) as (-> & _).
    rewrite add_table_dests. apply vback_vpush. }
  destruct (_compactWeights t && bool_decide (vback (_dests t) = Some dst))
    eqn:Hg; [|by apply Hadd].
  apply andb_prop in Hg as [_ Hb%bool_decide_eq_true].
  apply bind_Some in Hm as (r & _ & Hm). destruct r as [i|]; [|by apply Hadd].
  destruct (Add_shape _ _ _ _ Hm) as (-> & _). done.
Qed.

(** ** [AddWithWeight] *)

Lemma resolve_loop_inv n i dest w t t' :
  wf t → coarse_only t →
  resolve_loop n i dest w acc t = Some t' →
  wf t' ∧ coarse_only t' ∧ extends t t' ∧
  (acc_len t (vsize (_sources t)) → acc_len t' (vsize (_sources t'))).
Proof.
  revert i t. induction n as [|n IH]; intros i t Hwf Hc Hr.
  - injection Hr as <-. auto using extends_refl.
  - simpl in Hr. apply bind_Some in Hr as (s & Hs & Hr).
    case_bool_decide as Hlt; [|done].
    apply bind_Some in Hr as (w0 & Hw0 & Hr).
    apply bind_Some in Hr as (t1 & Hm & Hr).
    destruct Hwf as [Hok Hw].
    pose proof (wf_merge _ _ _ _ _ _ _ _ (conj Hok Hw) Hm) as Hwf1.
    pose proof (coarse_only_merge _ _ _ _ _ _ _ _ Hok Hc Hlt Hm) as Hc1.
    pose proof (extends_merge _ _ _ _ _ _ _ _ Hok Hm) as He1.
    destruct (IH _ _ Hwf1 Hc1 Hr) as (Hwf' & Hc' & He' & Hl').
    split; [done|]. split; [done|]. split; [by eapply extends_trans|].
    intros Hl. apply Hl'. by eapply acc_len_merge.
Qed.

Lemma extends_vsize_sources t t' :
  extends t t' → vsize (_sources t) ≤ vsize (_sources t').
Proof.
  intros [_ _ Hp _ _]. apply prefix_length in Hp. unfold vsize. lia.
Qed.

Lemma resolve_loop_is_Some n i dest w t :
  wf t → coarse_only t → acc_len t (vsize (_sources t)) →
  0 ≤ dest → 0 ≤ i → i + Z.of_nat n ≤ vsize (_sources t) →
  is_Some (resolve_loop n i dest w acc t).
Proof.
  revert i t. induction n as [|n IH]; intros i t Hwf Hc Hl Hd Hi Hn; [by eexists|].
  simpl. destruct (vget_is_Some (_sources t) i) as [s Hs]; [lia|].
  rewrite Hs. simpl.
  assert (s < _coarseVertCount t) as Hlt.
  { apply Hc. apply elem_of_vget. eauto. }
  rewrite bool_decide_eq_true_2 by done.
  destruct (Get_is_Some i t _ Hl) as [w0 ->]; [lia|]. simpl.
  destruct Hwf as [Hok Hw].
  destruct (merge_is_Some s dest w0 w t Hok Hl Hd) as [t1 Hm].
  rewrite Hm. simpl.
  pose proof (wf_merge _ _ _ _ _ _ _ _ (conj Hok Hw) Hm) as Hwf1.
  pose proof (coarse_only_merge _ _ _ _ _ _ _ _ Hok Hc Hlt Hm) as Hc1.
  pose proof (extends_merge _ _ _ _ _ _ _ _ Hok Hm) as He1.
  pose proof (acc_len_merge _ _ _ _ _ _ _ _ Hok Hl Hm) as Hl1.
  apply extends_vsize_sources in He1.
  apply IH; [done..|lia|lia].
Qed.

Lemma AddWithWeight_inv src dest w t t' :
  wf t → coarse_only t →
  AddWithWeight src dest w acc t = Some t' →
  wf t' ∧ coarse_only t' ∧ extends t t' ∧
  (acc_len t (vsize (_sources t)) → acc_len t' (vsize (_sources t'))).
Proof.
  intros Hwf Hc Ha. unfold AddWithWeight in Ha.
  case_bool_decide as Hlt.
  - pose proof Hwf as [Hok Hw].
    split; [by eapply wf_merge|].
    split; [by eapply coarse_only_merge|].
    split; [by eapply extends_merge|].
    intros Hl. by eapply acc_len_merge.
  - apply bind_Some in Ha as (len & _ & Ha).
    apply bind_Some in Ha as (start & _ & Ha).
    by eapply resolve_loop_inv.
Qed.

(** [AddWithWeight] is defined when the destination id is not negative and
    the source is a coarse vertex or has a slot in [_sizes]. *)
Lemma AddWithWeight_is_Some src dest w t :
  wf t → coarse_only t → acc_len t (vsize (_sources t)) → 0 ≤ dest →
  src < _coarseVertCount t ∨ 0 ≤ src < vsize (_sizes t) →
  is_Some (AddWithWeight src dest w acc t).
Proof.
  intros Hwf Hc Hl Hd Hsrc. unfold AddWithWeight.
  case_bool_decide as Hlt; [apply merge_is_Some; [apply Hwf|done..]|].
  destruct Hsrc as [?|Hsrc]; [done|]. pose proof Hwf as [Hok _].
  destruct (vget_is_Some (_sizes t) src Hsrc) as [len Hlen].
  destruct (vget_is_Some (_indices t) src) as [start Hstart].
  { rewrite <- (wf_sizes _ Hok). done. }
  rewrite Hlen, Hstart. simpl.
  destruct (wf_range _ Hok _ _ _ Hstart Hlen) as (? & ? & ?).
  apply resolve_loop_is_Some; [done..|lia].
Qed.

(** A call that resolves a source owning an entry, or merges a coarse
    source, makes [dest] the last destination. *)
Lemma resolve_loop_vback n i dest w t t' :
  wf t → coarse_only t → (0 < n)%nat →
  resolve_loop n i dest w acc t = Some t' → vback (_dests t') = Some dest.
Proof.
  revert i t. induction n as [|n IH]; intros i t Hwf Hc Hn Hr; [lia|].
  simpl in Hr. apply bind_Some in Hr as (s & Hs & Hr).
  case_bool_decide as Hlt; [|done].
  apply bind_Some in Hr as (w0 & Hw0 & Hr).
  apply bind_Some in Hr as (t1 & Hm & Hr).
  pose proof Hwf as [Hok Hw].
  pose proof (wf_merge _ _ _ _ _ _ _ _ Hwf Hm) as Hwf1.
  pose proof (coarse_only_merge _ _ _ _ _ _ _ _ Hok Hc Hlt Hm) as Hc1.
  destruct n as [|n].
  - injection Hr as <-. by eapply merge_vback.
  - eapply IH; [done..|lia|done].
Qed.

Lemma AddWithWeight_vback src dest w t t' :
  wf t → coarse_only t →
  src < _coarseVertCount t ∨ src ∈ _dests t →
  AddWithWeight src dest w acc t = Some t' → vback (_dests t') = Some dest.
Proof.
  intros Hwf Hc Hsrc Ha. pose proof Hwf as [Hok _]. unfold AddWithWeight in Ha.
  case_bool_decide as Hlt; [by eapply merge_vback|].
  destruct Hsrc as [?|Hin]; [done|].
  apply bind_Some in Ha as (len & Hlen & Ha).
  apply bind_Some in Ha as (start & _ & Ha).
  pose proof (wf_dest_size _ Hok _ _ Hin Hlen).
  eapply resolve_loop_vback; [done..| |done]. lia.
Qed.

(** ** The slots of the other destinations *)

Lemma slots_kept_refl dst t : slots_kept dst t t.
Proof. intros d x _. auto. Qed.

Lemma slots_kept_trans dst t1 t2 t3 :
  slots_kept dst t1 t2 → slots_kept dst t2 t3 → slots_kept dst t1 t3.
Proof.
  intros H12 H23 d x Hne. destruct (H23 d x Hne) as [Hs Hi].
  destruct (H12 d x Hne) as [Hs' Hi']. split; intros Hx.
  - destruct (Hs Hx); auto.
  - destruct (Hi Hx); auto.
Qed.

Lemma slots_kept_same_shape dst t t' : same_shape t t' → slots_kept dst t t'.
Proof. intros (_ & _ & Hi & Hz & _) d x _. rewrite Hi, Hz. auto. Qed.

Lemma slots_kept_add src dst w t t' :
  shape_ok t → add src dst w acc t = Some t' → slots_kept dst t t'.
Proof.
  intros Hok Ha. apply add_inv in Ha as [Hd ->]; [|done].
  eapply slots_kept_trans; [|apply slots_kept_same_shape, PushBack_shape].
  pose proof (wf_sizes _ Hok) as Hsz.
  intros d x Hne. unfold add_table. case_decide; simpl.
  - rewrite vget_insert_ne by done. auto.
  - rewrite !vget_insert_ne by done. split; intros Hx.
    + apply vget_grow_Some in Hx as [Hx|[_ ->]]; auto.
    + apply vget_grow_Some in Hx as [Hx|[_ ->]]; auto.
Qed.

Lemma slots_kept_merge src dst w f lo n t t' :
  shape_ok t → merge src dst w f lo n acc t = Some t' → slots_kept dst t t'.
Proof.
  intros Hok [(i & _ & Ha)|Ha]%merge_cases.
  - by eapply slots_kept_same_shape, Add_shape.
  - by eapply slots_kept_add.
Qed.

Lemma slots_kept_resolve_loop n i dest w t t' :
  wf t → coarse_only t →
  resolve_loop n i dest w acc t = Some t' → slots_kept dest t t'.
Proof.
  revert i t. induction n as [|n IH]; intros i t Hwf Hc Hr.
  - injection Hr as <-. apply slots_kept_refl.
  - simpl in Hr. apply bind_Some in Hr as (s & Hs & Hr).
    case_bool_decide as Hlt; [|done].
    apply bind_Some in Hr as (w0 & Hw0 & Hr).
    apply bind_Some in Hr as (t1 & Hm & Hr).
    pose proof Hwf as [Hok _].
    eapply slots_kept_trans; [by eapply slots_kept_merge|].
    eapply IH; [by eapply wf_merge|by eapply coarse_only_merge|done].
Qed.

Lemma slots_kept_AddWithWeight src dest w t t' :
  wf t → coarse_only t →
  AddWithWeight src dest w acc t = Some t' → slots_kept dest t t'.
Proof.
  intros Hwf Hc Ha. unfold AddWithWeight in Ha.
  case_bool_decide as Hlt.
  - eapply slots_kept_merge; [apply Hwf|done].
  - apply bind_Some in Ha as (len & _ & Ha).
    apply bind_Some in Ha as (start & _ & Ha).
    by eapply slots_kept_resolve_loop.
Qed.

(** ** Merging a source that is new to the open stencil, and one that is
    already there *)

Lemma elem_of_drop_vget {A} (l : list A) (n i : Z) (x : A) :
  0 ≤ n ≤ i → vget l i = Some x → x ∈ drop (Z.to_nat n) l.
Proof.
  intros Hn [_ Hi]%vget_Some.
  apply (list_elem_of_lookup_2 _ (Z.to_nat i - Z.to_nat n)%nat).
  rewrite lookup_drop. rewrite <- Hi. f_equal. lia.
Qed.

Lemma open_start_range t dst :
  shape_ok t → 0 ≤ open_start t dst ≤ vsize (_sources t).
Proof.
  intros Hok. unfold open_start. case_decide as Hb.
  - assert (_dests t ≠ []) as Hne by (intros E; by rewrite E in Hb).
    pose proof (wf_last _ Hok Hne). rewrite <- (wf_dests _ Hok). lia.
  - pose proof (vsize_nonneg (_sources t)). lia.
Qed.

Lemma merge_fresh src dst w f t :
  shape_ok t → 0 ≤ dst →
  (_compactWeights t = true → src ∉ open_sources t dst) →
  merge src dst w f (_lastOffset t) (_size t) acc t =
  Some (PushBack acc (w_mul w f) (add_table src dst t)).
Proof.
  intros Hok Hd Hnew. unfold merge. rewrite merge_guard_eq by done. simpl.
  destruct (_compactWeights t && bool_decide (vback (_dests t) = Some dst))
    eqn:Hg; [|by apply add_eq].
  apply andb_prop in Hg as [Hk Hb%bool_decide_eq_true].
  assert (_dests t ≠ []) as Hne by (intros E; by rewrite E in Hb).
  pose proof (wf_last _ Hok Hne) as Hlo.
  rewrite (wf_dests _ Hok) in Hlo. rewrite (wf_size _ Hok).
  destruct (scan_sources_spec (_sources t) src (_lastOffset t)
              (Z.to_nat (vsize (_sources t) - _lastOffset t)))
    as (r & -> & Hr); [lia..|].
  simpl. destruct r as [j|]; [|by apply add_eq].
  destruct Hr as (Hj & Hs & _). exfalso. apply (Hnew Hk).
  unfold open_sources, open_start. rewrite decide_True by done.
  eapply elem_of_drop_vget; [|done]. lia.
Qed.

Lemma merge_found src dst w f t i :
  shape_ok t → _compactWeights t = true → vback (_dests t) = Some dst →
  _lastOffset t ≤ i → vget (_sources t) i = Some src →
  (∀ k, _lastOffset t ≤ k < i → vget (_sources t) k ≠ Some src) →
  merge src dst w f (_lastOffset t) (_size t) acc t =
  Add acc i (w_mul w f) t.
Proof.
  intros Hok Hk Hb Hi Hs Hfirst. unfold merge.
  rewrite merge_guard_eq by done. rewrite Hk, bool_decide_eq_true_2 by done.
  simpl.
  assert (_dests t ≠ []) as Hne by (intros E; by rewrite E in Hb).
  pose proof (wf_last _ Hok Hne) as Hlo.
  rewrite (wf_dests _ Hok) in Hlo. rewrite (wf_size _ Hok).
  pose proof (vget_range _ _ _ Hs) as Hir.
  destruct (scan_sources_spec (_sources t) src (_lastOffset t)
              (Z.to_nat (vsize (_sources t) - _lastOffset t)))
    as (r & -> & Hr); [lia..|].
  simpl. destruct r as [j|].
  - destruct Hr as (Hj & Hsj & Hlt).
    assert (j = i) as ->; [|done].
    destruct (Z.lt_trichotomy j i) as [Hlt'|[?|Hgt]]; [|done|].
    + exfalso. apply (Hfirst j); [lia|done].
    + exfalso. apply (Hlt i); [lia|done].
  - exfalso. apply (Hr i); [lia|done].
Qed.

Lemma add_table_lastOffset src dst t :
  _lastOffset (add_table src dst t) = open_start t dst.
Proof. unfold add_table, open_start. by case_decide. Qed.

(** The table after the first contribution of [src] to the open stencil of
    [dst]. *)
Lemma pushed_table src dst (w : W) t :
  shape_ok t → 0 ≤ dst →
  let t1 := PushBack acc w (add_table src dst t) in
  shape_ok t1 ∧ _sources t1 = _sources t ++ [src] ∧
  _dests t1 = _dests t ++ [dst] ∧ _lastOffset t1 = open_start t dst ∧
  vback (_dests t1) = Some dst ∧
  _compactWeights t1 = _compactWeights t ∧
  _coarseVertCount t1 = _coarseVertCount t ∧
  vget (_indices t1) dst = Some (open_start t dst) ∧
  vget (_sizes t1) dst = Some (vsize (_sources t) - open_start t dst + 1).
Proof.
  intros Hok Hd t1.
  destruct (PushBack_shape w (add_table src dst t))
    as (Hds & Hss & Hix & Hsz & Hn & Hl & Hc & Hk).
  assert (shape_ok t1) as Hok1.
  { eapply shape_ok_same; [apply PushBack_shape|].
    by apply shape_ok_add_table. }
  assert (vback (_dests t1) = Some dst) as Hb1.
  { unfold t1. rewrite Hds, add_table_dests. apply vback_vpush. }
  destruct (wf_cur _ Hok1 _ Hb1) as [Hi1 Hs1].
  assert (_lastOffset t1 = open_start t dst) as Hlo.
  { unfold t1. by rewrite Hl, add_table_lastOffset. }
  assert (_sources t1 = _sources t ++ [src]) as Hsrc.
  { unfold t1. by rewrite Hss, add_table_sources. }
  destruct (add_table_params src dst t) as [Hc' Hk'].
  split; [done|]. split; [done|].
  split; [unfold t1; by rewrite Hds, add_table_dests|].
  split; [done|]. split; [done|].
  split; [unfold t1; congruence|]. split; [unfold t1; congruence|].
  rewrite Hi1, Hs1, Hlo, Hsrc. split; [done|]. f_equal.
  change (_sources t ++ [src]) with (vpush (_sources t) src).
  rewrite vsize_vpush. lia.
Qed.

(** With compaction, a second contribution of the same new source is
    accumulated into the slot the first one appended. *)
Lemma merge_again src dst (w1 w f : W) t :
  shape_ok t → 0 ≤ dst → _compactWeights t = true →
  src ∉ open_sources t dst →
  merge src dst w f (_lastOffset (PushBack acc w1 (add_table src dst t)))
    (_size (PushBack acc w1 (add_table src dst t))) acc
    (PushBack acc w1 (add_table src dst t)) =
  Add acc (vsize (_sources t)) (w_mul w f)
    (PushBack acc w1 (add_table src dst t)).
Proof.
  intros Hok Hd Hk Hnew.
  destruct (pushed_table src dst w1 t Hok Hd)
    as (Hok1 & Hss & _ & Hlo & Hb & Hk1 & _).
  set (t1 := PushBack acc w1 (add_table src dst t)) in *.
  pose proof (open_start_range t dst Hok) as Hr.
  apply merge_found; try done.
  - congruence.
  - lia.
  - rewrite Hss. apply vget_vpush_eq.
  - intros k Hkr Hsk. rewrite Hss in Hsk.
    change (_sources t ++ [src]) with (vpush (_sources t) src) in Hsk.
    rewrite vget_vpush_lt in Hsk by lia.
    apply Hnew. unfold open_sources.
    eapply elem_of_drop_vget; [|done]. lia.
Qed.

(** How [merge] ends when it is called as [AddWithWeight] calls it. *)
Lemma merge_outcome src dst w f t :
  shape_ok t → 0 ≤ dst →
  merge src dst w f (_lastOffset t) (_size t) acc t =
    Some (PushBack acc (w_mul w f) (add_table src dst t)) ∨
  ∃ i, vback (_dests t) = Some dst ∧ _lastOffset t ≤ i ∧
       vget (_sources t) i = Some src ∧
       merge src dst w f (_lastOffset t) (_size t) acc t =
         Add acc i (w_mul w f) t.
Proof.
  intros Hok Hd. unfold merge. rewrite merge_guard_eq by done. simpl.
  destruct (_compactWeights t && bool_decide (vback (_dests t) = Some dst))
    eqn:Hg; [|left; by apply add_eq].
  apply andb_prop in Hg as [Hk Hb%bool_decide_eq_true].
  assert (_dests t ≠ []) as Hne by (intros E; by rewrite E in Hb).
  pose proof (wf_last _ Hok Hne) as Hlo.
  rewrite (wf_dests _ Hok) in Hlo. rewrite (wf_size _ Hok).
  destruct (scan_sources_spec (_sources t) src (_lastOffset t)
              (Z.to_nat (vsize (_sources t) - _lastOffset t)))
    as (r & -> & Hr); [lia..|].
  simpl. destruct r as [j|]; [|left; by apply add_eq].
  destruct Hr as (Hj & Hs & _). right. exists j.
  split; [done|]. split; [lia|]. split; done.
Qed.

End EngineFacts.

(** * The constructor *)

Section ConstructorFacts.
Context {F : Type} `{FloatOps F}.
Implicit Types (t : WeightTable F).

Lemma reserve_hint_neg cv : reserve_hint cv < 0 ↔ cv < 0.
Proof. unfold reserve_hint. lia. Qed.

Lemma init_loop_filled n i t L :
  0 ≤ i → i + Z.of_nat n ≤ L → filled t L i →
  ∃ t', init_loop n i t = Some t' ∧ filled t' L (i + Z.of_nat n) ∧
        _duWeights t' = _duWeights t ∧ _dvWeights t' = _dvWeights t ∧
        _coarseVertCount t' = _coarseVertCount t ∧
        _compactWeights t' = _compactWeights t.
Proof.
  revert i t. induction n as [|n IH]; intros i t Hi Hn Hf.
  - exists t. replace (i + Z.of_nat 0) with i by lia. done.
  - destruct Hf as (Lix & Lsz & Lds & Lss & Lws & Hf). simpl.
    rewrite !vset_Some by lia. simpl.
    edestruct (IH (i + 1)) as (t' & -> & Hf' & Hrest); [lia|lia| |].
    + unfold filled. simpl. rewrite !vsize_insert.
      do 5 (split; [done|]). intros j Hj.
      destruct (decide (j = i)) as [->|Hne].
      * rewrite !vget_insert_eq by lia. done.
      * rewrite !vget_insert_ne by lia. apply Hf. lia.
    + exists t'. split; [done|].
      replace (i + Z.of_nat (S n)) with (i + 1 + Z.of_nat n) by lia. done.
Qed.

Lemma WeightTable_new_nonneg cv gen compact t :
  WeightTable_new cv gen compact = Some t → 0 ≤ cv.
Proof.
  unfold WeightTable_new. case_decide as Hr; [done|].
  rewrite reserve_hint_neg in Hr. lia.
Qed.

(** Without control vertex stencils the table starts empty. *)
Lemma WeightTable_new_plain cv compact :
  0 ≤ cv →
  WeightTable_new cv false compact =
  Some (mkWeightTable [] [] [] [] [] [] [] 0 0 cv compact).
Proof.
  intros Hcv. unfold WeightTable_new.
  rewrite decide_False by (rewrite reserve_hint_neg; lia). done.
Qed.

(** With control vertex stencils the first [cv] stencils are trivial. *)
Lemma WeightTable_new_ctrl cv compact :
  0 ≤ cv →
  ∃ t, WeightTable_new cv true compact = Some t ∧
       filled t cv cv ∧ _size t = cv ∧ _lastOffset t = cv - 1 ∧
       _duWeights t = [] ∧ _dvWeights t = [] ∧
       _coarseVertCount t = cv ∧ _compactWeights t = compact.
Proof.
  intros Hcv. unfold WeightTable_new.
  rewrite decide_False by (rewrite reserve_hint_neg; lia). simpl.
  edestruct (init_loop_filled (Z.to_nat cv) 0) as (t' & -> & Hf & Hu & Hv & Hc & Hk);
    [lia| | |].
  - rewrite Z2Nat.id by lia. rewrite Z.add_0_l. reflexivity.
  - unfold filled. simpl. rewrite !vsize_vresize by lia.
    do 5 (split; [done|]). intros j Hj. lia.
  - simpl. eexists. split; [done|]. simpl.
    rewrite Z.add_0_l, Z2Nat.id in Hf by lia.
    destruct Hf as (Lix & Lsz & Lds & Lss & Lws & Hf).
    split; [done|]. rewrite Lss. done.
Qed.

Lemma filled_shape_ok t n :
  0 ≤ n → filled t n n → _size t = n → _lastOffset t = n - 1 → shape_ok t.
Proof.
  intros Hn (Lix & Lsz & Lds & Lss & Lws & Hf) Hsize Hlast.
  assert (∀ j d, vget (_dests t) j = Some d → 0 ≤ d < n ∧ d = j) as Hdest.
  { intros j d Hj. pose proof (vget_range _ _ _ Hj) as Hr. rewrite Lds in Hr.
    destruct (Hf j Hr) as (_ & _ & Hd & _). split; [|congruence].
    assert (d = j) by congruence. lia. }
  assert (∀ d, vback (_dests t) = Some d → d = n - 1 ∧ 0 < n) as Hback.
  { intros d Hb. assert (_dests t ≠ []) as Hne by (intros E; by rewrite E in Hb).
    rewrite vback_vget, Lds in Hb by done.
    apply Hdest in Hb. lia. }
  split.
  - lia.
  - lia.
  - lia.
  - intros Hne. rewrite Lds, Hlast.
    destruct (_dests t) eqn:E; [done|]. unfold vsize in Lds. simpl in Lds. lia.
  - intros i d Hi Hg. destruct (Hdest _ _ Hg) as [Hd ->].
    assert (_dests t ≠ []) as Hne.
    { intros E. rewrite E in Hg. by rewrite vget_None in Hg by (unfold vsize; simpl; lia). }
    rewrite vback_vget, Lds by done. rewrite <- Hg. f_equal. lia.
  - intros d [-> Hpos]%Hback.
    destruct (Hf (n - 1)) as (Hix & Hsz & _); [lia|].
    rewrite Hix, Hsz, Hlast, Lss. split; f_equal; lia.
  - intros d [j Hj]%elem_of_vget. apply Hdest in Hj. lia.
  - intros d k [j Hj]%elem_of_vget Hk. apply Hdest in Hj as [Hd _].
    destruct (Hf d Hd) as (_ & Hsz & _). rewrite Hsz in Hk. injection Hk as <-. lia.
  - intros d o k Ho Hk. pose proof (vget_range _ _ _ Ho) as Hr. rewrite Lix in Hr.
    destruct (Hf d Hr) as (Hix & Hsz & _).
    rewrite Hix in Ho. rewrite Hsz in Hk. injection Ho as <-. injection Hk as <-. lia.
Qed.

(** Every constructed table satisfies the invariant, holds coarse sources
    only, and its scalar accumulator covers the storage. *)
Lemma WeightTable_new_wf cv gen compact t :
  WeightTable_new cv gen compact = Some t →
  wf t ∧ coarse_only t ∧ _coarseVertCount t = cv ∧ _compactWeights t = compact.
Proof.
  intros Hnew. pose proof (WeightTable_new_nonneg _ _ _ _ Hnew) as Hcv.
  destruct gen.
  - destruct (WeightTable_new_ctrl cv compact Hcv)
      as (t' & Ht' & Hf & Hsize & Hlast & Hu & Hv & Hc & Hk).
    rewrite Hnew in Ht'. injection Ht' as <-.
    split; [split|split; [|done]].
    + by eapply filled_shape_ok.
    + destruct Hf as (_ & _ & _ & -> & -> & _). done.
    + intros s [j Hj]%elem_of_vget. rewrite Hc.
      pose proof (vget_range _ _ _ Hj) as Hr.
      destruct Hf as (_ & _ & _ & Lss & _ & Hf). rewrite Lss in Hr.
      destruct (Hf j Hr) as (_ & _ & _ & Hs & _). rewrite Hs in Hj.
      injection Hj as <-. lia.
  - rewrite WeightTable_new_plain in Hnew by done. injection Hnew as <-.
    split; [split; [split|]|split]; simpl; try done.
    + intros i d _ Hg. by rewrite vget_None in Hg by (unfold vsize; simpl; lia).
    + intros d Hin. by apply elem_of_nil in Hin.
    + intros d n Hin. by apply elem_of_nil in Hin.
    + intros d o n Ho. by rewrite vget_None in Ho by (unfold vsize; simpl; lia).
    + intros s Hin. by apply elem_of_nil in Hin.
Qed.

End ConstructorFacts.

(** * Coarse-only closure *)

Section Closure.
Context {F : Type} `{FloatOps F}.
Implicit Types (t : WeightTable F) (c : call F) (cs : list (call F)).

Lemma wf_acc_len t : wf t → acc_len (acc:=ScalarAccumulator) t (vsize (_sources t)).
Proof. intros [_ Hw]. exact Hw. Qed.

Lemma stencils_coarse_intro t :
  wf t → coarse_only t → stencils_coarse t (_coarseVertCount t).
Proof.
  intros [Hok _] Hc d k Hk Hpos.
  destruct (vget_is_Some (_indices t) d) as [o Ho].
  { rewrite <- (wf_sizes _ Hok). by eapply vget_range. }
  exists o. split; [done|]. intros i Hi.
  destruct (wf_range _ Hok _ _ _ Ho Hk) as (? & ? & ?).
  destruct (vget_is_Some (_sources t) i) as [s Hs]; [lia|].
  exists s. split; [done|]. apply Hc, elem_of_vget. eauto.
Qed.

Lemma finalized_dests t fin cur dest :
  run_inv t fin cur → ∀ d, d ∈ finalized fin cur dest → d ∈ _dests t.
Proof.
  intros (_ & _ & Hdone & Hcur) d. unfold finalized.
  case_bool_decide; [by apply Hdone|].
  destruct cur as [d0|]; [|by apply Hdone].
  intros [->|Hin]%elem_of_cons; [|by apply Hdone].
  eapply last_Some_elem_of. by apply Hcur.
Qed.

Lemma run_call_step cv t fin cur c :
  run_inv t fin cur → _coarseVertCount t = cv →
  0 ≤ c_dest c →
  c_src c < cv ∨ c_src c ∈ finalized fin cur (c_dest c) →
  ∃ t', run_call c t = Some t' ∧ extends t t' ∧
        run_inv t' (finalized fin cur (c_dest c)) (Some (c_dest c)).
Proof.
  intros Hinv Hcv Hd Hsrc. pose proof Hinv as (Hwf & Hc & Hdone & Hcur).
  assert (c_src c < _coarseVertCount t ∨ c_src c ∈ _dests t) as Hsrc'.
  { destruct Hsrc as [?|Hin]; [left; lia|right]. by eapply finalized_dests. }
  destruct (AddWithWeight_is_Some ScalarAccumulator (c_src c) (c_dest c)
              (c_weight c) t) as [t' Ht']; [done|done|by apply wf_acc_len|done| |].
  { destruct Hsrc' as [?|Hin]; [by left|right].
    apply (wf_dest_range _ (proj1 Hwf)) in Hin. lia. }
  exists t'. split; [done|].
  destruct (AddWithWeight_inv _ _ _ _ _ _ Hwf Hc Ht') as (Hwf' & Hc' & He & _).
  split; [done|]. split; [done|]. split; [done|]. split.
  - intros d Hin. eapply elem_of_prefix; [|apply He].
    by eapply finalized_dests.
  - intros d [= <-].
    exact (AddWithWeight_vback ScalarAccumulator _ _ _ _ _ Hwf Hc Hsrc' Ht').
Qed.

Lemma run_calls_sequential cv cs t fin cur :
  run_inv t fin cur → _coarseVertCount t = cv →
  sequential_from cv fin cur cs = true →
  ∃ t' fin' cur', run_calls cs t = Some t' ∧ extends t t' ∧
                   run_inv t' fin' cur'.
Proof.
  revert t fin cur. induction cs as [|c cs IH]; intros t fin cur Hinv Hcv Hseq.
  - exists t, fin, cur. auto using extends_refl.
  - simpl in Hseq. apply andb_prop in Hseq as [Hseq Hrest].
    apply andb_prop in Hseq as [Hseq Ho].
    apply andb_prop in Hseq as [Hd%bool_decide_eq_true Hnotin].
    assert (c_src c < cv ∨ c_src c ∈ finalized fin cur (c_dest c)) as Hsrc.
    { apply orb_prop in Ho as [Ho|Ho]; apply bool_decide_eq_true in Ho; auto. }
    destruct (run_call_step cv t fin cur c Hinv Hcv Hd Hsrc)
      as (t1 & Ht1 & He1 & Hinv1).
    destruct (IH t1 _ _ Hinv1) as (t' & fin' & cur' & Ht' & He' & Hinv');
      [by rewrite (ext_coarse _ _ He1)|done|].
    exists t', fin', cur'. simpl. rewrite Ht1. simpl.
    split; [done|]. split; [by eapply extends_trans|done].
Qed.

(** C1.  A table constructed for [cv] coarse vertices and then written by a
    sequence of engine calls that respects the sequential-by-destination,
    dependency-order contract is built without leaving the defined behaviour
    (no read outside a vector, no failing assertion), and in the result every
    stencil of positive size [k] at offset [o] has all its sources in
    [o .. o+k) below [cv], however many levels were resolved. *)
Theorem coarse_only_closure cv gen compact cs :
  sequential cv cs = true → 0 ≤ cv →
  ∃ t, build cv gen compact cs = Some t ∧ stencils_coarse t cv.
Proof.
  intros Hseq Hcv. unfold build.
  assert (is_Some (WeightTable_new (F:=F) cv gen compact)) as [t0 Ht0].
  { destruct gen.
    - destruct (WeightTable_new_ctrl (F:=F) cv compact Hcv) as (t0 & -> & _). eauto.
    - rewrite WeightTable_new_plain by done. eauto. }
  rewrite Ht0. simpl.
  destruct (WeightTable_new_wf _ _ _ _ Ht0) as (Hwf & Hc & Hcv0 & _).
  destruct (run_calls_sequential cv cs t0 [] None) as (t & fin & cur & Ht & He & Hinv);
    [|done|done|].
  { split; [done|]. split; [done|]. split; [|done].
    intros d Hin. by apply elem_of_nil in Hin. }
  exists t. split; [done|]. destruct Hinv as (Hwf' & Hc' & _).
  rewrite <- Hcv0, <- (ext_coarse _ _ He). by apply stencils_coarse_intro.
Qed.

End Closure.

Lemma coarse_only_closure_witness :
  sequential 3 example_calls = true ∧
  ∃ t, build 3 true true example_calls = Some t ∧ stencils_coarse t 3.
Proof.
  assert (sequential 3 example_calls = true) as Hs by (vm_compute; reflexivity).
  split; [exact Hs|].
  apply (coarse_only_closure 3 true true example_calls); [exact Hs|lia].
Defined.

(** * Queries *)

Section Queries.
Context {F : Type} `{FloatOps F}.
Implicit Types (t : WeightTable F).

(** On a table with at least one stencil slot the size query answers 0 for
    every index at or beyond the populated range. *)
Lemma GetNumVertsInStencil_beyond t i :
  _sizes t ≠ [] → vsize (_sizes t) ≤ i →
  GetNumVertsInStencil i t = Some 0.
Proof.
  intros Hne Hi. unfold GetNumVertsInStencil, size_t_wrap.
  assert (0 < vsize (_sizes t)).
  { destruct (_sizes t); [done|]. unfold vsize. simpl. lia. }
  rewrite decide_True; [done|].
  pose proof (Z.mod_le (vsize (_sizes t) - 1) (2 ^ 64)). lia.
Qed.

(** C4 (the code at the failing input).  When [_sizes] is empty,
    [size() - 1] wraps around to the largest [size_t], no index is above it,
    and the query reads [_sizes[stencilIndex]] in an empty vector instead of
    answering 0. *)
Theorem GetNumVertsInStencil_empty t i :
  _sizes t = [] → 0 ≤ i < 2 ^ 64 → GetNumVertsInStencil i t = None.
Proof.
  intros He Hi. unfold GetNumVertsInStencil, size_t_wrap. rewrite He.
  change (vsize (@nil Z) - 1) with (-1).
  change (-1 mod 2 ^ 64) with (2 ^ 64 - 1).
  rewrite decide_False by lia.
  apply vget_None. unfold vsize. simpl. lia.
Qed.

End Queries.

Lemma GetNumVertsInStencil_empty_witness :
  (t ← WeightTable_new (F:=spec_float) 3 false true;
   GetNumVertsInStencil 0 t) = None.
Proof.
  rewrite WeightTable_new_plain by lia. simpl.
  apply GetNumVertsInStencil_empty; [reflexivity|lia].
Defined.

(** * Trivial control vertex stencils *)

(** C5.  Constructed with [genCtrlVertStencils = true] for [n > 0] coarse
    vertices, the table holds, before any write, the one-entry stencil
    [{source = i, weight = 1.0}] for every [i < n]: offset [i], size 1,
    source [i], weight 1.0; and the total number of contributions is [n]. *)
Theorem trivial_control_stencils {F : Type} `{FloatOps F} (n : Z) (compact : bool) :
  0 < n →
  ∃ t : WeightTable F, WeightTable_new n true compact = Some t ∧
    (∀ i, 0 ≤ i < n →
       vget (_indices t) i = Some i ∧ vget (_sizes t) i = Some 1 ∧
       vget (_sources t) i = Some i ∧ vget (_weights t) i = Some f1) ∧
    GetNumVerticesTotal t = n.
Proof.
  intros Hn.
  destruct (WeightTable_new_ctrl (F:=F) n compact) as (t & Ht & Hf & _); [lia|].
  exists t. split; [done|].
  destruct Hf as (_ & _ & _ & _ & Lws & Hf). split; [|done].
  intros i Hi. destruct (Hf i Hi) as (? & ? & ? & ? & ?). done.
Qed.

Lemma trivial_control_stencils_witness :
  0 < 3 ∧
  ∃ t : WeightTable spec_float, WeightTable_new 3 true false = Some t ∧
    (∀ i, 0 ≤ i < 3 →
       vget (_indices t) i = Some i ∧ vget (_sizes t) i = Some 1 ∧
       vget (_sources t) i = Some i ∧ vget (_weights t) i = Some f1) ∧
    GetNumVerticesTotal t = 3.
Proof.
  split; [lia|]. apply (trivial_control_stencils 3 false). lia.
Defined.

(** * Zero weights *)

(** C6.  A facade call whose weight compares equal to 0 (and, for the
    derivative variant, whose [du] and [dv] do too) returns at once: the
    table after the call is the table before it, so no size, no count and no
    vector changes. *)
Theorem zero_weight_noop {F : Type} `{FloatOps F} (t : WeightTable F)
    (dest src : Z) (st : Stencil F) (w wdu wdv : F) :
  feq w f0 = true →
  Index_AddWithWeight dest src w t = Some t ∧
  Index_AddWithWeight_stencil dest st w t = Some t ∧
  (feq wdu f0 = true → feq wdv f0 = true →
   Index_AddWithWeight_deriv dest st w wdu wdv t = Some t).
Proof.
  intros Hw. unfold Index_AddWithWeight, Index_AddWithWeight_stencil,
    Index_AddWithWeight_deriv.
  rewrite Hw. split; [done|]. split; [done|]. by intros -> ->.
Qed.

Lemma zero_weight_noop_witness :
  Index_AddWithWeight 3 0 (S754_zero true) plain3 = Some plain3 ∧
  Index_AddWithWeight_stencil 3 unit_stencil (S754_zero true) plain3
    = Some plain3 ∧
  Index_AddWithWeight_deriv 3 unit_stencil (S754_zero false)
    (S754_zero true) (S754_zero false) plain3 = Some plain3.
Proof.
  assert (feq (S754_zero true) (f0 (F:=spec_float)) = true) as Hn
    by reflexivity.
  assert (feq (S754_zero false) (f0 (F:=spec_float)) = true) as Hp
    by reflexivity.
  destruct (zero_weight_noop plain3 3 0 unit_stencil (S754_zero true)
              (S754_zero true) (S754_zero false) Hn) as (H1 & H2 & _).
  destruct (zero_weight_noop plain3 3 0 unit_stencil (S754_zero false)
              (S754_zero true) (S754_zero false) Hp) as (_ & _ & H3).
  split; [exact H1|]. split; [exact H2|]. exact (H3 Hn Hp).
Defined.

(** * Starting a stencil *)

Section Restart.
Context {F : Type} `{FloatOps F} {W : Type} `{!Payload W}.
Context (acc : Accumulator F W) `{!AccLaws acc}.
Implicit Types (t : WeightTable F).

(** C8.  When [add] appends a contribution for a destination [d] that is
    not the destination of the last entry (or the table is empty), the
    stencil of [d] restarts at the end of the storage: its offset becomes the
    old length of the flat storage and its size, reset to 0 and incremented by
    the append, is 1, whatever offset and size [d] had before.  The entries
    stored earlier all stay (the new vectors extend the old ones by one
    entry) and are counted by the total; the earlier entries tagged [d] lie
    outside the new range of [d]. *)
Theorem add_restarts_stencil t src d w :
  wf t → 0 ≤ d → vback (_dests t) ≠ Some d →
  ∃ t', add src d w acc t = Some t' ∧
    vget (_indices t') d = Some (vsize (_sources t)) ∧
    vget (_sizes t') d = Some 1 ∧
    _sources t' = _sources t ++ [src] ∧
    _dests t' = _dests t ++ [d] ∧
    _weights t `prefix_of` _weights t' ∧
    GetNumVerticesTotal t' = GetNumVerticesTotal t + 1 ∧
    ∀ i o k, vget (_dests t) i = Some d →
      vget (_indices t') d = Some o → vget (_sizes t') d = Some k →
      ¬ (o ≤ i < o + k).
Proof.
  intros [Hok Hw] Hd Hb. rewrite add_eq by done. eexists. split; [done|].
  destruct (PushBack_shape w (add_table src d t))
    as (Hds & Hss & Hix & Hsz & _).
  rewrite Hds, Hss, Hix, Hsz, add_table_sources, add_table_dests.
  unfold GetNumVerticesTotal. rewrite PushBack_weights.
  pose proof (PushBack_prefix w (add_table src d t)) as Hpre.
  destruct (add_table_weights src d t) as (Hws & _). rewrite Hws in *.
  assert (vget (_indices (add_table src d t)) d = Some (vsize (_sources t)) ∧
          vget (_sizes (add_table src d t)) d = Some 1) as [-> ->].
  { unfold add_table. rewrite decide_False by done. simpl.
    pose proof (vsize_grow (_indices t) d (_indices t) Hd eq_refl).
    pose proof (vsize_grow (_indices t) d (_sizes t) Hd (wf_sizes _ Hok)).
    by rewrite !vget_insert_eq by lia. }
  do 6 (split; [done|]).
  intros i o k Hi [= <-] [= <-]. apply vget_range in Hi.
  rewrite (wf_dests _ Hok) in Hi. lia.
Qed.

End Restart.

Lemma wf_ctrl2 : wf ctrl2.
Proof. by apply (WeightTable_new_wf 2 true true ctrl2). Qed.

Lemma add_restarts_stencil_witness :
  vback (_dests ctrl2) ≠ Some 0 ∧
  ∃ t', add 1 0 b32_half ScalarAccumulator ctrl2 = Some t' ∧
    vget (_indices t') 0 = Some (vsize (_sources ctrl2)) ∧
    vget (_sizes t') 0 = Some 1 ∧
    _sources t' = _sources ctrl2 ++ [1] ∧
    _dests t' = _dests ctrl2 ++ [0] ∧
    _weights ctrl2 `prefix_of` _weights t' ∧
    GetNumVerticesTotal t' = GetNumVerticesTotal ctrl2 + 1 ∧
    ∀ i o k, vget (_dests ctrl2) i = Some 0 →
      vget (_indices t') 0 = Some o → vget (_sizes t') 0 = Some k →
      ¬ (o ≤ i < o + k).
Proof.
  assert (vback (_dests ctrl2) ≠ Some 0) as Hb by (simpl; congruence).
  split; [exact Hb|].
  apply (add_restarts_stencil ScalarAccumulator ctrl2 1 0 b32_half);
    [exact wf_ctrl2|lia|exact Hb].
Defined.

(** * The facade *)

Section Facade.
Context {F : Type} `{FloatOps F}.
Implicit Types (t : WeightTable F) (x : write F) (xs : list (write F)).

Lemma write_post_refl dest t : wf t → coarse_only t → write_post dest t t.
Proof.
  intros. split; [done|]. split; [done|].
  split; [apply extends_refl|apply slots_kept_refl].
Qed.

Lemma write_post_trans dest t1 t2 t3 :
  write_post dest t1 t2 → write_post dest t2 t3 → write_post dest t1 t3.
Proof.
  intros (_ & _ & He & Hs) (Hwf & Hc & He' & Hs').
  split; [done|]. split; [done|].
  split; [by eapply extends_trans|by eapply slots_kept_trans].
Qed.

Lemma AddWithWeight_post {W : Type} `{!Payload W} (acc : Accumulator F W)
    `{!AccLaws acc} src dest (w : W) t t' :
  wf t → coarse_only t → AddWithWeight src dest w acc t = Some t' →
  write_post dest t t'.
Proof.
  intros Hwf Hc Ha.
  destruct (AddWithWeight_inv acc _ _ _ _ _ Hwf Hc Ha) as (? & ? & ? & _).
  split; [done|]. split; [done|]. split; [done|].
  by eapply slots_kept_AddWithWeight.
Qed.

Lemma stencil_loop_post n i dest st w t t' :
  wf t → coarse_only t → stencil_loop n i dest st w t = Some t' →
  write_post dest t t'.
Proof.
  revert i t. induction n as [|n IH]; intros i t Hwf Hc Hl.
  - injection Hl as <-. by apply write_post_refl.
  - simpl in Hl. apply bind_Some in Hl as (w0 & _ & Hl).
    destruct (feq w0 f0); [by eapply IH|].
    apply bind_Some in Hl as (s & _ & Hl).
    apply bind_Some in Hl as (t1 & Ha & Hl).
    pose proof (AddWithWeight_post ScalarAccumulator _ _ _ _ _ Hwf Hc Ha) as Hp.
    eapply write_post_trans; [done|].
    eapply IH; [apply Hp|apply Hp|done].
Qed.

Lemma stencil_deriv_loop_post n i dest st w wu wv t t' :
  wf t → coarse_only t →
  stencil_deriv_loop n i dest st w wu wv t = Some t' →
  write_post dest t t' ∧ (deriv_len t → deriv_len t').
Proof.
  revert i t. induction n as [|n IH]; intros i t Hwf Hc Hl.
  - injection Hl as <-. split; [by apply write_post_refl|done].
  - simpl in Hl. apply bind_Some in Hl as (w0 & _ & Hl).
    destruct (feq w0 f0); [by eapply IH|].
    apply bind_Some in Hl as (s & _ & Hl).
    apply bind_Some in Hl as (t1 & Ha & Hl).
    pose proof (AddWithWeight_post PointDerivAccumulator _ _ _ _ _ Hwf Hc Ha) as Hp.
    destruct (AddWithWeight_inv PointDerivAccumulator _ _ _ _ _ Hwf Hc Ha)
      as (_ & _ & _ & Hlen).
    destruct (IH _ _ (proj1 Hp) (proj1 (proj2 Hp)) Hl) as [Hp' Hlen'].
    split; [by eapply write_post_trans|]. intros Hd. apply Hlen', Hlen, Hd.
Qed.

Lemma do_write_post x t t' :
  wf t → coarse_only t → do_write x t = Some t' →
  write_post (write_dest x) t t' ∧
  (is_deriv x = true → deriv_len t → deriv_len t').
Proof.
  intros Hwf Hc Hx. destruct x as [dest src w|dest st w|dest st w wu wv];
    simpl in *.
  - split; [|done]. unfold Index_AddWithWeight in Hx.
    destruct (feq w f0).
    + injection Hx as <-. by apply write_post_refl.
    + by eapply (AddWithWeight_post ScalarAccumulator).
  - split; [|done]. unfold Index_AddWithWeight_stencil in Hx.
    destruct (feq w f0).
    + injection Hx as <-. by apply write_post_refl.
    + by eapply stencil_loop_post.
  - unfold Index_AddWithWeight_deriv in Hx.
    destruct (feq w f0 && feq wu f0 && feq wv f0).
    + injection Hx as <-. split; [by apply write_post_refl|done].
    + destruct (stencil_deriv_loop_post _ _ _ _ _ _ _ _ _ Hwf Hc Hx).
      split; [done|auto].
Qed.

Lemma do_writes_post xs t t' :
  wf t → coarse_only t → do_writes xs t = Some t' →
  wf t' ∧ coarse_only t' ∧ extends t t' ∧
  (forallb is_deriv xs = true → deriv_len t → deriv_len t') ∧
  ∀ id (v : Z), id ∉ map write_dest xs →
    (vget (_sizes t') id = Some v → v = 0 ∨ vget (_sizes t) id = Some v) ∧
    (vget (_indices t') id = Some v → v = 0 ∨ vget (_indices t) id = Some v).
Proof.
  revert t. induction xs as [|x xs IH]; intros t Hwf Hc Hr.
  - injection Hr as <-. split; [done|]. split; [done|].
    split; [apply extends_refl|]. split; [done|]. auto.
  - simpl in Hr. apply bind_Some in Hr as (t1 & Hx & Hr).
    destruct (do_write_post _ _ _ Hwf Hc Hx) as [(Hwf1 & Hc1 & He1 & Hs1) Hl1].
    destruct (IH _ Hwf1 Hc1 Hr) as (Hwf' & Hc' & He' & Hl' & Hs').
    split; [done|]. split; [done|]. split; [by eapply extends_trans|]. split.
    + simpl. intros [Hd Hds]%andb_prop Hlen. auto.
    + intros id v Hnotin. simpl in Hnotin.
      apply not_elem_of_cons in Hnotin as [Hne Hnotin].
      destruct (Hs' id v Hnotin) as [Hsz Hix].
      destruct (Hs1 id v Hne) as [Hsz1 Hix1].
      split; intros Hv.
      * destruct (Hsz Hv); auto.
      * destruct (Hix Hv); auto.
Qed.

End Facade.

(** * Parallel vectors *)

(** C10, as amended.  After construction and any sequence of facade writes
    the destination tags, the sources and the weights have one common
    length, which is the total returned by [GetNumVerticesTotal] and the
    cached [_size]; when the table was constructed without control vertex
    stencils and only the derivative-aware call was used, [_duWeights] and
    [_dvWeights] have that length too. *)
Theorem parallel_arrays {F : Type} `{FloatOps F} cv gen compact
    (xs : list (write F)) (t : WeightTable F) :
  built cv gen compact xs = Some t →
  vsize (_dests t) = GetNumVerticesTotal t ∧
  vsize (_sources t) = GetNumVerticesTotal t ∧
  vsize (_weights t) = GetNumVerticesTotal t ∧
  _size t = GetNumVerticesTotal t ∧
  (gen = false → forallb is_deriv xs = true →
   vsize (_duWeights t) = GetNumVerticesTotal t ∧
   vsize (_dvWeights t) = GetNumVerticesTotal t).
Proof.
  unfold built. intros (t0 & Ht0 & Hxs)%bind_Some.
  destruct (WeightTable_new_wf _ _ _ _ Ht0) as (Hwf0 & Hc0 & _).
  destruct (do_writes_post _ _ _ Hwf0 Hc0 Hxs) as ([Hok Hw] & _ & _ & Hlen & _).
  unfold GetNumVerticesTotal. rewrite Hw.
  split; [apply (wf_dests _ Hok)|]. split; [done|]. split; [done|].
  split; [apply (wf_size _ Hok)|].
  intros -> Hd. destruct (Hlen Hd) as (_ & Hu & Hv); [|done].
  pose proof (WeightTable_new_nonneg _ _ _ _ Ht0).
  rewrite WeightTable_new_plain in Ht0 by done. injection Ht0 as <-. done.
Qed.

Lemma parallel_arrays_witness :
  built 3 false true deriv_writes = Some deriv_table ∧
  vsize (_dests deriv_table) = GetNumVerticesTotal deriv_table ∧
  vsize (_sources deriv_table) = GetNumVerticesTotal deriv_table ∧
  vsize (_weights deriv_table) = GetNumVerticesTotal deriv_table ∧
  _size deriv_table = GetNumVerticesTotal deriv_table ∧
  vsize (_duWeights deriv_table) = GetNumVerticesTotal deriv_table ∧
  vsize (_dvWeights deriv_table) = GetNumVerticesTotal deriv_table.
Proof.
  assert (built 3 false true deriv_writes = Some deriv_table) as Hb
    by (vm_compute; reflexivity).
  destruct (parallel_arrays 3 false true deriv_writes deriv_table Hb)
    as (H1 & H2 & H3 & H4 & H5).
  destruct (H5 eq_refl eq_refl) as [H6 H7].
  split; [exact Hb|]. do 5 (split; [assumption|]). exact H7.
Defined.

(** The claim without the condition on the construction fails: with
    control vertex stencils the constructor fills [_weights] but not the
    derivative vectors. *)
Lemma parallel_arrays_counterexample :
  built 1 true true deriv_ctrl_writes = Some deriv_ctrl_table ∧
  forallb is_deriv deriv_ctrl_writes = true ∧
  GetNumVerticesTotal deriv_ctrl_table = 2 ∧
  vsize (_duWeights deriv_ctrl_table) = 1 ∧
  vsize (_dvWeights deriv_ctrl_table) = 1.
Proof. split; [vm_compute; reflexivity|]. repeat split. Qed.

(** * Sparse destination ids *)

(** C9, as amended.  (1) When [add] receives a destination [d] at or beyond
    the length of [_indices] and [_sizes], both vectors grow to [d + 1]
    slots, the new slots below [d] hold 0 and the old slots are unchanged.
    (2) In every table built through the facade, a destination id that was
    never the target of a write and is not a control vertex whose trivial
    stencil the constructor wrote has size 0 and offset 0 wherever it has a
    slot. *)
Theorem sparse_slots_empty {F : Type} `{FloatOps F} {W : Type} `{!Payload W}
    (acc : Accumulator F W) `{!AccLaws acc} :
  (∀ (t : WeightTable F) src d (w : W),
     wf t → vsize (_sizes t) ≤ d →
     ∃ t', add src d w acc t = Some t' ∧
       vsize (_indices t') = d + 1 ∧ vsize (_sizes t') = d + 1 ∧
       (∀ id, vsize (_sizes t) ≤ id < d →
          vget (_sizes t') id = Some 0 ∧ vget (_indices t') id = Some 0) ∧
       (∀ id, id < vsize (_sizes t) →
          vget (_sizes t') id = vget (_sizes t) id ∧
          vget (_indices t') id = vget (_indices t) id)) ∧
  (∀ cv gen compact (xs : list (write F)) (t : WeightTable F) id,
     built cv gen compact xs = Some t →
     id ∉ map write_dest xs → gen = false ∨ cv ≤ id →
     (∀ v, vget (_sizes t) id = Some v → v = 0) ∧
     (∀ v, vget (_indices t) id = Some v → v = 0)).
Proof.
  split.
  - intros t src d w [Hok Hw] Hlen.
    pose proof (vsize_nonneg (_sizes t)) as Hnn.
    pose proof (wf_sizes _ Hok) as Hsz.
    assert (0 ≤ d) as Hd by lia.
    assert (vback (_dests t) ≠ Some d) as Hb.
    { intros Hb. apply last_Some_elem_of in Hb.
      apply (wf_dest_range _ Hok) in Hb. lia. }
    rewrite add_eq by done. eexists. split; [done|].
    destruct (PushBack_shape w (add_table src d t))
      as (_ & _ & -> & -> & _).
    unfold add_table. rewrite decide_False by done. simpl.
    rewrite !vsize_insert, !vsize_grow_eq by done.
    split; [lia|]. split; [lia|]. split.
    + intros id Hid. rewrite !vget_insert_ne by lia.
      rewrite !vget_grow_new by lia. done.
    + intros id Hid. rewrite !vget_insert_ne by lia.
      rewrite !vget_grow_old by lia. done.
  - intros cv gen compact xs t id Hb Hid Hctl. unfold built in Hb.
    apply bind_Some in Hb as (t0 & Ht0 & Hxs).
    destruct (WeightTable_new_wf _ _ _ _ Ht0) as (Hwf0 & Hc0 & _).
    destruct (do_writes_post _ _ _ Hwf0 Hc0 Hxs) as (_ & _ & _ & _ & Hs).
    pose proof (WeightTable_new_nonneg _ _ _ _ Ht0) as Hcv.
    assert (vget (_sizes t0) id = None ∧ vget (_indices t0) id = None)
      as [Hn1 Hn2].
    { destruct gen.
      - destruct Hctl as [?|Hge]; [done|].
        destruct (WeightTable_new_ctrl (F:=F) cv compact Hcv)
          as (t1 & Ht1 & (Lix & Lsz & _) & _).
        rewrite Ht0 in Ht1. injection Ht1 as <-.
        split; apply vget_None; lia.
      - rewrite WeightTable_new_plain in Ht0 by done. injection Ht0 as <-.
        split; apply vget_None; unfold vsize; simpl; lia. }
    split; intros v Hv; destruct (Hs id v Hid) as [H1 H2].
    + destruct (H1 Hv) as [?|Hv0]; [done|]. congruence.
    + destruct (H2 Hv) as [?|Hv0]; [done|]. congruence.
Qed.

Lemma wf_plain3 : wf plain3.
Proof. by apply (WeightTable_new_wf 3 false true plain3). Qed.

Lemma sparse_slots_empty_witness :
  (∃ t', add 0 3 b32_one ScalarAccumulator plain3 = Some t' ∧
     vsize (_indices t') = 3 + 1 ∧ vsize (_sizes t') = 3 + 1 ∧
     (∀ id, vsize (_sizes plain3) ≤ id < 3 →
        vget (_sizes t') id = Some 0 ∧ vget (_indices t') id = Some 0) ∧
     (∀ id, id < vsize (_sizes plain3) →
        vget (_sizes t') id = vget (_sizes plain3) id ∧
        vget (_indices t') id = vget (_indices plain3) id)) ∧
  built 2 false true sparse_writes = Some sparse_table ∧
  (∀ v, vget (_sizes sparse_table) 2 = Some v → v = 0) ∧
  (∀ v, vget (_indices sparse_table) 2 = Some v → v = 0).
Proof.
  destruct (sparse_slots_empty (F:=spec_float) ScalarAccumulator) as [HA HB].
  split.
  - apply (HA plain3 0 3 b32_one); [exact wf_plain3|].
    unfold vsize. simpl. lia.
  - assert (built 2 false true sparse_writes = Some sparse_table) as Hb
      by (vm_compute; reflexivity).
    split; [exact Hb|].
    apply (HB 2 false true sparse_writes sparse_table 2 Hb); [|by left].
    unfold sparse_writes. simpl. intros Hin.
    apply list_elem_of_singleton in Hin. lia.
Defined.

(** The claim without the exception fails: constructed with control vertex
    stencils for two vertices, a first write to vertex 3 grows the vectors,
    and vertex 1, never a target, keeps size 1 and offset 1. *)
Lemma sparse_slots_counterexample :
  built 2 true true sparse_writes = Some sparse_ctrl_table ∧
  (1 ∉ map write_dest sparse_writes) ∧
  vget (_sizes sparse_ctrl_table) 1 = Some 1 ∧
  vget (_indices sparse_ctrl_table) 1 = Some 1.
Proof.
  split; [vm_compute; reflexivity|]. split; [|split; reflexivity].
  unfold sparse_writes. simpl. intros Hin.
  apply list_elem_of_singleton in Hin. lia.
Qed.

(** * Compaction *)

Section Compaction.
Context {F : Type} `{FloatOps F}.
Implicit Types (t : WeightTable F).

Lemma PushBack_scalar (w : F) t :
  PushBack ScalarAccumulator w t = with_weights t (vpush (_weights t) w).
Proof. reflexivity. Qed.

Lemma open_start_pushed {W : Type} `{!Payload W} (acc : Accumulator F W)
    `{!AccLaws acc} src dst (w : W) t :
  shape_ok t → 0 ≤ dst →
  open_start (PushBack acc w (add_table src dst t)) dst = open_start t dst.
Proof.
  intros Hok Hd.
  destruct (pushed_table acc src dst w t Hok Hd) as (_ & _ & _ & Hlo & Hb & _).
  unfold open_start at 1. by rewrite decide_True.
Qed.

(** Two successive facade contributions of one coarse source [src], with
    nonzero weights [w1] and [w2] that [* 1.0f] leaves unchanged, to the
    destination [dest] whose open stencil does not hold [src] yet. *)
Lemma compaction_generic t dest src w1 w2 :
  wf t → 0 ≤ dest → src < _coarseVertCount t →
  feq w1 f0 = false → feq w2 f0 = false →
  fmul w1 f1 = w1 → fmul w2 f1 = w2 →
  (_compactWeights t = true → src ∉ open_sources t dest) →
  ∃ t', (Index_AddWithWeight dest src w1 t
           ≫= Index_AddWithWeight dest src w2) = Some t' ∧
    vget (_indices t') dest = Some (open_start t dest) ∧
    if _compactWeights t then
      _sources t' = _sources t ++ [src] ∧
      _weights t' = _weights t ++ [fadd w1 w2] ∧
      vget (_sizes t') dest
        = Some (vsize (_sources t) - open_start t dest + 1) ∧
      ∀ i, open_start t dest ≤ i → vget (_sources t') i = Some src →
           i = vsize (_sources t)
    else
      _sources t' = _sources t ++ [src; src] ∧
      _weights t' = _weights t ++ [w1; w2] ∧
      vget (_sizes t') dest
        = Some (vsize (_sources t) - open_start t dest + 2).
Proof.
  intros [Hok Hw] Hd Hsrc Hw1 Hw2 H1 H2 Hnew.
  destruct (pushed_table ScalarAccumulator src dest w1 t Hok Hd)
    as (Hok1 & Hss1 & Hds1 & Hlo1 & Hb1 & Hk1 & Hc1 & Hi1 & Hz1).
  assert (_weights (PushBack ScalarAccumulator w1 (add_table src dest t))
          = _weights t ++ [w1]) as Hws1.
  { rewrite PushBack_scalar. simpl.
    by destruct (add_table_weights src dest t) as (-> & _). }
  pose proof (open_start_pushed ScalarAccumulator src dest w1 t Hok Hd) as Hos.
  remember (PushBack ScalarAccumulator w1 (add_table src dest t)) as t1
    eqn:Et1.
  assert (Index_AddWithWeight dest src w1 t = Some t1) as ->.
  { unfold Index_AddWithWeight. rewrite Hw1.
    unfold AddWithWeight. rewrite bool_decide_eq_true_2 by done.
    rewrite merge_fresh by done.
    change (w_mul w1 w_one) with (fmul w1 f1). by rewrite H1, Et1. }
  change (Some t1 ≫= Index_AddWithWeight dest src w2)
    with (Index_AddWithWeight dest src w2 t1).
  unfold Index_AddWithWeight. rewrite Hw2.
  unfold AddWithWeight. rewrite bool_decide_eq_true_2 by (rewrite Hc1; done).
  change (w_mul w2 w_one) with (fmul w2 f1).
  destruct (_compactWeights t) eqn:Hk.
  - specialize (Hnew eq_refl).
    rewrite Et1.
    rewrite (merge_again ScalarAccumulator src dest w1 w2 w_one t Hok Hd Hk Hnew).
    rewrite <- Et1.
    change (w_mul w2 w_one) with (fmul w2 f1). rewrite H2.
    assert (vget (_weights t1) (vsize (_sources t)) = Some w1) as Hg.
    { rewrite Hws1, <- Hw. apply vget_vpush_eq. }
    assert (vsize (_weights t1) = vsize (_sources t) + 1) as Hlen.
    { rewrite Hws1, <- Hw. apply vsize_vpush. }
    pose proof (vsize_nonneg (_sources t)) as Hnn.
    unfold Add, ScalarAccumulator. rewrite Hg. simpl.
    rewrite vset_Some by lia. simpl.
    eexists. split; [done|]. simpl.
    split; [done|]. split; [done|]. split.
    + rewrite Hws1. unfold vsize. rewrite Nat2Z.id.
      assert (length (_sources t) = length (_weights t)) as ->
        by (unfold vsize in Hw; lia).
      rewrite insert_app_r_alt by lia. by rewrite Nat.sub_diag.
    + split; [done|]. intros i Hi Hs. rewrite Hss1 in Hs.
      apply vget_vpush_Some in Hs as [[Hlt Hs]|[-> _]]; [|done].
      exfalso. apply Hnew. unfold open_sources.
      pose proof (open_start_range t dest Hok).
      eapply elem_of_drop_vget; [|done]. lia.
  - rewrite merge_fresh; [|done|done|rewrite Hk1; congruence].
    change (w_mul w2 w_one) with (fmul w2 f1). rewrite H2.
    eexists. split; [done|].
    destruct (pushed_table ScalarAccumulator src dest w2 t1 Hok1 Hd)
      as (_ & Hss2 & _ & _ & _ & _ & _ & Hi2 & Hz2).
    rewrite Hi2, Hz2, Hss2, Hss1, Hos.
    split; [done|]. split; [by rewrite <- app_assoc|]. split.
    + rewrite PushBack_scalar. simpl.
      destruct (add_table_weights src dest t1) as (-> & _).
      rewrite Hws1. unfold vpush. by rewrite <- app_assoc.
    + f_equal. change (_sources t ++ [src]) with (vpush (_sources t) src).
      rewrite vsize_vpush. lia.
Qed.

End Compaction.

(** ** Multiplication by 1.0 in binary32 *)

Lemma shr_fexp_canonical m e :
  canonical_mantissa 24 128 m e = true →
  shr_fexp 24 128 (Zpos m) e loc_Exact
  = (Build_shr_record (Zpos m) false false, e).
Proof.
  unfold canonical_mantissa. intros Hc%Z.eqb_eq.
  unfold shr_fexp. simpl Zdigits2. rewrite Hc, Z.sub_diag. reflexivity.
Qed.

Lemma shr_fexp_shift23 m e :
  canonical_mantissa 24 128 m e = true →
  shr_fexp 24 128 (Zpos (8388608 * m)) (e + -23) loc_Exact
  = (Build_shr_record (Zpos m) false false, e).
Proof.
  unfold canonical_mantissa. intros Hc%Z.eqb_eq.
  unfold shr_fexp.
  change (8388608 * m)%positive with (Pos.iter xO m 23).
  assert (Zdigits2 (Zpos (Pos.iter xO m 23)) = Zpos (digits2_pos m) + 23)
    as ->.
  { cbn [Pos.iter Zdigits2 digits2_pos]. lia. }
  replace (Z.pos (digits2_pos m) + 23 + (e + -23))
    with (Z.pos (digits2_pos m) + e) by lia.
  rewrite Hc. replace (e - (e + -23)) with 23 by lia.
  unfold shr. replace (e + -23 + 23) with e by lia. reflexivity.
Qed.

(** [x * 1.0f] is [x] for every binary32 value. *)
Lemma b32_mul_one_r x :
  valid_binary 24 128 x = true → b32_mul x b32_one = x.
Proof.
  destruct x as [s|s| |s m e]; simpl; intros Hv.
  - by rewrite xorb_false_r.
  - by rewrite xorb_false_r.
  - done.
  - unfold bounded in Hv. apply andb_prop in Hv as [Hc He].
    rewrite xorb_false_r, Pos.mul_comm.
    unfold binary_round_aux. rewrite shr_fexp_shift23 by done.
    simpl. rewrite shr_fexp_canonical by done. simpl.
    unfold bounded in *. by rewrite He.
Qed.

(** * The derivative channels *)

Section Derivatives.
Context {F : Type} `{FloatOps F}.
Implicit Types (t : WeightTable F) (a b : PointDerivWeight F).

Lemma PushBack_deriv a t :
  PushBack PointDerivAccumulator a t =
  with_derivs (with_weights t (vpush (_weights t) (p a)))
    (vpush (_duWeights t) (du a)) (vpush (_dvWeights t) (dv a)).
Proof. reflexivity. Qed.

(** A facade call with a one-entry external stencil is one engine call. *)
Lemma deriv_single dest src w0 w wu wv t :
  feq w0 f0 = false → feq w f0 && feq wu f0 && feq wv f0 = false →
  Index_AddWithWeight_deriv dest (mkStencil 1 [src] [w0]) w wu wv t =
  AddWithWeight src dest
    (pdw_mul (mkPointDerivWeight w wu wv) (PointDerivWeight_of_float w0))
    PointDerivAccumulator t.
Proof.
  intros Hw0 Hw. unfold Index_AddWithWeight_deriv. rewrite Hw.
  change (Z.to_nat (GetSizePtr (mkStencil 1 [src] [w0]))) with 1%nat.
  cbn [stencil_deriv_loop GetWeights GetVertexIndices].
  change (vget [w0] 0) with (Some w0). change (vget [src] 0) with (Some src).
  cbn [mbind option_bind]. rewrite Hw0.
  by destruct (AddWithWeight _ _ _ _ _).
Qed.

(** Two successive engine calls with the derivative accumulator for one
    coarse source that is new to the open stencil, compaction on: one entry
    is appended and each channel receives the sum of its own contributions. *)
Lemma deriv_twice t dest src a b :
  wf t → deriv_len t → _compactWeights t = true → 0 ≤ dest →
  src < _coarseVertCount t → src ∉ open_sources t dest →
  ∃ t', (AddWithWeight src dest a PointDerivAccumulator t
           ≫= AddWithWeight src dest b PointDerivAccumulator) = Some t' ∧
    _sources t' = _sources t ++ [src] ∧
    _weights t' = _weights t ++ [fadd (p (w_mul a w_one)) (p (w_mul b w_one))] ∧
    _duWeights t' = _duWeights t ++ [fadd (du (w_mul a w_one)) (du (w_mul b w_one))] ∧
    _dvWeights t' = _dvWeights t ++ [fadd (dv (w_mul a w_one)) (dv (w_mul b w_one))] ∧
    vget (_indices t') dest = Some (open_start t dest) ∧
    vget (_sizes t') dest = Some (vsize (_sources t) - open_start t dest + 1).
Proof.
  intros [Hok _] (Hw & Hu & Hv) Hk Hd Hsrc Hnew.
  set (a1 := w_mul a w_one). set (b1 := w_mul b w_one).
  destruct (pushed_table PointDerivAccumulator src dest a1 t Hok Hd)
    as (Hok1 & Hss1 & Hds1 & Hlo1 & Hb1 & Hk1 & Hc1 & Hi1 & Hz1).
  destruct (add_table_weights src dest t) as (Ew & Eu & Ev).
  remember (PushBack PointDerivAccumulator a1 (add_table src dest t)) as t1
    eqn:Et1.
  assert (_weights t1 = _weights t ++ [p a1] ∧
          _duWeights t1 = _duWeights t ++ [du a1] ∧
          _dvWeights t1 = _dvWeights t ++ [dv a1]) as (Hws1 & Hus1 & Hvs1).
  { rewrite Et1, PushBack_deriv. simpl. by rewrite Ew, Eu, Ev. }
  assert (AddWithWeight src dest a PointDerivAccumulator t = Some t1) as ->.
  { unfold AddWithWeight. rewrite bool_decide_eq_true_2 by done.
    rewrite merge_fresh by done. by rewrite Et1. }
  change (Some t1 ≫= AddWithWeight src dest b PointDerivAccumulator)
    with (AddWithWeight src dest b PointDerivAccumulator t1).
  unfold AddWithWeight. rewrite bool_decide_eq_true_2 by (rewrite Hc1; done).
  rewrite Et1.
  rewrite (merge_again PointDerivAccumulator src dest a1 b w_one t
             Hok Hd Hk Hnew).
  rewrite <- Et1. fold b1.
  pose proof (vsize_nonneg (_sources t)) as Hnn.
  assert (∀ (l : list F) x, vsize l = vsize (_sources t) →
            vget (l ++ [x]) (vsize (_sources t)) = Some x ∧
            0 ≤ vsize (_sources t) < vsize (l ++ [x])) as Hlast.
  { intros l x Hl. rewrite <- Hl. split; [apply vget_vpush_eq|].
    change (l ++ [x]) with (vpush l x). rewrite vsize_vpush.
    pose proof (vsize_nonneg l). lia. }
  assert (∀ (l : list F) x y, vsize l = vsize (_sources t) →
            <[Z.to_nat (vsize (_sources t)) := y]> (l ++ [x]) = l ++ [y])
    as Hins.
  { intros l x y Hl. unfold vsize in *. rewrite Nat2Z.id.
    assert (length (_sources t) = length l) as -> by lia.
    rewrite insert_app_r_alt by lia. by rewrite Nat.sub_diag. }
  destruct (Hlast (_weights t) (p a1) Hw) as [Gw Rw].
  destruct (Hlast (_duWeights t) (du a1) Hu) as [Gu Ru].
  destruct (Hlast (_dvWeights t) (dv a1) Hv) as [Gv Rv].
  unfold Add, PointDerivAccumulator.
  rewrite Hws1, Hus1, Hvs1, Gw, Gu, Gv. cbn [mbind option_bind].
  rewrite !vset_Some by done. cbn [mbind option_bind].
  rewrite !Hins by done.
  eexists. split; [done|]. simpl. done.
Qed.

End Derivatives.

(** * The algebraic expansion *)

Section Expansion.
Context {F : Type} `{FloatOps F} `{!ExactLaws F}.
Implicit Types (t : WeightTable F) (c d : Z) (l : list F).

Lemma fadd_0_r (a : F) : fadd a f0 = a.
Proof. rewrite fadd_comm. apply fadd_0_l. Qed.

Lemma fsum_app l1 l2 : fsum (l1 ++ l2) = fadd (fsum l1) (fsum l2).
Proof.
  induction l1 as [|a l1 IH]; simpl.
  - by rewrite fadd_0_l.
  - rewrite IH. apply fadd_assoc.
Qed.

Lemma fsum_scale l (w : F) :
  fsum (map (fun q => fmul q w) l) = fmul (fsum l) w.
Proof.
  induction l as [|a l IH]; simpl.
  - by rewrite fmul_0_l.
  - by rewrite IH, fmul_add_distr_r.
Qed.

Lemma range_coef_ext t t' i n c :
  (∀ j, i ≤ j < i + Z.of_nat n →
        vget (_sources t') j = vget (_sources t) j ∧
        vget (_weights t') j = vget (_weights t) j) →
  range_coef t' i n c = range_coef t i n c.
Proof.
  revert i. induction n as [|n IH]; intros i Hj; [done|].
  simpl. destruct (Hj i) as [-> ->]; [lia|].
  rewrite IH; [done|]. intros j Hjr. apply Hj. lia.
Qed.

(** The range extended by one entry at its end. *)
Lemma range_coef_snoc t i n c s (w : F) :
  (∀ j, i ≤ j < i + Z.of_nat n →
        is_Some (vget (_sources t) j) ∧ is_Some (vget (_weights t) j)) →
  vget (_sources t) (i + Z.of_nat n) = Some s →
  vget (_weights t) (i + Z.of_nat n) = Some w →
  range_coef t i (S n) c =
  fadd (range_coef t i n c) (if bool_decide (s = c) then w else f0).
Proof.
  revert i. induction n as [|n IH]; intros i Hin Hs Hw.
  - replace (i + Z.of_nat 0) with i in * by lia. simpl. rewrite Hs, Hw.
    case_bool_decide; by rewrite ?fadd_0_r, ?fadd_0_l.
  - destruct (Hin i) as [[s0 Hs0] [w0 Hw0]]; [lia|].
    change (range_coef t i (S (S n)) c) with
      (match vget (_sources t) i, vget (_weights t) i with
       | Some s1, Some w1 =>
           if bool_decide (s1 = c)
           then fadd w1 (range_coef t (i + 1) (S n) c)
           else range_coef t (i + 1) (S n) c
       | _, _ => f0
       end).
    simpl (range_coef t i (S n) c). rewrite Hs0, Hw0.
    rewrite (IH (i + 1)).
    + destruct (bool_decide (s0 = c)); [|done]. apply fadd_assoc.
    + intros j Hj. apply Hin. lia.
    + rewrite <- Hs. f_equal. lia.
    + rewrite <- Hw. f_equal. lia.
Qed.

(** One weight of the range accumulated in place. *)
Lemma range_coef_update t t' i n c j s (y : F) :
  (∀ k, vget (_sources t') k = vget (_sources t) k) →
  (∀ k, k ≠ j → vget (_weights t') k = vget (_weights t) k) →
  (∀ k, i ≤ k < i + Z.of_nat n →
        is_Some (vget (_sources t) k) ∧ is_Some (vget (_weights t) k)) →
  i ≤ j < i + Z.of_nat n → vget (_sources t) j = Some s →
  (∀ wj, vget (_weights t) j = Some wj →
         vget (_weights t') j = Some (fadd wj y)) →
  range_coef t' i n c =
  fadd (range_coef t i n c) (if bool_decide (s = c) then y else f0).
Proof.
  intros Hss Hws. revert i. induction n as [|n IH]; intros i Hin Hj Hs Hwj;
    [lia|].
  destruct (Hin i) as [[s0 Hs0] [w0 Hw0]]; [lia|].
  simpl. rewrite Hss, Hs0, Hw0.
  destruct (decide (j = i)) as [->|Hne].
  - rewrite (Hwj _ Hw0).
    assert (s0 = s) as -> by congruence.
    rewrite (range_coef_ext t t' (i + 1) n c).
    + destruct (bool_decide (s = c)); [|by rewrite fadd_0_r].
      rewrite <- !fadd_assoc. f_equal. apply fadd_comm.
    + intros k Hk. split; [apply Hss|apply Hws; lia].
  - rewrite (Hws i) by done. rewrite Hw0.
    rewrite (IH (i + 1)); [|intros k Hk; apply Hin; lia|lia|done|done].
    destruct (bool_decide (s0 = c)); [|done]. apply fadd_assoc.
Qed.

Lemma open_range_Some t dst k :
  wf t → open_start t dst ≤ k < vsize (_sources t) →
  is_Some (vget (_sources t) k) ∧ is_Some (vget (_weights t) k).
Proof.
  intros [Hok Hw] Hk. pose proof (open_start_range t dst Hok).
  split; apply vget_is_Some; lia.
Qed.

(** The effect of an append on the open stencil. *)
Lemma add_value src dst (x : F) t :
  wf t → 0 ≤ dst →
  ∃ t', t' = PushBack ScalarAccumulator x (add_table src dst t) ∧
    wf t' ∧ kept (open_start t dst) dst t t' ∧ extends t t' ∧
    vback (_dests t') = Some dst ∧ _lastOffset t' = open_start t dst ∧
    ∀ c, open_coef t' dst c =
         fadd (open_coef t dst c) (if bool_decide (src = c) then x else f0).
Proof.
  intros Hwf Hd. pose proof Hwf as [Hok Hw]. eexists. split; [done|].
  pose proof (add_eq ScalarAccumulator src dst x t Hok Hd) as Ha.
  destruct (pushed_table ScalarAccumulator src dst x t Hok Hd)
    as (Hok1 & Hss1 & Hds1 & Hlo1 & Hb1 & Hk1 & Hc1 & Hi1 & Hz1).
  pose proof (open_start_pushed ScalarAccumulator src dst x t Hok Hd) as Hos.
  pose proof (open_start_range t dst Hok) as Hr.
  assert (_weights (PushBack ScalarAccumulator x (add_table src dst t))
          = _weights t ++ [x]) as Hws1.
  { rewrite PushBack_scalar. simpl.
    by destruct (add_table_weights src dst t) as (-> & _). }
  set (t1 := PushBack ScalarAccumulator x (add_table src dst t)) in *.
  assert (wf t1) as Hwf1
    by exact (wf_add ScalarAccumulator _ _ _ _ _ Hwf Ha).
  assert (∀ j, j < vsize (_sources t) →
            vget (_sources t1) j = vget (_sources t) j ∧
            vget (_weights t1) j = vget (_weights t) j) as Hold.
  { intros j Hj. rewrite Hss1, Hws1. split.
    - by apply (vget_vpush_lt (_sources t)).
    - apply (vget_vpush_lt (_weights t)). lia. }
  split; [done|].
  split; [|split; [exact (extends_add ScalarAccumulator _ _ _ _ _ Hok Ha)|]].
  - split.
    + intros j Hj. apply Hold. lia.
    + intros j Hj. apply Hold. lia.
    + intros d Hne Hlt. unfold t1. rewrite PushBack_scalar. simpl.
      unfold add_table. case_decide; simpl; [done|].
      rewrite vget_insert_ne by done.
      apply vget_grow_old; [done|]. rewrite <- (wf_sizes _ Hok). done.
    + intros d Hne Hlt. unfold t1. rewrite PushBack_scalar. simpl.
      unfold add_table. case_decide; simpl.
      * by rewrite vget_insert_ne.
      * rewrite vget_insert_ne by done.
        apply vget_grow_old; [by apply (wf_sizes _ Hok)|done].
    + unfold t1. rewrite PushBack_scalar. simpl.
      rewrite add_table_sizes_len by done. lia.
    + done.
    + intros d. rewrite Hds1. intros [?|?%list_elem_of_singleton]%elem_of_app;
        auto.
  - split; [done|]. split; [done|]. intros c. unfold open_coef.
    rewrite Hos, Hss1.
    change (_sources t ++ [src]) with (vpush (_sources t) src).
    rewrite vsize_vpush.
    replace (Z.to_nat (vsize (_sources t) + 1 - open_start t dst))
      with (S (Z.to_nat (vsize (_sources t) - open_start t dst))) by lia.
    rewrite (range_coef_snoc t1 _ _ c src x).
    + f_equal. apply range_coef_ext. intros j Hj. apply Hold. lia.
    + intros j Hj. destruct (Hold j) as [-> ->]; [lia|].
      apply (open_range_Some t dst); [done|lia].
    + rewrite Hss1. rewrite Z2Nat.id by lia.
      replace (open_start t dst + (vsize (_sources t) - open_start t dst))
        with (vsize (_sources t)) by lia.
      apply vget_vpush_eq.
    + rewrite Hws1. rewrite Z2Nat.id by lia.
      replace (open_start t dst + (vsize (_sources t) - open_start t dst))
        with (vsize (_weights t)) by lia.
      apply vget_vpush_eq.
Qed.

(** The effect of an accumulation in place on the open stencil. *)
Lemma Add_value src dst (x : F) t i :
  wf t → vback (_dests t) = Some dst → _lastOffset t ≤ i →
  vget (_sources t) i = Some src →
  ∃ t', Add ScalarAccumulator i x t = Some t' ∧
    wf t' ∧ kept (open_start t dst) dst t t' ∧ extends t t' ∧
    vback (_dests t') = Some dst ∧ _lastOffset t' = open_start t dst ∧
    ∀ c, open_coef t' dst c =
         fadd (open_coef t dst c) (if bool_decide (src = c) then x else f0).
Proof.
  intros Hwf Hb Hi Hs. pose proof Hwf as [Hok Hw].
  pose proof (vget_range _ _ _ Hs) as Hir.
  destruct (vget_is_Some (_weights t) i) as [wi Hwi]; [lia|].
  assert (open_start t dst = _lastOffset t) as Hos.
  { unfold open_start. by rewrite decide_True. }
  pose proof (open_start_range t dst Hok) as Hr.
  assert (Add ScalarAccumulator i x t
          = Some (with_weights t (<[Z.to_nat i := fadd wi x]> (_weights t))))
    as Ha.
  { unfold Add, ScalarAccumulator. rewrite Hwi. simpl.
    by rewrite vset_Some by lia. }
  eexists. split; [exact Ha|].
  split; [exact (wf_Add ScalarAccumulator _ _ _ _ Hwf Ha)|].
  assert (kept (open_start t dst) dst t
            (with_weights t (<[Z.to_nat i := fadd wi x]> (_weights t))))
    as Hkept.
  { split; simpl; [done| |done|done|lia|done|auto].
    intros j Hj. apply vget_insert_ne; lia. }
  split; [exact Hkept|].
  split; [by apply extends_same_shape, (Add_shape _ _ _ _ Ha)|].
  split; [done|]. split; [done|].
  { intros c. unfold open_coef.
    change (open_start (with_weights t _) dst) with (open_start t dst).
    change (_sources (with_weights t _)) with (_sources t).
    apply range_coef_update with (j := i); simpl; try done.
    + intros k Hk. apply vget_insert_ne; lia.
    + intros k Hk. apply (open_range_Some t dst); [done|lia].
    + lia.
    + intros wj Hwj. assert (wj = wi) as -> by congruence.
      apply vget_insert_eq. lia. }
Qed.

(** The effect of one [merge] on the open stencil of [dst]: the coefficient
    of [src] grows by the merged weight. *)
Lemma merge_value src dst (w f : F) t :
  wf t → 0 ≤ dst →
  ∃ t', merge src dst w f (_lastOffset t) (_size t) ScalarAccumulator t
          = Some t' ∧
    wf t' ∧ kept (open_start t dst) dst t t' ∧ extends t t' ∧
    vback (_dests t') = Some dst ∧ _lastOffset t' = open_start t dst ∧
    ∀ c, open_coef t' dst c =
         fadd (open_coef t dst c)
              (if bool_decide (src = c) then fmul w f else f0).
Proof.
  intros Hwf Hd. pose proof Hwf as [Hok _].
  destruct (merge_outcome ScalarAccumulator src dst w f t Hok Hd)
    as [->|(i & Hb & Hi & Hs & ->)].
  - destruct (add_value src dst (fmul w f) t Hwf Hd) as (t' & -> & Hrest).
    eexists. split; [done|]. exact Hrest.
  - apply Add_value; done.
Qed.

Lemma kept_refl P dst t : kept P dst t t.
Proof. split; auto; lia. Qed.

Lemma kept_trans P dst t1 t2 t3 :
  kept P dst t1 t2 → kept P dst t2 t3 → kept P dst t1 t3.
Proof.
  intros [] []. split.
  - intros j Hj. by rewrite kept_sources1, kept_sources0.
  - intros j Hj. by rewrite kept_weights1, kept_weights0.
  - intros d Hne Hlt. rewrite kept_indices1 by (done || lia). auto.
  - intros d Hne Hlt. rewrite kept_sizes1 by (done || lia). auto.
  - lia.
  - congruence.
  - intros d Hd. destruct (kept_dests1 d Hd) as [Hd'|?]; auto.
Qed.

Lemma open_start_vback t dst :
  vback (_dests t) = Some dst → open_start t dst = _lastOffset t.
Proof. intros Hb. unfold open_start. by rewrite decide_True. Qed.

(** The effect of the loop of [AddWithWeight] on the open stencil of
    [dest]: the coefficients of the [n] entries from [i] on, scaled by
    [w]. *)
Lemma resolve_loop_value n i dest (w : F) t :
  wf t → coarse_only t → 0 ≤ dest → 0 ≤ i →
  i + Z.of_nat n ≤ open_start t dest →
  ∃ t', resolve_loop n i dest w ScalarAccumulator t = Some t' ∧
    wf t' ∧ coarse_only t' ∧ kept (open_start t dest) dest t t' ∧
    extends t t' ∧ open_start t' dest = open_start t dest ∧
    ((0 < n)%nat → vback (_dests t') = Some dest) ∧
    ∀ c, open_coef t' dest c =
         fadd (open_coef t dest c) (fmul (range_coef t i n c) w).
Proof.
  revert i t. induction n as [|n IH]; intros i t Hwf Hc Hd Hi Hn.
  - exists t. split; [done|]. split; [done|]. split; [done|].
    split; [apply kept_refl|]. split; [apply extends_refl|].
    split; [done|]. split; [lia|]. intros c. simpl.
    by rewrite fmul_0_l, fadd_0_r.
  - pose proof Hwf as [Hok Hw].
    pose proof (open_start_range t dest Hok) as Hr.
    destruct (vget_is_Some (_sources t) i) as [s Hs]; [lia|].
    destruct (vget_is_Some (_weights t) i) as [w0 Hw0]; [lia|].
    assert (s < _coarseVertCount t) as Hlt.
    { apply Hc, elem_of_vget. eauto. }
    destruct (merge_value s dest w0 w t Hwf Hd)
      as (t1 & Hm & Hwf1 & Hk1 & He1 & Hb1 & Hlo1 & Hv1).
    pose proof (coarse_only_merge ScalarAccumulator _ _ _ _ _ _ _ _
                  Hok Hc Hlt Hm) as Hc1.
    pose proof (open_start_vback t1 dest Hb1) as Hos1.
    rewrite Hlo1 in Hos1.
    destruct (IH (i + 1) t1 Hwf1 Hc1 Hd) as
      (t' & Hl & Hwf' & Hc' & Hk' & He' & Hos' & _ & Hv'); [lia|lia|].
    exists t'. split.
    { simpl. rewrite Hs. simpl. rewrite bool_decide_eq_true_2 by done.
      change (Get ScalarAccumulator i t) with (vget (_weights t) i).
      rewrite Hw0. simpl. rewrite Hm. simpl. done. }
    split; [done|]. split; [done|]. rewrite Hos1 in Hk'.
    split; [by eapply kept_trans|]. split; [by eapply extends_trans|].
    split; [congruence|]. split.
    { intros _. destruct n as [|n].
      - simpl in Hl. by injection Hl as <-.
      - destruct (IH (i + 1) t1 Hwf1 Hc1 Hd) as
          (t2 & Hl2 & _ & _ & _ & _ & _ & Hb2 & _); [lia|lia|].
        rewrite Hl in Hl2. injection Hl2 as <-. apply Hb2. lia. }
    intros c. rewrite Hv', Hv1.
    rewrite (range_coef_ext t t1 (i + 1) n c).
    + simpl. rewrite Hs, Hw0. rewrite <- fadd_assoc. f_equal.
      destruct (bool_decide (s = c)).
      * by rewrite fmul_add_distr_r.
      * by rewrite fadd_0_l.
    + intros j Hj. split; [apply (kept_sources _ _ _ _ Hk1)|
                            apply (kept_weights _ _ _ _ Hk1)]; lia.
Qed.

Lemma stencil_coef_open t dest c :
  wf t → vback (_dests t) = Some dest →
  stencil_coef t dest c = open_coef t dest c.
Proof.
  intros [Hok _] Hb. destruct (wf_cur _ Hok _ Hb) as [Hi Hs].
  unfold stencil_coef, open_coef. rewrite Hi, Hs.
  by rewrite (open_start_vback t dest Hb).
Qed.

(** The effect of one engine call on the open stencil of [dest]: the
    coefficients of the stencil of [src], scaled by the weight. *)
Lemma AddWithWeight_value src dest (w : F) t :
  wf t → coarse_only t → 0 ≤ dest →
  src < _coarseVertCount t ∨
  (src ∈ _dests t ∧
   ∀ o k, vget (_indices t) src = Some o → vget (_sizes t) src = Some k →
          o + k ≤ open_start t dest) →
  ∃ t', AddWithWeight src dest w ScalarAccumulator t = Some t' ∧
    wf t' ∧ coarse_only t' ∧ kept (open_start t dest) dest t t' ∧
    extends t t' ∧ vback (_dests t') = Some dest ∧
    _lastOffset t' = open_start t dest ∧
    ∀ c, open_coef t' dest c =
         fadd (open_coef t dest c) (fmul (src_coef t src c) w).
Proof.
  intros Hwf Hc Hd Hsrc. pose proof Hwf as [Hok Hw].
  unfold AddWithWeight, src_coef. case_bool_decide as Hlt.
  - destruct (merge_value src dest w f1 t Hwf Hd)
      as (t' & Hm & Hwf' & Hk' & He' & Hb' & Hlo' & Hv').
    exists t'. split; [exact Hm|]. split; [done|].
    split; [exact (coarse_only_merge ScalarAccumulator _ _ _ _ _ _ _ _
                     Hok Hc Hlt Hm)|].
    do 4 (split; [done|]). intros c. rewrite Hv'. f_equal.
    destruct (bool_decide (src = c)).
    + by rewrite fmul_1_r, fmul_1_l.
    + by rewrite fmul_0_l.
  - destruct Hsrc as [?|[Hin Hend]]; [done|].
    pose proof (wf_dest_range _ Hok _ Hin) as Hr.
    destruct (vget_is_Some (_sizes t) src Hr) as [k Hk].
    destruct (vget_is_Some (_indices t) src) as [o Ho].
    { by rewrite <- (wf_sizes _ Hok). }
    rewrite Hk, Ho. simpl.
    pose proof (wf_dest_size _ Hok _ _ Hin Hk) as Hk1.
    destruct (wf_range _ Hok _ _ _ Ho Hk) as (Ho0 & _ & _).
    specialize (Hend _ _ Ho Hk).
    destruct (resolve_loop_value (Z.to_nat k) o dest w t Hwf Hc Hd Ho0)
      as (t' & Hl & Hwf' & Hc' & Hk' & He' & Hos' & Hb' & Hv'); [lia|].
    exists t'. split; [exact Hl|]. do 4 (split; [done|]).
    assert (vback (_dests t') = Some dest) as Hb by (apply Hb'; lia).
    split; [done|]. split.
    + rewrite <- Hos'. symmetry. by apply open_start_vback.
    + intros c. rewrite Hv'. unfold stencil_coef. by rewrite Ho, Hk.
Qed.

Lemma elem_of_finalized fin cur dest d :
  d ∈ finalized fin cur dest ↔ d ∈ fin ∨ (cur = Some d ∧ d ≠ dest).
Proof.
  unfold finalized. case_bool_decide as Hc.
  - subst cur. split; [auto|]. intros [?|[[= ->] ?]]; done.
  - destruct cur as [d0|].
    + rewrite elem_of_cons. split.
      * intros [->|?]; [|auto]. right. split; [done|]. congruence.
      * intros [?|[[= ->] ?]]; auto.
    + split; [auto|]. intros [?|[? _]]; done.
Qed.

End Expansion.

#[export] Instance exactQ_laws : ExactLaws Qc.
Proof.
  split; simpl.
  - apply Qcplus_comm.
  - apply Qcplus_assoc.
  - apply Qcplus_0_l.
  - apply Qcmult_1_l.
  - apply Qcmult_1_r.
  - apply Qcmult_0_l.
  - apply Qcmult_plus_distr_l.
Qed.

(** * Further properties of the engine and the facade *)

Section AccumulatorFrames.
Context {F : Type} `{FloatOps F}.

#[export] Instance ScalarAccumulator_frame
  : AccFrame (ScalarAccumulator (F:=F)).
Proof.
  split.
  - intros w t j. simpl. repeat split; [|done..].
    intros x Hx. pose proof (vget_range _ _ _ Hx).
    by rewrite vget_vpush_lt by lia.
  - intros i w t t' j Ha Hne. simpl in Ha.
    apply bind_Some in Ha as (w0 & Hw0 & Ha).
    apply bind_Some in Ha as (ws & Hws & Ha). injection Ha as <-.
    apply vset_inv in Hws as [Hi ->]. simpl.
    split; [|done]. apply vget_insert_ne; lia.
Qed.

#[export] Instance PointDerivAccumulator_frame
  : AccFrame (PointDerivAccumulator (F:=F)).
Proof.
  split.
  - intros w t j. simpl. repeat split; intros x Hx;
      pose proof (vget_range _ _ _ Hx); by rewrite vget_vpush_lt by lia.
  - intros i w t t' j Ha Hne. simpl in Ha.
    apply bind_Some in Ha as (w0 & _ & Ha).
    apply bind_Some in Ha as (ws & Hws & Ha).
    apply bind_Some in Ha as (u0 & _ & Ha).
    apply bind_Some in Ha as (us & Hus & Ha).
    apply bind_Some in Ha as (v0 & _ & Ha).
    apply bind_Some in Ha as (vs & Hvs & Ha). injection Ha as <-.
    apply vset_inv in Hws as [Hi ->]. apply vset_inv in Hus as [_ ->].
    apply vset_inv in Hvs as [_ ->]. simpl.
    repeat split; apply vget_insert_ne; lia.
Qed.

End AccumulatorFrames.

(** ** What a successful [merge] did, and lifting a step property of
    [merge] to every write *)

Section MergeSteps.
Context {F : Type} `{FloatOps F} {W : Type} `{!Payload W}.
Context (acc : Accumulator F W) `{!AccLaws acc}.

Lemma drop_elem_vget {A} (l : list A) (n : Z) (x : A) :
  0 ≤ n → x ∈ drop (Z.to_nat n) l → ∃ i, n ≤ i ∧ vget l i = Some x.
Proof.
  intros Hn Hin. apply list_elem_of_lookup_1 in Hin as [k Hk].
  rewrite lookup_drop in Hk.
  exists (n + Z.of_nat k). split; [lia|].
  unfold vget. case_decide; [|lia].
  by replace (Z.to_nat (n + Z.of_nat k)) with (Z.to_nat n + k)%nat by lia.
Qed.

(** A successful [merge] either accumulated into an entry of the open
    stencil of [dst] that holds [src], or appended through [add]; with
    compaction it appends only a source the open stencil does not hold. *)
Lemma merge_did src dst w f t t' :
  shape_ok t →
  merge src dst w f (_lastOffset t) (_size t) acc t = Some t' →
  (∃ i, _compactWeights t = true ∧ vback (_dests t) = Some dst ∧
        _lastOffset t ≤ i ∧ vget (_sources t) i = Some src ∧
        Add acc i (w_mul w f) t = Some t') ∨
  (0 ≤ dst ∧ t' = PushBack acc (w_mul w f) (add_table src dst t) ∧
   (_compactWeights t = true → src ∉ open_sources t dst)).
Proof.
  intros Hs Hm. unfold merge in Hm. rewrite merge_guard_eq in Hm by done.
  simpl in Hm.
  destruct (_compactWeights t) eqn:Hc; simpl in Hm.
  - case_bool_decide as Hb; simpl in Hm.
    + assert (Hne : _dests t ≠ []) by (by intros E; rewrite E in Hb).
      pose proof (wf_last _ Hs Hne) as Hl.
      rewrite (wf_dests _ Hs), <- (wf_size _ Hs) in Hl.
      destruct (scan_sources_spec (_sources t) src (_lastOffset t)
                  (Z.to_nat (_size t - _lastOffset t)))
        as (r & Hr & Hspec); [lia|rewrite <- (wf_size _ Hs); lia|].
      rewrite Hr in Hm. simpl in Hm. destruct r as [i|].
      * left. exists i. destruct Hspec as (Hi & Hsrc & _).
        repeat split; try done. lia.
      * right. apply add_inv in Hm as [Hd ->]; [|done].
        split; [done|]. split; [done|]. intros _ Hin.
        unfold open_sources, open_start in Hin.
        rewrite decide_True in Hin by done.
        apply drop_elem_vget in Hin as (i & Hi & Hsrc); [|lia].
        pose proof (vget_range _ _ _ Hsrc).
        apply (Hspec i); [|done]. rewrite (wf_size _ Hs). lia.
    + right. apply add_inv in Hm as [Hd ->]; [|done].
      split; [done|]. split; [done|]. intros _ Hin.
      unfold open_sources, open_start in Hin.
      rewrite decide_False in Hin by done.
      apply drop_elem_vget in Hin as (i & Hi & Hsrc); [|apply vsize_nonneg].
      pose proof (vget_range _ _ _ Hsrc). lia.
  - right. apply add_inv in Hm as [Hd ->]; [|done].
    split; [done|]. split; [done|]. done.
Qed.

End MergeSteps.

Section Lift.
Context {F : Type} `{FloatOps F}.
Implicit Types (t : WeightTable F) (x : write F) (xs : list (write F)).

(** An invariant [Inv] and a reflexive, transitive relation [Rel dst]
    between the tables before and after a write for [dst], both established
    by every successful [merge] on a well formed table. *)
Variable Inv : WeightTable F → Prop.
Variable Rel : Z → WeightTable F → WeightTable F → Prop.
Hypothesis Rel_refl : ∀ d t, Rel d t t.
Hypothesis Rel_trans : ∀ d t1 t2 t3, Rel d t1 t2 → Rel d t2 t3 → Rel d t1 t3.
Hypothesis merge_step :
  ∀ (W : Type) `{!Payload W} (acc : Accumulator F W)
    `{!AccLaws acc} `{!AccFrame acc} src dst (w f : W) t t',
    wf t → Inv t →
    merge src dst w f (_lastOffset t) (_size t) acc t = Some t' →
    Inv t' ∧ Rel dst t t'.

Lemma lift_resolve_loop {W : Type} `{!Payload W} (acc : Accumulator F W)
    `{!AccLaws acc} `{!AccFrame acc} n i dest (w : W) t t' :
  wf t → coarse_only t → Inv t →
  resolve_loop n i dest w acc t = Some t' → Inv t' ∧ Rel dest t t'.
Proof.
  revert i t. induction n as [|n IH]; intros i t Hwf Hco Hi Hr; simpl in Hr.
  { injection Hr as <-. auto. }
  apply bind_Some in Hr as (s & Hs & Hr).
  case_bool_decide as Hlt; [|done].
  apply bind_Some in Hr as (w0 & Hw0 & Hr).
  apply bind_Some in Hr as (t1 & Hm & Hr).
  destruct (merge_step _ _ _ _ _ _ _ _ Hwf Hi Hm) as [Hi1 Hr1].
  pose proof (wf_merge _ _ _ _ _ _ _ _ _ Hwf Hm) as Hwf1.
  pose proof (coarse_only_merge _ _ _ _ _ _ _ _ _ (proj1 Hwf) Hco Hlt Hm)
    as Hco1.
  destruct (IH _ _ Hwf1 Hco1 Hi1 Hr) as [Hi' Hr'].
  split; [done|]. by eapply Rel_trans.
Qed.

Lemma lift_AddWithWeight {W : Type} `{!Payload W} (acc : Accumulator F W)
    `{!AccLaws acc} `{!AccFrame acc} src dest (w : W) t t' :
  wf t → coarse_only t → Inv t →
  AddWithWeight src dest w acc t = Some t' → Inv t' ∧ Rel dest t t'.
Proof.
  intros Hwf Hco Hi Ha. unfold AddWithWeight in Ha.
  case_bool_decide.
  - by eapply merge_step.
  - apply bind_Some in Ha as (len & _ & Ha).
    apply bind_Some in Ha as (start & _ & Ha).
    by eapply lift_resolve_loop.
Qed.

Lemma lift_stencil_loop n i dest st (w : F) t t' :
  wf t → coarse_only t → Inv t →
  stencil_loop n i dest st w t = Some t' → Inv t' ∧ Rel dest t t'.
Proof.
  revert i t. induction n as [|n IH]; intros i t Hwf Hco Hi Hl; simpl in Hl.
  { injection Hl as <-. auto. }
  apply bind_Some in Hl as (w0 & _ & Hl).
  destruct (feq w0 f0); [by eapply IH|].
  apply bind_Some in Hl as (s & _ & Hl).
  apply bind_Some in Hl as (t1 & Ha & Hl).
  destruct (lift_AddWithWeight _ _ _ _ _ _ Hwf Hco Hi Ha) as [Hi1 Hr1].
  destruct (AddWithWeight_inv _ _ _ _ _ _ Hwf Hco Ha) as (Hwf1 & Hco1 & _).
  destruct (IH _ _ Hwf1 Hco1 Hi1 Hl) as [Hi' Hr'].
  split; [done|]. by eapply Rel_trans.
Qed.

Lemma lift_stencil_deriv_loop n i dest st (w wu wv : F) t t' :
  wf t → coarse_only t → Inv t →
  stencil_deriv_loop n i dest st w wu wv t = Some t' →
  Inv t' ∧ Rel dest t t'.
Proof.
  revert i t. induction n as [|n IH]; intros i t Hwf Hco Hi Hl; simpl in Hl.
  { injection Hl as <-. auto. }
  apply bind_Some in Hl as (w0 & _ & Hl).
  destruct (feq w0 f0); [by eapply IH|].
  apply bind_Some in Hl as (s & _ & Hl).
  apply bind_Some in Hl as (t1 & Ha & Hl).
  destruct (lift_AddWithWeight _ _ _ _ _ _ Hwf Hco Hi Ha) as [Hi1 Hr1].
  destruct (AddWithWeight_inv _ _ _ _ _ _ Hwf Hco Ha) as (Hwf1 & Hco1 & _).
  destruct (IH _ _ Hwf1 Hco1 Hi1 Hl) as [Hi' Hr'].
  split; [done|]. by eapply Rel_trans.
Qed.

Lemma lift_do_write x t t' :
  wf t → coarse_only t → Inv t → do_write x t = Some t' →
  Inv t' ∧ Rel (write_dest x) t t'.
Proof.
  intros Hwf Hco Hi Hw. destruct x as [dest src w|dest st w|dest st w wu wv];
    simpl in *.
  - unfold Index_AddWithWeight in Hw. destruct (feq w f0).
    + injection Hw as <-. auto.
    + exact (lift_AddWithWeight ScalarAccumulator _ _ _ _ _ Hwf Hco Hi Hw).
  - unfold Index_AddWithWeight_stencil in Hw. destruct (feq w f0).
    + injection Hw as <-. auto.
    + by eapply lift_stencil_loop.
  - unfold Index_AddWithWeight_deriv in Hw.
    destruct (feq w f0 && feq wu f0 && feq wv f0).
    + injection Hw as <-. auto.
    + by eapply lift_stencil_deriv_loop.
Qed.

Lemma lift_do_writes xs t t' :
  wf t → coarse_only t → Inv t → do_writes xs t = Some t' → Inv t'.
Proof.
  revert t. induction xs as [|x xs IH]; intros t Hwf Hco Hi Hw; simpl in Hw.
  { by injection Hw as <-. }
  apply bind_Some in Hw as (t1 & Hx & Hw).
  destruct (lift_do_write _ _ _ Hwf Hco Hi Hx) as [Hi1 _].
  destruct (do_write_post _ _ _ Hwf Hco Hx) as [(Hwf1 & Hco1 & _) _].
  by eapply IH.
Qed.

Lemma lift_built cv gen compact xs t :
  (∀ t0, WeightTable_new cv gen compact = Some t0 → Inv t0) →
  built cv gen compact xs = Some t → wf t ∧ coarse_only t ∧ Inv t.
Proof.
  intros Hnew Hb. unfold built in Hb.
  apply bind_Some in Hb as (t0 & Hn & Hw).
  destruct (WeightTable_new_wf _ _ _ _ Hn) as (Hwf & Hco & _).
  destruct (do_writes_post _ _ _ Hwf Hco Hw) as (Hwf' & Hco' & _).
  split; [done|]. split; [done|].
  exact (lift_do_writes _ _ _ Hwf Hco (Hnew _ Hn) Hw).
Qed.

End Lift.

(** ** Destination tags, distinct sources and the frame of a write *)

Section TagFacts.
Context {F : Type} `{FloatOps F}.
Implicit Types (t : WeightTable F) (x : write F) (xs : list (write F)).

Lemma tagged_same_shape t t' : same_shape t t' → tagged t → tagged t'.
Proof.
  intros (Hd & _ & Hi & Hz & _) Ht d o k i. rewrite Hd, Hi, Hz. apply Ht.
Qed.

Lemma distinct_same_shape t t' :
  same_shape t t' → distinct_sources t → distinct_sources t'.
Proof.
  intros (_ & Hs & Hi & Hz & _) Ht d o k i j s. rewrite Hs, Hi, Hz. apply Ht.
Qed.

(** The slots of the destinations other than [dst] in the table [add]
    builds: an old slot is unchanged, a new one has size 0. *)
Lemma add_table_slot src dst t d :
  0 ≤ dst → shape_ok t → d ≠ dst →
  (d < vsize (_sizes t) →
   vget (_indices (add_table src dst t)) d = vget (_indices t) d ∧
   vget (_sizes (add_table src dst t)) d = vget (_sizes t) d) ∧
  (vsize (_sizes t) ≤ d →
   ∀ k, vget (_sizes (add_table src dst t)) d = Some k → k = 0).
Proof.
  intros Hd Hs Hne. pose proof (wf_sizes _ Hs) as Hlen.
  unfold add_table. case_decide; simpl.
  - split.
    + intros _. split; [done|]. apply vget_insert_ne; [done|lia].
    + intros Hge k Hk. rewrite vget_insert_ne in Hk by (done || lia).
      apply vget_range in Hk. lia.
  - split.
    + intros Hlt. rewrite !vget_insert_ne by (done || lia).
      split; apply vget_grow_old; lia.
    + intros Hge k Hk. rewrite vget_insert_ne in Hk by (done || lia).
      destruct (vget_grow_Some _ _ _ _ _ Hd Hlen Hk) as [Ho|[_ ->]]; [|done].
      apply vget_range in Ho. lia.
Qed.

Lemma tagged_pushed {W : Type} `{!Payload W} (acc : Accumulator F W)
    `{!AccLaws acc} src dst (w : W) t :
  shape_ok t → 0 ≤ dst → tagged t →
  tagged (PushBack acc w (add_table src dst t)).
Proof.
  intros Hs Hd Ht.
  destruct (pushed_table acc src dst w t Hs Hd)
    as (Hs1 & Hsrc & Hdst & Hlo & Hback & _ & _ & Hix & Hsz).
  intros d o k i Ho Hk Hi.
  destruct (PushBack_shape (acc:=acc) w (add_table src dst t))
    as (Ed & Es & Ei & Ez & _).
  rewrite Hdst. fold (vpush (_dests t) dst).
  destruct (decide (d = dst)) as [->|Hne].
  - rewrite Hix in Ho. rewrite Hsz in Hk.
    injection Ho as <-. injection Hk as <-.
    destruct (decide (i = vsize (_dests t))) as [->|Hi'].
    { apply vget_vpush_eq. }
    pose proof (open_start_range t dst Hs) as Hr.
    pose proof (wf_dests _ Hs) as Hlen.
    rewrite vget_vpush_lt by lia.
    destruct (vget_is_Some (_dests t) i) as [d' Hd']; [lia|].
    rewrite Hd'. f_equal. unfold open_start in Hi, Hr.
    case_decide as Hb; [|lia].
    pose proof (wf_open _ Hs i d' ltac:(lia) Hd') as Hb'. congruence.
  - rewrite Ei in Ho. rewrite Ez in Hk.
    destruct (add_table_slot src dst t d Hd Hs Hne) as [Hold Hnew].
    destruct (decide (d < vsize (_sizes t))) as [Hlt|Hge].
    + destruct (Hold Hlt) as [Eo Ek]. rewrite Eo in Ho. rewrite Ek in Hk.
      pose proof (wf_range _ Hs _ _ _ Ho Hk) as Hr.
      pose proof (wf_dests _ Hs) as Hlen.
      rewrite vget_vpush_lt by lia. by eapply Ht.
    + rewrite (Hnew ltac:(lia) _ Hk) in Hi. lia.
Qed.

Lemma tagged_merge {W : Type} `{!Payload W} (acc : Accumulator F W)
    `{!AccLaws acc} src dst (w f : W) t t' :
  wf t → tagged t →
  merge src dst w f (_lastOffset t) (_size t) acc t = Some t' → tagged t'.
Proof.
  intros [Hs _] Ht Hm.
  destruct (merge_did acc _ _ _ _ _ _ Hs Hm)
    as [(i & _ & _ & _ & _ & Ha)|(Hd & -> & _)].
  - eapply tagged_same_shape; [|done]. by eapply Add_shape.
  - exact (tagged_pushed acc _ _ _ _ Hs Hd Ht).
Qed.

Lemma distinct_pushed {W : Type} `{!Payload W} (acc : Accumulator F W)
    `{!AccLaws acc} src dst (w : W) t :
  shape_ok t → 0 ≤ dst → src ∉ open_sources t dst → distinct_sources t →
  distinct_sources (PushBack acc w (add_table src dst t)).
Proof.
  intros Hs Hd Hfresh Ht.
  destruct (pushed_table acc src dst w t Hs Hd)
    as (Hs1 & Hsrc & Hdst & Hlo & Hback & _ & _ & Hix & Hsz).
  intros d o k i j s Ho Hk Hi Hj Hsi Hsj.
  destruct (PushBack_shape (acc:=acc) w (add_table src dst t))
    as (Ed & Es & Ei & Ez & _).
  rewrite Hsrc in Hsi, Hsj. fold (vpush (_sources t) src) in Hsi, Hsj.
  destruct (decide (d = dst)) as [->|Hne].
  - rewrite Hix in Ho. rewrite Hsz in Hk.
    injection Ho as <-. injection Hk as <-.
    pose proof (open_start_range t dst Hs) as Hr.
    assert (Hnot : ∀ a, open_start t dst ≤ a < vsize (_sources t) →
                        vget (_sources t) a ≠ Some src).
    { intros a Ha Hsa. apply Hfresh. unfold open_sources.
      by apply (elem_of_drop_vget _ _ a); [lia|]. }
    apply vget_vpush_Some in Hsi as [[Hil Hsi]|[-> ->]];
      apply vget_vpush_Some in Hsj as [[Hjl Hsj]|[Ej Es']].
    + unfold open_start in Hi, Hj, Hr. case_decide as Hb; [|lia].
      destruct (wf_cur _ Hs _ Hb) as [Ho Hk].
      by apply (Ht dst _ _ i j s Ho Hk); [lia|lia| |].
    + subst. by destruct (Hnot i ltac:(lia)).
    + by destruct (Hnot j ltac:(lia)).
    + by subst.
  - rewrite Ei in Ho. rewrite Ez in Hk.
    destruct (add_table_slot src dst t d Hd Hs Hne) as [Hold Hnew].
    destruct (decide (d < vsize (_sizes t))) as [Hlt|Hge].
    + destruct (Hold Hlt) as [Eo Ek]. rewrite Eo in Ho. rewrite Ek in Hk.
      pose proof (wf_range _ Hs _ _ _ Ho Hk) as Hr.
      rewrite vget_vpush_lt in Hsi, Hsj by lia. by eapply Ht.
    + rewrite (Hnew ltac:(lia) _ Hk) in Hi. lia.
Qed.

Lemma distinct_merge {W : Type} `{!Payload W} (acc : Accumulator F W)
    `{!AccLaws acc} src dst (w f : W) t t' :
  wf t → _compactWeights t = true ∧ distinct_sources t →
  merge src dst w f (_lastOffset t) (_size t) acc t = Some t' →
  _compactWeights t' = true ∧ distinct_sources t'.
Proof.
  intros [Hs _] [Hc Ht] Hm.
  pose proof (ext_compact _ _ (extends_merge acc _ _ _ _ _ _ _ _ Hs Hm)) as Ec.
  split; [congruence|].
  destruct (merge_did acc _ _ _ _ _ _ Hs Hm)
    as [(i & _ & _ & _ & _ & Ha)|(Hd & -> & Hfresh)].
  - eapply distinct_same_shape; [|done]. by eapply Add_shape.
  - exact (distinct_pushed acc _ _ _ _ Hs Hd (Hfresh Hc) Ht).
Qed.

Lemma stencil_kept_refl d t : stencil_kept d t t.
Proof. intros o k Ho Hk. by repeat split. Qed.

Lemma stencil_kept_trans d t1 t2 t3 :
  stencil_kept d t1 t2 → stencil_kept d t2 t3 → stencil_kept d t1 t3.
Proof.
  intros H12 H23 o k Ho Hk.
  destruct (H12 _ _ Ho Hk) as (Ho2 & Hk2 & He2).
  destruct (H23 _ _ Ho2 Hk2) as (Ho3 & Hk3 & He3).
  split; [done|]. split; [done|]. intros i Hi.
  destruct (He2 i Hi) as (Es2 & Ew2 & Eu2 & Ev2).
  destruct (He3 i Hi) as (Es3 & Ew3 & Eu3 & Ev3).
  split; [congruence|]. split; [congruence|]. split; eauto.
Qed.

Lemma others_kept_refl dst t : others_kept dst t t.
Proof. intros d _. apply stencil_kept_refl. Qed.

Lemma others_kept_trans dst t1 t2 t3 :
  others_kept dst t1 t2 → others_kept dst t2 t3 → others_kept dst t1 t3.
Proof.
  intros H12 H23 d Hd. eapply stencil_kept_trans; [by apply H12|by apply H23].
Qed.

Lemma others_kept_merge {W : Type} `{!Payload W} (acc : Accumulator F W)
    `{!AccLaws acc} `{!AccFrame acc} src dst (w f : W) t t' :
  wf t → tagged t →
  merge src dst w f (_lastOffset t) (_size t) acc t = Some t' →
  tagged t' ∧ others_kept dst t t'.
Proof.
  intros Hwf Ht Hm. split; [by eapply tagged_merge|].
  destruct Hwf as [Hs Hw].
  destruct (merge_did acc _ _ _ _ _ _ Hs Hm)
    as [(i & _ & Hb & Hi & Hsi & Ha)|(Hd & -> & _)].
  - destruct (Add_shape _ _ _ _ Ha) as (Ed & Es & Ei & Ez & _).
    intros d Hne o k Ho Hk. rewrite Ei, Ez, Es.
    split; [done|]. split; [done|]. intros j Hj.
    assert (Hji : j ≠ i).
    { intros ->. pose proof (Ht _ _ _ _ Ho Hk Hj) as Hdj.
      pose proof (wf_open _ Hs _ _ Hi Hdj). congruence. }
    destruct (Add_other _ _ _ _ j Ha Hji) as (Ew & Eu & Ev).
    split; [done|]. split; [done|]. rewrite Eu, Ev. done.
  - destruct (pushed_table acc src dst (w_mul w f) t Hs Hd)
      as (Hs1 & Hsrc & _).
    destruct (PushBack_shape (acc:=acc) (w_mul w f) (add_table src dst t))
      as (Ed & Es & Ei & Ez & _).
    intros d Hne o k Ho Hk. rewrite Ei, Ez.
    pose proof (vget_range _ _ _ Hk) as Hdr.
    destruct (add_table_slot src dst t d Hd Hs Hne) as [Hold _].
    destruct (Hold ltac:(lia)) as [Eo Ek]. rewrite Eo, Ek.
    split; [done|]. split; [done|]. intros j Hj.
    pose proof (wf_range _ Hs _ _ _ Ho Hk) as Hr.
    rewrite Hsrc. fold (vpush (_sources t) src).
    rewrite vget_vpush_lt by lia. split; [done|].
    destruct (add_table_weights src dst t) as (Aw & Au & Av).
    destruct (PushBack_old (acc:=acc) (w_mul w f) (add_table src dst t) j)
      as (Pw & Pu & Pv).
    rewrite Aw in Pw. rewrite Au in Pu. rewrite Av in Pv.
    split; [|by split].
    destruct (vget_is_Some (_weights t) j) as [x Hx]; [lia|].
    rewrite Hx. by apply Pw.
Qed.

Lemma WeightTable_new_tagged cv gen compact t :
  WeightTable_new cv gen compact = Some t → tagged t ∧ distinct_sources t.
Proof.
  intros Hn. pose proof (WeightTable_new_nonneg _ _ _ _ Hn) as Hcv.
  destruct gen.
  - destruct (WeightTable_new_ctrl (F:=F) cv compact Hcv)
      as (t0 & Hn0 & (Li & Lz & Ld & Ls & Lw & Hf) & _).
    rewrite Hn in Hn0. injection Hn0 as <-.
    assert (Hslot : ∀ d o k i, vget (_indices t) d = Some o →
              vget (_sizes t) d = Some k → o ≤ i < o + k →
              0 ≤ d < cv ∧ i = d).
    { intros d o k i Ho Hk Hi. pose proof (vget_range _ _ _ Ho) as Hd.
      rewrite Li in Hd. destruct (Hf d Hd) as (Eo & Ek & _).
      rewrite Eo in Ho. rewrite Ek in Hk.
      injection Ho as <-. injection Hk as <-. lia. }
    split.
    + intros d o k i Ho Hk Hi.
      destruct (Hslot _ _ _ _ Ho Hk Hi) as [Hd ->].
      by destruct (Hf d Hd) as (_ & _ & Ed & _).
    + intros d o k i j s Ho Hk Hi Hj _ _.
      destruct (Hslot _ _ _ _ Ho Hk Hi) as [_ ->].
      by destruct (Hslot _ _ _ _ Ho Hk Hj) as [_ ->].
  - rewrite WeightTable_new_plain in Hn by done. injection Hn as <-.
    split.
    + intros d o k i Ho. apply vget_range in Ho.
      unfold vsize in Ho. simpl in Ho. lia.
    + intros d o k i j s Ho. apply vget_range in Ho.
      unfold vsize in Ho. simpl in Ho. lia.
Qed.

End TagFacts.

(** ** The tables a [StencilBuilder] can reach *)

Section Reachable.
Context {F : Type} `{FloatOps F}.
Implicit Types (t : WeightTable F) (x : write F) (xs : list (write F)).

Lemma tagged_step :
  ∀ (W : Type) `{!Payload W} (acc : Accumulator F W)
    `{!AccLaws acc} `{!AccFrame acc} src dst (w f : W) t t',
    wf t → tagged t →
    merge src dst w f (_lastOffset t) (_size t) acc t = Some t' →
    tagged t' ∧ others_kept dst t t'.
Proof. intros. by eapply others_kept_merge. Qed.

Lemma distinct_step :
  ∀ (W : Type) `{!Payload W} (acc : Accumulator F W)
    `{!AccLaws acc} `{!AccFrame acc} src dst (w f : W) t t',
    wf t → _compactWeights t = true ∧ distinct_sources t →
    merge src dst w f (_lastOffset t) (_size t) acc t = Some t' →
    (_compactWeights t' = true ∧ distinct_sources t') ∧ True.
Proof. intros. split; [|done]. by eapply distinct_merge. Qed.

Lemma built_inv cv gen compact xs t :
  built cv gen compact xs = Some t →
  wf t ∧ coarse_only t ∧ tagged t ∧
  _coarseVertCount t = cv ∧ _compactWeights t = compact.
Proof.
  intros Hb.
  destruct (lift_built tagged others_kept others_kept_refl others_kept_trans
              tagged_step cv gen compact xs t) as (Hwf & Hco & Ht);
    [intros t0 Hn; by destruct (WeightTable_new_tagged _ _ _ _ Hn)|done|].
  unfold built in Hb. apply bind_Some in Hb as (t0 & Hn & Hw).
  destruct (WeightTable_new_wf _ _ _ _ Hn) as (Hwf0 & Hco0 & Hcv & Hcp).
  destruct (do_writes_post _ _ _ Hwf0 Hco0 Hw) as (_ & _ & He & _).
  split; [done|]. split; [done|]. split; [done|]. split.
  - by rewrite (ext_coarse _ _ He).
  - by rewrite (ext_compact _ _ He).
Qed.

Lemma do_writes_kept xs t t' d :
  wf t → coarse_only t → tagged t → do_writes xs t = Some t' →
  d ∉ map write_dest xs → stencil_kept d t t'.
Proof.
  revert t. induction xs as [|x xs IH]; intros t Hwf Hco Ht Hw Hd;
    simpl in Hw.
  { injection Hw as <-. apply stencil_kept_refl. }
  apply bind_Some in Hw as (t1 & Hx & Hw).
  simpl in Hd. apply not_elem_of_cons in Hd as [Hne Hd].
  destruct (lift_do_write tagged others_kept others_kept_refl
              others_kept_trans tagged_step _ _ _ Hwf Hco Ht Hx) as [Ht1 Hk1].
  destruct (do_write_post _ _ _ Hwf Hco Hx) as [(Hwf1 & Hco1 & _) _].
  eapply stencil_kept_trans; [by apply Hk1|by eapply IH].
Qed.

End Reachable.

(** X1.  Every stencil recorded in a table built through the facade can be
    read safely: its range [offset, offset + size) lies inside the flat
    storage, and every entry of the range holds a source that is a coarse
    vertex, a weight, and the destination tag of that very stencil. *)
Theorem stencil_ranges_sound {F : Type} `{FloatOps F} cv gen compact
    (xs : list (write F)) (t : WeightTable F) :
  built cv gen compact xs = Some t →
  ∀ d o k, vget (_indices t) d = Some o → vget (_sizes t) d = Some k →
    0 ≤ o ∧ 0 ≤ k ∧ o + k ≤ GetNumVerticesTotal t ∧
    ∀ i, o ≤ i < o + k →
      vget (_dests t) i = Some d ∧
      ∃ s w, vget (_sources t) i = Some s ∧ s < cv ∧
             vget (_weights t) i = Some w.
Proof.
  intros Hb d o k Ho Hk.
  destruct (built_inv _ _ _ _ _ Hb) as ([Hs Hw] & Hco & Ht & Hcv & _).
  pose proof (wf_range _ Hs _ _ _ Ho Hk) as (Ho0 & Hk0 & Hr).
  unfold GetNumVerticesTotal. rewrite Hw.
  split; [done|]. split; [done|]. split; [done|]. intros i Hi.
  split; [by eapply Ht|].
  destruct (vget_is_Some (_sources t) i) as [s Hsi]; [lia|].
  destruct (vget_is_Some (_weights t) i) as [w Hwi]; [lia|].
  exists s, w. split; [done|]. split; [|done].
  rewrite <- Hcv. apply Hco. apply elem_of_vget. by exists i.
Qed.

Lemma stencil_ranges_sound_witness :
  built 3 true true example_writes = Some example_table ∧
  ∀ d o k, vget (_indices example_table) d = Some o →
    vget (_sizes example_table) d = Some k →
    0 ≤ o ∧ 0 ≤ k ∧ o + k ≤ GetNumVerticesTotal example_table ∧
    ∀ i, o ≤ i < o + k →
      vget (_dests example_table) i = Some d ∧
      ∃ s w, vget (_sources example_table) i = Some s ∧ s < 3 ∧
             vget (_weights example_table) i = Some w.
Proof.
  assert (built 3 true true example_writes = Some example_table) as Hb
    by (vm_compute; reflexivity).
  split; [exact Hb|].
  exact (stencil_ranges_sound 3 true true example_writes example_table Hb).
Defined.

(** X2.  In every table built through the facade, the cursor [_lastOffset]
    is the offset recorded for the destination written last, and the size
    recorded for that destination is the number of entries from the cursor to
    the end of the storage: the open stencil is the tail of the storage. *)
Theorem open_stencil_is_tail {F : Type} `{FloatOps F} cv gen compact
    (xs : list (write F)) (t : WeightTable F) (d : Z) :
  built cv gen compact xs = Some t → vback (_dests t) = Some d →
  vget (_indices t) d = Some (_lastOffset t) ∧
  vget (_sizes t) d = Some (GetNumVerticesTotal t - _lastOffset t) ∧
  0 ≤ _lastOffset t < GetNumVerticesTotal t ∧
  ∀ i, _lastOffset t ≤ i < GetNumVerticesTotal t →
    vget (_dests t) i = Some d.
Proof.
  intros Hb Hd.
  destruct (built_inv _ _ _ _ _ Hb) as ([Hs Hw] & _ & Ht & _).
  destruct (wf_cur _ Hs _ Hd) as [Ho Hk].
  unfold GetNumVerticesTotal. rewrite Hw.
  split; [done|]. split; [done|].
  assert (Hne : _dests t ≠ []) by (by intros E; rewrite E in Hd).
  pose proof (wf_last _ Hs Hne) as Hl. rewrite (wf_dests _ Hs) in Hl.
  split; [done|]. intros i Hi. apply (Ht _ _ _ _ Ho Hk). lia.
Qed.

Lemma open_stencil_is_tail_witness :
  vget (_indices example_table) 5 = Some (_lastOffset example_table) ∧
  vget (_sizes example_table) 5
    = Some (GetNumVerticesTotal example_table - _lastOffset example_table) ∧
  0 ≤ _lastOffset example_table < GetNumVerticesTotal example_table ∧
  ∀ i, _lastOffset example_table ≤ i < GetNumVerticesTotal example_table →
    vget (_dests example_table) i = Some 5.
Proof.
  apply (open_stencil_is_tail 3 true true example_writes).
  - vm_compute. reflexivity.
  - reflexivity.
Defined.

(** X3.  With compaction enabled, no stencil of a table built through the
    facade lists a source twice, whatever the order of the writes. *)
Theorem compacted_sources_distinct {F : Type} `{FloatOps F} cv gen
    (xs : list (write F)) (t : WeightTable F) :
  built cv gen true xs = Some t →
  ∀ d o k i j s, vget (_indices t) d = Some o → vget (_sizes t) d = Some k →
    o ≤ i < o + k → o ≤ j < o + k →
    vget (_sources t) i = Some s → vget (_sources t) j = Some s → i = j.
Proof.
  intros Hb.
  destruct (lift_built (fun t => _compactWeights t = true ∧ distinct_sources t)
              (fun _ _ _ => True) (fun _ _ => I) (fun _ _ _ _ _ _ => I)
              distinct_step cv gen true xs t) as (_ & _ & _ & Hd); [|done|done].
  intros t0 Hn. split.
  - by destruct (WeightTable_new_wf _ _ _ _ Hn) as (_ & _ & _ & ->).
  - by destruct (WeightTable_new_tagged _ _ _ _ Hn).
Qed.

Lemma compacted_sources_distinct_witness :
  built 3 true true example_writes = Some example_table ∧
  ∀ d o k i j s, vget (_indices example_table) d = Some o →
    vget (_sizes example_table) d = Some k →
    o ≤ i < o + k → o ≤ j < o + k →
    vget (_sources example_table) i = Some s →
    vget (_sources example_table) j = Some s → i = j.
Proof.
  assert (built 3 true true example_writes = Some example_table) as Hb
    by (vm_compute; reflexivity).
  split; [exact Hb|].
  exact (compacted_sources_distinct 3 true example_writes example_table Hb).
Defined.

(** X4.  Writes leave the stencils of other destinations alone: after any
    further sequence of facade writes, the stencil of a destination that none
    of them targets has the same offset and size, and the same source and
    weights in every entry. *)
Theorem untouched_stencils_kept {F : Type} `{FloatOps F} cv gen compact
    (xs ys : list (write F)) (t t' : WeightTable F) (d : Z) :
  built cv gen compact xs = Some t → do_writes ys t = Some t' →
  d ∉ map write_dest ys →
  ∀ o k, vget (_indices t) d = Some o → vget (_sizes t) d = Some k →
    vget (_indices t') d = Some o ∧ vget (_sizes t') d = Some k ∧
    ∀ i, o ≤ i < o + k →
      vget (_sources t') i = vget (_sources t) i ∧
      vget (_weights t') i = vget (_weights t) i ∧
      (∀ x, vget (_duWeights t) i = Some x →
            vget (_duWeights t') i = Some x) ∧
      (∀ x, vget (_dvWeights t) i = Some x →
            vget (_dvWeights t') i = Some x).
Proof.
  intros Hb Hw Hd.
  destruct (built_inv _ _ _ _ _ Hb) as (Hwf & Hco & Ht & _).
  exact (do_writes_kept _ _ _ _ Hwf Hco Ht Hw Hd).
Qed.

Lemma untouched_stencils_kept_witness :
  built 3 true true (take 3 example_writes) = Some example_prefix_table ∧
  do_writes (drop 3 example_writes) example_prefix_table
    = Some example_table ∧
  (4 ∉ map write_dest (drop 3 example_writes)) ∧
  ∀ o k, vget (_indices example_prefix_table) 4 = Some o →
    vget (_sizes example_prefix_table) 4 = Some k →
    vget (_indices example_table) 4 = Some o ∧
    vget (_sizes example_table) 4 = Some k ∧
    ∀ i, o ≤ i < o + k →
      vget (_sources example_table) i = vget (_sources example_prefix_table) i ∧
      vget (_weights example_table) i = vget (_weights example_prefix_table) i ∧
      (∀ x, vget (_duWeights example_prefix_table) i = Some x →
            vget (_duWeights example_table) i = Some x) ∧
      (∀ x, vget (_dvWeights example_prefix_table) i = Some x →
            vget (_dvWeights example_table) i = Some x).
Proof.
  assert (built 3 true true (take 3 example_writes)
            = Some example_prefix_table) as Hb by (vm_compute; reflexivity).
  assert (do_writes (drop 3 example_writes) example_prefix_table
            = Some example_table) as Hw by (vm_compute; reflexivity).
  assert (4 ∉ map write_dest (drop 3 example_writes)) as Hd.
  { simpl. intros Hin. repeat (apply elem_of_cons in Hin as [Hin|Hin];
      [discriminate|]). by apply elem_of_nil in Hin. }
  split; [exact Hb|]. split; [exact Hw|]. split; [exact Hd|].
  exact (untouched_stencils_kept 3 true true (take 3 example_writes)
           (drop 3 example_writes) example_prefix_table example_table 4
           Hb Hw Hd).
Defined.

Section AppendOnly.
Context {F : Type} `{FloatOps F}.
Implicit Types (t : WeightTable F) (x : write F) (xs : list (write F)).

Lemma flat_weights_step (t0 : WeightTable F) :
  ∀ (W : Type) `{!Payload W} (acc : Accumulator F W)
    `{!AccLaws acc} `{!AccFrame acc} src dst (w f : W) t t',
    wf t →
    _compactWeights t = false ∧ _weights t0 `prefix_of` _weights t →
    merge src dst w f (_lastOffset t) (_size t) acc t = Some t' →
    (_compactWeights t' = false ∧ _weights t0 `prefix_of` _weights t') ∧ True.
Proof.
  intros W PW acc AL AF src dst w f t t' [Hs _] [Hc Hp] Hm.
  split; [|done].
  pose proof (ext_compact _ _ (extends_merge acc _ _ _ _ _ _ _ _ Hs Hm)) as Ec.
  split; [congruence|].
  destruct (merge_did acc _ _ _ _ _ _ Hs Hm)
    as [(i & Hc' & _)|(Hd & -> & _)]; [congruence|].
  etrans; [exact Hp|].
  destruct (add_table_weights src dst t) as (Aw & _).
  rewrite <- Aw. apply PushBack_prefix.
Qed.

End AppendOnly.

(** X5.  Facade writes only ever append to the flat storage: the sources and
    destination tags stored before a sequence of writes are a prefix of those
    stored after it, so the total entry count never decreases; without
    compaction the stored weights are a prefix too, that is, no stored weight
    is ever modified. *)
Theorem writes_append_only {F : Type} `{FloatOps F} cv gen compact
    (xs ys : list (write F)) (t t' : WeightTable F) :
  built cv gen compact xs = Some t → do_writes ys t = Some t' →
  _sources t `prefix_of` _sources t' ∧ _dests t `prefix_of` _dests t' ∧
  GetNumVerticesTotal t ≤ GetNumVerticesTotal t' ∧
  (compact = false → _weights t `prefix_of` _weights t').
Proof.
  intros Hb Hw.
  destruct (built_inv _ _ _ _ _ Hb) as (Hwf & Hco & _ & _ & Hcp).
  destruct (do_writes_post _ _ _ Hwf Hco Hw) as (Hwf' & _ & He & _).
  split; [apply (ext_sources _ _ He)|]. split; [apply (ext_dests _ _ He)|].
  split.
  - unfold GetNumVerticesTotal. rewrite (proj2 Hwf), (proj2 Hwf').
    by apply extends_vsize_sources.
  - intros ->.
    apply (lift_do_writes
             (fun t1 => _compactWeights t1 = false ∧
                        _weights t `prefix_of` _weights t1)
             (fun _ _ _ => True) (fun _ _ => I) (fun _ _ _ _ _ _ => I)
             (flat_weights_step t) ys t t' Hwf Hco); [|done].
    by split.
Qed.

Lemma writes_append_only_witness :
  _sources flat_prefix_table `prefix_of` _sources flat_table ∧
  _dests flat_prefix_table `prefix_of` _dests flat_table ∧
  GetNumVerticesTotal flat_prefix_table ≤ GetNumVerticesTotal flat_table ∧
  (false = false → _weights flat_prefix_table `prefix_of` _weights flat_table).
Proof.
  apply (writes_append_only 3 true false (take 3 example_writes)
           (drop 3 example_writes)).
  - vm_compute. reflexivity.
  - vm_compute. reflexivity.
Defined.

(** X6.  On a table whose [_sizes] is not empty (and holds at most 2^64
    slots), [GetNumVertsInStencil] returns the recorded size of a stencil
    index in range and 0 for every index beyond the last slot; it never reads
    out of bounds. *)
Theorem GetNumVertsInStencil_nonempty {F : Type} `{FloatOps F}
    (t : WeightTable F) (i : Z) :
  _sizes t ≠ [] → vsize (_sizes t) ≤ 2 ^ 64 → 0 ≤ i →
  ∃ n, GetNumVertsInStencil i t = Some n ∧
       (i < vsize (_sizes t) → vget (_sizes t) i = Some n) ∧
       (vsize (_sizes t) ≤ i → n = 0).
Proof.
  intros Hne Hmax Hi.
  assert (Hpos : 1 ≤ vsize (_sizes t)).
  { unfold vsize. destruct (_sizes t); [done|]. simpl. lia. }
  unfold GetNumVertsInStencil, size_t_wrap.
  rewrite Z.mod_small by lia.
  case_decide as Hc.
  - exists 0. split; [done|]. split; [lia|done].
  - destruct (vget_is_Some (_sizes t) i) as [n Hn]; [lia|].
    exists n. split; [done|]. split; [done|lia].
Qed.

Lemma GetNumVertsInStencil_nonempty_witness :
  ∃ n, GetNumVertsInStencil 4 example_table = Some n ∧
       (4 < vsize (_sizes example_table) →
        vget (_sizes example_table) 4 = Some n) ∧
       (vsize (_sizes example_table) ≤ 4 → n = 0).
Proof.
  apply (GetNumVertsInStencil_nonempty example_table 4).
  - discriminate.
  - vm_compute. discriminate.
  - lia.
Defined.

Section Definedness.
Context {F : Type} `{FloatOps F}.
Implicit Types (t : WeightTable F).

Lemma vback_nonneg t d : shape_ok t → vback (_dests t) = Some d → 0 ≤ d.
Proof.
  intros Hs Hb. apply last_Some_elem_of in Hb.
  by destruct (wf_dest_range _ Hs _ Hb).
Qed.

(** The engine call behind [Index::AddWithWeight(Index const&, float)] is
    defined exactly when the source is a coarse vertex or owns a slot, and
    the destination id is not negative unless nothing is contributed. *)
Lemma engine_call_defined src dest (w : F) t :
  wf t → coarse_only t →
  is_Some (AddWithWeight src dest w ScalarAccumulator t) ↔
  (src < _coarseVertCount t ∧ 0 ≤ dest) ∨
  (_coarseVertCount t ≤ src ∧
   ∃ k, vget (_sizes t) src = Some k ∧ (k = 0 ∨ 0 ≤ dest)).
Proof.
  intros Hwf Hco. pose proof (wf_acc_len _ Hwf) as Hlen. split.
  - intros [t' Ha]. unfold AddWithWeight in Ha. case_bool_decide as Hlt.
    + left. split; [done|].
      pose proof (merge_vback ScalarAccumulator _ _ _ _ _ _ (proj1 Hwf) Ha).
      pose proof (wf_merge ScalarAccumulator _ _ _ _ _ _ _ _ Hwf Ha) as Hwf'.
      by eapply vback_nonneg; [apply Hwf'|].
    + right. split; [lia|].
      apply bind_Some in Ha as (k & Hk & Ha).
      apply bind_Some in Ha as (o & Ho & Ha).
      exists k. split; [done|].
      destruct (decide (k = 0)) as [|Hk0]; [by left|right].
      pose proof (wf_range _ (proj1 Hwf) _ _ _ Ho Hk) as Hr.
      destruct (resolve_loop_inv ScalarAccumulator _ _ _ _ _ _ Hwf Hco Ha)
        as (Hwf' & _).
      assert (Hpos : (0 < Z.to_nat k)%nat) by lia.
      pose proof (resolve_loop_vback ScalarAccumulator _ _ _ _ _ _ Hwf Hco
                    Hpos Ha).
      by eapply vback_nonneg; [apply Hwf'|].
  - intros [[Hlt Hd]|(Hge & k & Hk & Hkd)].
    + apply (AddWithWeight_is_Some ScalarAccumulator); auto.
    + pose proof (vget_range _ _ _ Hk) as Hr. destruct Hkd as [->|Hd].
      * unfold AddWithWeight. rewrite bool_decide_eq_false_2 by lia.
        rewrite Hk. simpl.
        destruct (vget_is_Some (_indices t) src) as [o ->];
          [by rewrite <- (wf_sizes _ (proj1 Hwf))|].
        simpl. by eexists.
      * apply (AddWithWeight_is_Some ScalarAccumulator); auto.
Qed.

End Definedness.

(** X7.  When [Index::AddWithWeight(Index const&, float)] has a defined
    result.  On a table built through the facade, a call with a weight that
    is not 0 is defined exactly when the source is a coarse vertex and the
    destination id is not negative, or the source owns a stencil slot (its id
    is below [GetSizes().size()]) and either that stencil is empty or the
    destination id is not negative.  In particular a source id beyond the
    slots reads out of bounds, and so does a negative destination id that
    receives an entry. *)
Theorem Index_AddWithWeight_defined {F : Type} `{FloatOps F} cv gen compact
    (xs : list (write F)) (t : WeightTable F) (dest src : Z) (w : F) :
  built cv gen compact xs = Some t → feq w f0 = false →
  is_Some (Index_AddWithWeight dest src w t) ↔
  (src < cv ∧ 0 ≤ dest) ∨
  (cv ≤ src ∧ ∃ k, vget (_sizes t) src = Some k ∧ (k = 0 ∨ 0 ≤ dest)).
Proof.
  intros Hb Hw.
  destruct (built_inv _ _ _ _ _ Hb) as (Hwf & Hco & _ & <- & _).
  unfold Index_AddWithWeight. rewrite Hw.
  by apply engine_call_defined.
Qed.

Lemma Index_AddWithWeight_defined_witness :
  is_Some (Index_AddWithWeight 6 4 b32_half example_table) ↔
  (4 < 3 ∧ 0 ≤ 6) ∨
  (3 ≤ 4 ∧ ∃ k, vget (_sizes example_table) 4 = Some k ∧ (k = 0 ∨ 0 ≤ 6)).
Proof.
  apply (Index_AddWithWeight_defined 3 true true example_writes).
  - vm_compute. reflexivity.
  - reflexivity.
Defined.

(** X8.  Contributing a vertex that was never a destination contributes
    nothing.  On a table built through the facade, if [id] is not a coarse
    vertex, was the destination of no write, and lies below
    [GetSizes().size()], then [Index::AddWithWeight] with the source [id]
    leaves the table unchanged, whatever the destination and the weight. *)
Theorem skipped_source_adds_nothing {F : Type} `{FloatOps F} cv gen compact
    (xs : list (write F)) (t : WeightTable F) (dest id : Z) (w : F) :
  built cv gen compact xs = Some t → id ∉ map write_dest xs →
  cv ≤ id < vsize (_sizes t) →
  Index_AddWithWeight dest id w t = Some t.
Proof.
  intros Hb Hid [Hge Hlt]. unfold built in Hb.
  apply bind_Some in Hb as (t0 & Hn & Hw).
  destruct (WeightTable_new_wf _ _ _ _ Hn) as (Hwf0 & Hco0 & Hcv & _).
  pose proof (WeightTable_new_nonneg _ _ _ _ Hn) as Hcv0.
  destruct (do_writes_post _ _ _ Hwf0 Hco0 Hw) as (Hwf & _ & He & _ & Hslots).
  assert (Hz0 : vget (_sizes t0) id = None).
  { apply vget_None. destruct gen.
    - destruct (WeightTable_new_ctrl (F:=F) cv compact Hcv0)
        as (t1 & Hn1 & (_ & Lz & _) & _).
      rewrite Hn in Hn1. injection Hn1 as <-. lia.
    - rewrite WeightTable_new_plain in Hn by done. injection Hn as <-.
      unfold vsize. simpl. lia. }
  destruct (vget_is_Some (_sizes t) id) as [k Hk]; [lia|].
  destruct (proj1 (Hslots id k Hid) Hk) as [->|Hold]; [|congruence].
  unfold Index_AddWithWeight. destruct (feq w f0); [done|].
  unfold AddWithWeight.
  rewrite bool_decide_eq_false_2 by (rewrite (ext_coarse _ _ He); lia).
  rewrite Hk. simpl.
  destruct (vget_is_Some (_indices t) id) as [o ->];
    [rewrite <- (wf_sizes _ (proj1 Hwf)); lia|].
  done.
Qed.

Lemma skipped_source_adds_nothing_witness :
  Index_AddWithWeight 5 2 b32_half sparse_table = Some sparse_table.
Proof.
  apply (skipped_source_adds_nothing 2 false true sparse_writes).
  - vm_compute. reflexivity.
  - unfold sparse_writes. simpl. intros Hin.
    apply elem_of_cons in Hin as [Hin|Hin]; [discriminate|].
    by apply elem_of_nil in Hin.
  - unfold sparse_table, vsize. simpl. lia.
Defined.

(** ** Contributions without compaction *)

Section Uncompacted.
Context {F : Type} `{FloatOps F}.
Implicit Types (t : WeightTable F).

Lemma take_drop_snoc {A} (l : list A) (i n : nat) (x y : A) :
  l !! i = Some x →
  (i + S n ≤ length l)%nat →
  (l ++ [y]) ++ take n (drop (S i) (l ++ [y])) = l ++ (y :: take n (drop (S i) l)).
Proof.
  intros Hx Hn. rewrite drop_app_le by lia.
  rewrite take_app_le by (rewrite length_drop; lia).
  by rewrite <- app_assoc.
Qed.

(** Without compaction the loop over the stencil of a source appends a
    copy of that stencil, every weight multiplied by the weight of the
    call. *)
Lemma resolve_loop_flat n i dest (w : F) t :
  wf t → coarse_only t → _compactWeights t = false → 0 ≤ dest →
  0 ≤ i → i + Z.of_nat n ≤ vsize (_sources t) →
  ∃ t', resolve_loop n i dest w ScalarAccumulator t = Some t' ∧
    wf t' ∧
    _sources t' = _sources t ++ take n (drop (Z.to_nat i) (_sources t)) ∧
    _weights t' = _weights t ++
      map (fun x => fmul x w) (take n (drop (Z.to_nat i) (_weights t))) ∧
    _dests t' = _dests t ++ replicate n dest ∧
    ((0 < n)%nat → vback (_dests t') = Some dest ∧
                   _lastOffset t' = open_start t dest).
Proof.
  revert i t. induction n as [|n IH]; intros i t Hwf Hco Hc Hd Hi Hn.
  { exists t. simpl. rewrite !app_nil_r. do 5 (split; [done|]). lia. }
  destruct Hwf as [Hs Hw].
  destruct (vget_is_Some (_sources t) i) as [s Hsi]; [lia|].
  destruct (vget_is_Some (_weights t) i) as [w0 Hwi]; [lia|].
  assert (Hlt : s < _coarseVertCount t).
  { apply Hco. apply elem_of_vget. by exists i. }
  pose proof (merge_fresh ScalarAccumulator s dest w0 w t Hs Hd
                ltac:(congruence)) as Hm.
  destruct (pushed_table ScalarAccumulator s dest (w_mul w0 w) t Hs Hd)
    as (Hs1 & Hsrc & Hdst & Hlo & Hback & Hcp & Hcv & _).
  set (t1 := PushBack ScalarAccumulator (w_mul w0 w) (add_table s dest t)) in *.
  assert (Hw1 : _weights t1 = _weights t ++ [fmul w0 w]).
  { unfold t1. rewrite PushBack_scalar. simpl.
    by rewrite (proj1 (add_table_weights s dest t)). }
  assert (Hwf1 : wf t1).
  { split; [done|]. rewrite Hw1, Hsrc. unfold vsize in *.
    rewrite !length_app. simpl. lia. }
  assert (Hco1 : coarse_only t1).
  { intros s' Hs'. rewrite Hsrc in Hs'. rewrite Hcv.
    apply elem_of_app in Hs' as [Hs'|Hs']; [by apply Hco|].
    apply list_elem_of_singleton in Hs'. by subst. }
  destruct (IH (i + 1) t1 Hwf1 Hco1 ltac:(congruence) Hd ltac:(lia))
    as (t' & Hr & Hwf' & Es & Ew & Ed & Hb).
  { rewrite Hsrc. unfold vsize in *. rewrite length_app. simpl. lia. }
  exists t'. simpl. rewrite Hsi. simpl.
  rewrite bool_decide_eq_true_2 by done.
  change (Get ScalarAccumulator i t) with (vget (_weights t) i).
  rewrite Hwi. simpl. rewrite Hm. simpl.
  split; [done|]. split; [done|].
  apply vget_Some in Hsi as [_ Hsi]. apply vget_Some in Hwi as [_ Hwi].
  replace (Z.to_nat (i + 1)) with (S (Z.to_nat i)) in Es, Ew by lia.
  rewrite (drop_S _ _ _ Hsi), (drop_S _ _ _ Hwi). simpl.
  split; [|split; [|split]].
  - rewrite Es, Hsrc. apply (take_drop_snoc _ _ _ s); [done|].
    unfold vsize in Hn. lia.
  - rewrite Ew, Hw1. unfold vsize in Hn, Hw.
    rewrite drop_app_le by lia.
    rewrite take_app_le by (rewrite length_drop; lia).
    by rewrite <- app_assoc.
  - rewrite Ed, Hdst. by rewrite <- app_assoc.
  - intros _. destruct n as [|n].
    + simpl in Hr. injection Hr as <-. by split.
    + destruct (Hb ltac:(lia)) as [Hb1 Hb2]. split; [done|].
      rewrite Hb2. unfold open_start. by rewrite decide_True.
Qed.
End Uncompacted.

(** X9.  Without compaction, contributing a refined vertex appends a scaled
    copy of its stencil.  On a table built through the facade with
    compaction off, [Index::AddWithWeight] with a weight [w] that is not 0
    and a source whose recorded stencil is [offset o, size k] appends to the
    flat storage the [k] sources of that stencil in order, their weights
    each multiplied by [w] (stored weight on the left), and [k] tags of the
    destination; the total grows by [k] and the stencil of the destination
    reaches from where it was open to the end of the storage. *)
Theorem uncompacted_contribution {F : Type} `{FloatOps F} cv gen
    (xs : list (write F)) (t : WeightTable F) (dest src : Z) (w : F)
    (o k : Z) :
  built cv gen false xs = Some t → feq w f0 = false →
  cv ≤ src → 0 ≤ dest →
  vget (_indices t) src = Some o → vget (_sizes t) src = Some k →
  ∃ t', Index_AddWithWeight dest src w t = Some t' ∧
    _sources t' =
      _sources t ++ take (Z.to_nat k) (drop (Z.to_nat o) (_sources t)) ∧
    _weights t' =
      _weights t ++ map (fun x => fmul x w)
                        (take (Z.to_nat k) (drop (Z.to_nat o) (_weights t))) ∧
    _dests t' = _dests t ++ replicate (Z.to_nat k) dest ∧
    GetNumVerticesTotal t' = GetNumVerticesTotal t + k ∧
    (0 < k →
     vget (_indices t') dest = Some (open_start t dest) ∧
     vget (_sizes t') dest
       = Some (GetNumVerticesTotal t' - open_start t dest)).
Proof.
  intros Hb Hw Hsrc Hd Ho Hk.
  destruct (built_inv _ _ _ _ _ Hb) as (Hwf & Hco & _ & Hcv & Hcp).
  pose proof (wf_range _ (proj1 Hwf) _ _ _ Ho Hk) as (Ho0 & Hk0 & Hr).
  destruct (resolve_loop_flat (Z.to_nat k) o dest w t Hwf Hco Hcp Hd Ho0)
    as (t' & Hl & Hwf' & Es & Ew & Ed & Hb'); [lia|].
  exists t'. unfold Index_AddWithWeight. rewrite Hw.
  unfold AddWithWeight. rewrite bool_decide_eq_false_2 by lia.
  rewrite Hk, Ho. simpl. split; [done|]. split; [done|]. split; [done|].
  split; [done|].
  assert (Ht : GetNumVerticesTotal t' = GetNumVerticesTotal t + k).
  { unfold GetNumVerticesTotal, vsize. rewrite Ew.
    rewrite length_app, length_map, length_take, length_drop.
    pose proof (proj2 Hwf) as Hlw. unfold vsize in Hlw, Hr. lia. }
  split; [done|]. intros Hpos.
  destruct (Hb' ltac:(lia)) as [Hback Hlo].
  destruct (wf_cur _ (proj1 Hwf') _ Hback) as [Hix Hsz].
  rewrite Hlo in Hix, Hsz. split; [done|].
  rewrite Hsz. unfold GetNumVerticesTotal. by rewrite (proj2 Hwf').
Qed.

Lemma uncompacted_contribution_witness :
  ∃ t', Index_AddWithWeight 5 4 b32_half flat_mid_table = Some t' ∧
    _sources t' =
      _sources flat_mid_table ++
      take (Z.to_nat 2) (drop (Z.to_nat 4) (_sources flat_mid_table)) ∧
    _weights t' =
      _weights flat_mid_table ++
      map (fun x => fmul x b32_half)
          (take (Z.to_nat 2) (drop (Z.to_nat 4) (_weights flat_mid_table))) ∧
    _dests t' = _dests flat_mid_table ++ replicate (Z.to_nat 2) 5 ∧
    GetNumVerticesTotal t' = GetNumVerticesTotal flat_mid_table + 2 ∧
    (0 < 2 →
     vget (_indices t') 5 = Some (open_start flat_mid_table 5) ∧
     vget (_sizes t') 5
       = Some (GetNumVerticesTotal t' - open_start flat_mid_table 5)).
Proof.
  apply (uncompacted_contribution 3 true (take 4 example_writes)).
  - vm_compute. reflexivity.
  - reflexivity.
  - lia.
  - lia.
  - reflexivity.
  - reflexivity.
Defined.

(** ** A facade call with an external stencil as a sequence of calls *)

Section StencilCalls.
Context {F : Type} `{FloatOps F}.
Implicit Types (t : WeightTable F).

Lemma stencil_loop_calls n i dest (st : Stencil F) (w : F) t :
  0 ≤ i → i + Z.of_nat n ≤ vsize (GetVertexIndices st) →
  i + Z.of_nat n ≤ vsize (GetWeights st) →
  stencil_loop n i dest st w t =
  run_calls (stencil_calls dest w
               (take n (drop (Z.to_nat i) (GetVertexIndices st)))
               (take n (drop (Z.to_nat i) (GetWeights st)))) t.
Proof.
  revert i t. induction n as [|n IH]; intros i t Hi Hx Hw; [done|].
  destruct (vget_is_Some (GetVertexIndices st) i) as [ix Hix]; [lia|].
  destruct (vget_is_Some (GetWeights st) i) as [w0 Hw0]; [lia|].
  simpl. rewrite Hw0, Hix. simpl.
  apply vget_Some in Hix as [_ Hix]. apply vget_Some in Hw0 as [_ Hw0].
  rewrite (drop_S _ _ _ Hix), (drop_S _ _ _ Hw0). simpl.
  replace (S (Z.to_nat i)) with (Z.to_nat (i + 1)) by lia.
  destruct (feq w0 f0).
  - apply IH; lia.
  - simpl. unfold run_call at 1. simpl.
    destruct (AddWithWeight ix dest (fmul w w0) ScalarAccumulator t)
      as [t1|]; [|done].
    simpl. apply IH; lia.
Qed.

End StencilCalls.

(** X10.  [Index::AddWithWeight(Stencil const&, float)] is a sequence of
    engine calls.  When the external stencil holds at least as many indices
    and weights as its size says and the weight is not 0, the call has the
    same result, defined or not, as issuing one [AddWithWeight] for each of
    the first [size] entries whose weight is not 0, in order, with the weight
    [weight * w_k]; the entries with a zero weight are skipped. *)
Theorem stencil_write_is_calls {F : Type} `{FloatOps F} (dest : Z)
    (st : Stencil F) (w : F) (t : WeightTable F) :
  feq w f0 = false →
  GetSizePtr st ≤ vsize (GetVertexIndices st) →
  GetSizePtr st ≤ vsize (GetWeights st) →
  Index_AddWithWeight_stencil dest st w t =
  run_calls (stencil_calls dest w
               (take (Z.to_nat (GetSizePtr st)) (GetVertexIndices st))
               (take (Z.to_nat (GetSizePtr st)) (GetWeights st))) t.
Proof.
  intros Hw Hx Hws. unfold Index_AddWithWeight_stencil. rewrite Hw.
  pose proof (vsize_nonneg (GetVertexIndices st)).
  pose proof (vsize_nonneg (GetWeights st)).
  by rewrite (stencil_loop_calls _ 0) by lia.
Qed.

Lemma stencil_write_is_calls_witness :
  Index_AddWithWeight_stencil 3 gap_stencil b32_one ctrl2 =
  run_calls (stencil_calls 3 b32_one
               (take (Z.to_nat (GetSizePtr gap_stencil))
                     (GetVertexIndices gap_stencil))
               (take (Z.to_nat (GetSizePtr gap_stencil))
                     (GetWeights gap_stencil))) ctrl2.
Proof.
  apply (stencil_write_is_calls 3 gap_stencil b32_one ctrl2).
  - reflexivity.
  - vm_compute. discriminate.
  - vm_compute. discriminate.
Defined.

(** ** The derivative-aware interface seen through the scalar one *)

Section ScalarView.
Context {F : Type} `{FloatOps F} {W : Type} `{!Payload W}.
Context (acc : Accumulator F W) (π : W → F).
Implicit Types (t : WeightTable F) (a : W).

Hypothesis view_PushBack : ∀ a t,
  scalar_view (PushBack acc a t) = PushBack ScalarAccumulator (π a) (scalar_view t).
Hypothesis view_Add : ∀ i a t t', Add acc i a t = Some t' →
  Add ScalarAccumulator i (π a) (scalar_view t) = Some (scalar_view t').
Hypothesis view_Get : ∀ i t g, Get acc i t = Some g →
  Get ScalarAccumulator i (scalar_view t) = Some (π g).
Hypothesis view_mul : ∀ a b, π (w_mul a b) = fmul (π a) (π b).
Hypothesis view_one : π w_one = f1.

Ltac view_simpl := cbn -[vget vset vback vpush vresize vsize PushBack] in *.
Ltac view_bind Ha :=
  let x := fresh "x" in let Hx := fresh "Hx" in
  apply bind_Some in Ha as (x & Hx & Ha); view_simpl; rewrite Hx; view_simpl.

Lemma add_view src dst a t td :
  add src dst a acc t = Some td →
  add src dst (π a) ScalarAccumulator (scalar_view t) = Some (scalar_view td).
Proof.
  unfold add. view_simpl. intros Ha.
  destruct (bool_decide (_dests t = [])
            || bool_decide (vback (_dests t) ≠ Some dst)).
  - apply bind_Some in Ha as (t1 & Ht1 & Ha).
    destruct (decide (dst + 1 > vsize (_indices t))) as [Hg|Hg];
      view_simpl; view_bind Ht1; view_bind Ht1; injection Ht1 as <-;
      view_simpl; view_bind Ha; view_bind Ha; injection Ha as <-;
      by rewrite view_PushBack.
  - view_simpl. view_bind Ha. view_bind Ha. injection Ha as <-.
    by rewrite view_PushBack.
Qed.

Lemma merge_view src dst a f lo n t td :
  merge src dst a f lo n acc t = Some td →
  merge src dst (π a) (π f) lo n ScalarAccumulator (scalar_view t)
    = Some (scalar_view td).
Proof.
  unfold merge.
  change (merge_guard (scalar_view t) lo dst) with (merge_guard t lo dst).
  change (_sources (scalar_view t)) with (_sources t).
  change (w_mul (π a) (π f)) with (fmul (π a) (π f)). rewrite <- view_mul.
  intros Hm. destruct (merge_guard t lo dst) as [[|]|]; simpl in *;
    [|by apply add_view|done].
  destruct (scan_sources (_sources t) src lo (Z.to_nat (n - lo)))
    as [[i|]|]; simpl in *; [by apply view_Add|by apply add_view|done].
Qed.

Lemma resolve_loop_view n i dest a t td :
  resolve_loop n i dest a acc t = Some td →
  resolve_loop n i dest (π a) ScalarAccumulator (scalar_view t)
    = Some (scalar_view td).
Proof.
  revert i t. induction n as [|n IH]; intros i t Hr; simpl in Hr.
  { by injection Hr as <-. }
  apply bind_Some in Hr as (s & Hs & Hr). case_bool_decide as Hlt; [|done].
  apply bind_Some in Hr as (g & Hg & Hr).
  apply bind_Some in Hr as (t1 & Hm & Hr).
  cbn [resolve_loop]. change (_sources (scalar_view t)) with (_sources t).
  rewrite Hs. cbn [mbind option_bind].
  change (_coarseVertCount (scalar_view t)) with (_coarseVertCount t).
  rewrite bool_decide_eq_true_2 by done.
  rewrite (view_Get _ _ _ Hg). cbn [mbind option_bind].
  change (_lastOffset (scalar_view t)) with (_lastOffset t).
  change (_size (scalar_view t)) with (_size t).
  rewrite (merge_view _ _ _ _ _ _ _ _ Hm). cbn [mbind option_bind].
  by apply IH.
Qed.

Lemma AddWithWeight_view src dest a t td :
  AddWithWeight src dest a acc t = Some td →
  AddWithWeight src dest (π a) ScalarAccumulator (scalar_view t)
    = Some (scalar_view td).
Proof.
  unfold AddWithWeight.
  change (_coarseVertCount (scalar_view t)) with (_coarseVertCount t).
  change (_sizes (scalar_view t)) with (_sizes t).
  change (_indices (scalar_view t)) with (_indices t).
  change (_lastOffset (scalar_view t)) with (_lastOffset t).
  change (_size (scalar_view t)) with (_size t).
  intros Ha. case_bool_decide.
  - change (w_one (W:=F)) with (f1 (F:=F)). rewrite <- view_one.
    by apply merge_view.
  - apply bind_Some in Ha as (len & -> & Ha).
    apply bind_Some in Ha as (start & -> & Ha). simpl.
    by apply resolve_loop_view.
Qed.

End ScalarView.

Section ScalarViewFacade.
Context {F : Type} `{FloatOps F}.
Implicit Types (t : WeightTable F) (x : write F) (xs : list (write F)).

Lemma AddWithWeight_view_deriv src dest (a : PointDerivWeight F) t td :
  AddWithWeight src dest a PointDerivAccumulator t = Some td →
  AddWithWeight src dest (p a) ScalarAccumulator (scalar_view t)
    = Some (scalar_view td).
Proof.
  apply (AddWithWeight_view PointDerivAccumulator p); try done.
  - intros i a' t0 t' Ha. simpl in Ha.
    apply bind_Some in Ha as (w0 & Hw0 & Ha).
    apply bind_Some in Ha as (ws & Hws & Ha).
    apply bind_Some in Ha as (u0 & _ & Ha).
    apply bind_Some in Ha as (us & _ & Ha).
    apply bind_Some in Ha as (v0 & _ & Ha).
    apply bind_Some in Ha as (vs & _ & Ha). injection Ha as <-.
    simpl. rewrite Hw0. simpl. rewrite Hws. done.
  - intros i t0 g Hg. simpl in Hg.
    apply bind_Some in Hg as (w0 & Hw0 & Hg).
    apply bind_Some in Hg as (u0 & _ & Hg).
    apply bind_Some in Hg as (v0 & _ & Hg). injection Hg as <-. done.
Qed.

Lemma AddWithWeight_view_scalar src dest (a : F) t td :
  AddWithWeight src dest a ScalarAccumulator t = Some td →
  AddWithWeight src dest a ScalarAccumulator (scalar_view t)
    = Some (scalar_view td).
Proof.
  apply (AddWithWeight_view ScalarAccumulator (fun v : F => v)); try done.
  intros i a' t0 t' Ha. simpl in Ha.
  apply bind_Some in Ha as (w0 & Hw0 & Ha).
  apply bind_Some in Ha as (ws & Hws & Ha). injection Ha as <-.
  simpl. rewrite Hw0. simpl. rewrite Hws. done.
Qed.

Lemma stencil_loop_view n i dest st (w : F) t td :
  stencil_loop n i dest st w t = Some td →
  stencil_loop n i dest st w (scalar_view t) = Some (scalar_view td).
Proof.
  revert i t. induction n as [|n IH]; intros i t Hl; simpl in Hl.
  { by injection Hl as <-. }
  apply bind_Some in Hl as (w0 & Hw0 & Hl). simpl. rewrite Hw0. simpl.
  destruct (feq w0 f0); [by apply IH|].
  apply bind_Some in Hl as (s & -> & Hl).
  apply bind_Some in Hl as (t1 & Ha & Hl). simpl.
  rewrite (AddWithWeight_view_scalar _ _ _ _ _ Ha). simpl. by apply IH.
Qed.

Lemma stencil_deriv_loop_view n i dest st (w wu wv : F) t td :
  stencil_deriv_loop n i dest st w wu wv t = Some td →
  stencil_loop n i dest st w (scalar_view t) = Some (scalar_view td).
Proof.
  revert i t. induction n as [|n IH]; intros i t Hl; simpl in Hl.
  { by injection Hl as <-. }
  apply bind_Some in Hl as (w0 & Hw0 & Hl). simpl. rewrite Hw0. simpl.
  destruct (feq w0 f0); [by apply IH|].
  apply bind_Some in Hl as (s & -> & Hl).
  apply bind_Some in Hl as (t1 & Ha & Hl). simpl.
  apply AddWithWeight_view_deriv in Ha. simpl in Ha. rewrite Ha.
  simpl. by apply IH.
Qed.

Lemma do_write_view x t td :
  position_nonzero x = true → do_write x t = Some td →
  do_write (scalar_write x) (scalar_view t) = Some (scalar_view td).
Proof.
  intros Hx Hw. destruct x as [dest src w|dest st w|dest st w wu wv];
    simpl in *.
  - unfold Index_AddWithWeight in *. destruct (feq w f0).
    + by injection Hw as <-.
    + by apply AddWithWeight_view_scalar.
  - unfold Index_AddWithWeight_stencil in *. destruct (feq w f0).
    + by injection Hw as <-.
    + by apply stencil_loop_view.
  - unfold Index_AddWithWeight_deriv, Index_AddWithWeight_stencil in *.
    apply negb_true_iff in Hx. rewrite Hx in *. simpl in Hw.
    by eapply stencil_deriv_loop_view.
Qed.

Lemma do_writes_view xs t td :
  forallb position_nonzero xs = true → do_writes xs t = Some td →
  do_writes (map scalar_write xs) (scalar_view t) = Some (scalar_view td).
Proof.
  revert t. induction xs as [|x xs IH]; intros t Hx Hw; simpl in *.
  { by injection Hw as <-. }
  apply andb_prop in Hx as [Hx Hxs].
  apply bind_Some in Hw as (t1 & Hw1 & Hw).
  rewrite (do_write_view _ _ _ Hx Hw1). simpl. by apply IH.
Qed.

End ScalarViewFacade.

(** X11.  The derivative-aware interface computes the position weights of
    the scalar interface.  If a sequence of facade writes in which every
    derivative-aware call has a position weight that is not 0 builds a table,
    then the same sequence with every derivative-aware call replaced by the
    scalar call on the same stencil and weight builds the same table except
    for the two derivative vectors: same sources, destination tags, offsets,
    sizes and position weights. *)
Theorem derivative_build_projects {F : Type} `{FloatOps F} cv gen compact
    (xs : list (write F)) (t : WeightTable F) :
  built cv gen compact xs = Some t → forallb position_nonzero xs = true →
  built cv gen compact (map scalar_write xs) = Some (scalar_view t).
Proof.
  intros Hb Hx. unfold built in *.
  apply bind_Some in Hb as (t0 & Hn & Hw). rewrite Hn. simpl.
  assert (Hv : scalar_view t0 = t0).
  { pose proof (WeightTable_new_nonneg _ _ _ _ Hn) as Hcv. destruct gen.
    - destruct (WeightTable_new_ctrl (F:=F) cv compact Hcv)
        as (t1 & Hn1 & _ & _ & _ & Hu & Hv & _).
      rewrite Hn in Hn1. injection Hn1 as <-.
      unfold scalar_view, with_derivs. rewrite <- Hu at 1.
      rewrite <- Hv at 1. by destruct t0.
    - rewrite WeightTable_new_plain in Hn by done. by injection Hn as <-. }
  rewrite <- Hv at 1. by apply do_writes_view.
Qed.

Lemma derivative_build_projects_witness :
  built 1 true true (map scalar_write deriv_ctrl_writes)
    = Some (scalar_view deriv_ctrl_table).
Proof.
  apply (derivative_build_projects 1 true true deriv_ctrl_writes).
  - vm_compute. reflexivity.
  - reflexivity.
Defined.

(** ** The effect of one contribution on the coefficients *)

Section OneContribution.
Context {F : Type} `{FloatOps F}.
Implicit Types (t : WeightTable F).

(** The stencil of a destination other than [dest] that owns an entry lies
    below the place where the stencil of [dest] is, or would be, open. *)
Lemma tagged_below_open t src dest o k :
  wf t → tagged t → src ∈ _dests t → src ≠ dest →
  vget (_indices t) src = Some o → vget (_sizes t) src = Some k →
  o + k ≤ open_start t dest.
Proof.
  intros [Hs _] Ht Hin Hne Ho Hk.
  pose proof (wf_dest_size _ Hs _ _ Hin Hk) as Hk1.
  pose proof (wf_range _ Hs _ _ _ Ho Hk) as (Ho0 & _ & Hr).
  unfold open_start. case_decide as Hb; [|done].
  destruct (decide (o + k ≤ _lastOffset t)) as [|Hgt]; [done|].
  pose proof (Ht _ _ _ (o + k - 1) Ho Hk ltac:(lia)) as Hd.
  pose proof (wf_open _ Hs (o + k - 1) src ltac:(lia) Hd). congruence.
Qed.

Lemma open_coef_closed t dest c :
  vback (_dests t) ≠ Some dest → open_coef t dest c = f0.
Proof.
  intros Hb. unfold open_coef, open_start. rewrite decide_False by done.
  by rewrite Z.sub_diag.
Qed.

End OneContribution.

(** X12.  One contribution is linear in the coefficients.  In exact
    arithmetic, on any table built through the facade, a call
    [Index::AddWithWeight(src, w)] on the destination [dest] (not negative),
    where [w] is not 0 and [src] is a coarse vertex or another vertex that
    owns stored entries, is defined and adds to the coefficient of every
    coarse vertex [c] in the stencil of [dest] the product of [w] and the
    coefficient of [c] in [src] (1 or 0 when [src] is coarse).  When [dest]
    was not the destination written last, its stencil starts over and holds
    the contribution alone.  This holds with and without compaction and
    whatever the order of the earlier writes. *)
Theorem contribution_is_linear {F : Type} `{FloatOps F} `{!ExactLaws F}
    cv gen compact (xs : list (write F)) (t : WeightTable F)
    (dest src : Z) (w : F) :
  built cv gen compact xs = Some t → feq w f0 = false → 0 ≤ dest →
  src < cv ∨ (src ∈ _dests t ∧ src ≠ dest) →
  ∃ t', Index_AddWithWeight dest src w t = Some t' ∧
    ∀ c, stencil_coef t' dest c =
         fadd (if decide (vback (_dests t) = Some dest)
               then stencil_coef t dest c else f0)
              (fmul (src_coef t src c) w).
Proof.
  intros Hb Hw Hd Hsrc.
  destruct (built_inv _ _ _ _ _ Hb) as (Hwf & Hco & Ht & Hcv & _).
  destruct (AddWithWeight_value src dest w t Hwf Hco Hd)
    as (t' & Ha & Hwf' & _ & _ & _ & Hback & _ & Hval).
  { destruct Hsrc as [Hlt|[Hin Hne]]; [left; by rewrite Hcv|right].
    split; [done|]. intros o k Ho Hk. by eapply tagged_below_open. }
  exists t'. unfold Index_AddWithWeight. rewrite Hw. split; [done|].
  intros c. rewrite (stencil_coef_open _ _ _ Hwf' Hback), Hval.
  f_equal. case_decide as Hopen.
  - by rewrite (stencil_coef_open _ _ _ Hwf Hopen).
  - by apply open_coef_closed.
Qed.

Lemma contribution_is_linear_witness :
  ∃ t', Index_AddWithWeight 5 4 q_half exact_mid_table = Some t' ∧
    ∀ c, stencil_coef t' 5 c =
         fadd (if decide (vback (_dests exact_mid_table) = Some 5)
               then stencil_coef exact_mid_table 5 c else f0)
              (fmul (src_coef exact_mid_table 4 c) q_half).
Proof.
  apply (contribution_is_linear 3 true true exact_writes).
  - vm_compute. reflexivity.
  - vm_compute. reflexivity.
  - lia.
  - right. split; [|lia]. apply elem_of_vget. exists 4.
    vm_compute. reflexivity.
Defined.

(** ** Tables that describe the same stencils *)

Section Unowned.
Context {F : Type} `{FloatOps F}.
Implicit Types (t : WeightTable F).

Lemma unowned_merge {W : Type} `{!Payload W} (acc : Accumulator F W)
    `{!AccLaws acc} src dst (w f : W) t t' :
  wf t → unowned_empty t →
  merge src dst w f (_lastOffset t) (_size t) acc t = Some t' →
  unowned_empty t'.
Proof.
  intros [Hs _] Hu Hm.
  destruct (merge_did acc _ _ _ _ _ _ Hs Hm)
    as [(i & _ & _ & _ & _ & Ha)|(Hd & -> & _)].
  - destruct (Add_shape _ _ _ _ Ha) as (Ed & _ & _ & Ez & _).
    intros d k. rewrite Ed, Ez. apply Hu.
  - destruct (pushed_table acc src dst (w_mul w f) t Hs Hd)
      as (_ & _ & Hdst & _).
    destruct (PushBack_shape (acc:=acc) (w_mul w f) (add_table src dst t))
      as (_ & _ & _ & Ez & _).
    intros d k Hk Hnin. rewrite Ez in Hk. rewrite Hdst in Hnin.
    apply not_elem_of_app in Hnin as [Hnin Hne].
    apply not_elem_of_cons in Hne as [Hne _].
    destruct (add_table_slot src dst t d Hd Hs Hne) as [Hold Hnew].
    destruct (decide (d < vsize (_sizes t))) as [Hlt|Hge].
    + rewrite (proj2 (Hold Hlt)) in Hk. by eapply Hu.
    + apply (Hnew ltac:(lia) _ Hk).
Qed.

Lemma reach_step :
  ∀ (W : Type) `{!Payload W} (acc : Accumulator F W)
    `{!AccLaws acc} `{!AccFrame acc} src dst (w f : W) t t',
    wf t → tagged t ∧ unowned_empty t →
    merge src dst w f (_lastOffset t) (_size t) acc t = Some t' →
    (tagged t' ∧ unowned_empty t') ∧ others_kept dst t t'.
Proof.
  intros W PW acc AL AF src dst w f t t' Hwf [Ht Hu] Hm.
  destruct (others_kept_merge acc _ _ _ _ _ _ Hwf Ht Hm) as [Ht' Hk].
  split; [|done]. split; [done|]. by eapply unowned_merge.
Qed.

Lemma WeightTable_new_reach cv gen compact t :
  WeightTable_new cv gen compact = Some t → reach_inv t.
Proof.
  intros Hn. destruct (WeightTable_new_wf _ _ _ _ Hn) as (Hwf & Hco & _).
  destruct (WeightTable_new_tagged _ _ _ _ Hn) as [Ht _].
  split; [done|]. split; [done|]. split; [done|].
  pose proof (WeightTable_new_nonneg _ _ _ _ Hn) as Hcv. destruct gen.
  - destruct (WeightTable_new_ctrl (F:=F) cv compact Hcv)
      as (t0 & Hn0 & (_ & Lz & _ & _ & _ & Hf) & _).
    rewrite Hn in Hn0. injection Hn0 as <-.
    intros d k Hk Hnin. pose proof (vget_range _ _ _ Hk) as Hd.
    rewrite Lz in Hd. destruct (Hf d Hd) as (_ & _ & Ed & _).
    destruct Hnin. apply elem_of_vget. by exists d.
  - rewrite WeightTable_new_plain in Hn by done. injection Hn as <-.
    intros d k Hk. apply vget_range in Hk. unfold vsize in Hk.
    simpl in Hk. lia.
Qed.

Lemma call_reach src dest (w : F) t t' :
  reach_inv t → AddWithWeight src dest w ScalarAccumulator t = Some t' →
  reach_inv t' ∧ others_kept dest t t'.
Proof.
  intros (Hwf & Hco & Ht & Hu) Ha.
  destruct (lift_AddWithWeight (fun t => tagged t ∧ unowned_empty t)
              others_kept others_kept_refl others_kept_trans reach_step
              ScalarAccumulator _ _ _ _ _ Hwf Hco (conj Ht Hu) Ha)
    as [[Ht' Hu'] Hk].
  destruct (AddWithWeight_inv ScalarAccumulator _ _ _ _ _ Hwf Hco Ha)
    as (Hwf' & Hco' & _).
  by repeat (split; [done|]).
Qed.

(** A source that is not coarse and owns no entry contributes nothing. *)
Lemma unowned_source src dest (w : F) t t' :
  reach_inv t → ¬ src < _coarseVertCount t → src ∉ _dests t →
  AddWithWeight src dest w ScalarAccumulator t = Some t' → t' = t.
Proof.
  intros (_ & _ & _ & Hu) Hge Hnin Ha. unfold AddWithWeight in Ha.
  rewrite bool_decide_eq_false_2 in Ha by done.
  apply bind_Some in Ha as (k & Hk & Ha).
  apply bind_Some in Ha as (o & Ho & Ha).
  rewrite (Hu _ _ Hk Hnin) in Ha. simpl in Ha. by injection Ha as <-.
Qed.

End Unowned.

Section Coefficients.
Context {F : Type} `{FloatOps F} `{!ExactLaws F}.
Implicit Types (t : WeightTable F).

(** The coefficients of a stencil that a write keeps are unchanged; a slot
    that the write creates for another destination is empty. *)
Lemma stencil_coef_kept t t' d dest c :
  wf t → stencil_kept d t t' → slots_kept dest t t' → d ≠ dest →
  stencil_coef t' d c = stencil_coef t d c.
Proof.
  intros [Hs _] Hk Hsl Hne. unfold stencil_coef.
  destruct (vget (_indices t) d) as [o|] eqn:Ho.
  - destruct (vget_is_Some (_sizes t) d) as [k Hkz].
    { rewrite (wf_sizes _ Hs). by eapply vget_range. }
    destruct (Hk _ _ Ho Hkz) as (-> & -> & He). rewrite Hkz.
    apply range_coef_ext. intros j Hj.
    destruct (wf_range _ Hs _ _ _ Ho Hkz) as (_ & Hk0 & _).
    destruct (He j ltac:(lia)) as (Es & Ew & _). done.
  - assert (Hz : vget (_sizes t) d = None).
    { apply vget_None. intros Hr. rewrite (wf_sizes _ Hs) in Hr.
      destruct (vget_is_Some _ _ Hr) as [? ?]. congruence. }
    destruct (vget (_indices t') d) as [o'|]; [|done].
    destruct (vget (_sizes t') d) as [k'|] eqn:Hk'; [|done].
    destruct (proj1 (Hsl d k' Hne) Hk') as [->|Hold]; [done|congruence].
Qed.

(** One engine call on a table reached by writes: its result, what it
    keeps, and the coefficients of the destination afterwards. *)
Lemma contribution_step src dest (w : F) t :
  reach_inv t → 0 ≤ dest →
  src < _coarseVertCount t ∨ (src ∈ _dests t ∧ src ≠ dest) →
  ∃ t', AddWithWeight src dest w ScalarAccumulator t = Some t' ∧
    reach_inv t' ∧ _coarseVertCount t' = _coarseVertCount t ∧
    vback (_dests t') = Some dest ∧
    (∀ d, d ∈ _dests t' ↔ d ∈ _dests t ∨ d = dest) ∧
    (∀ d c, d ≠ dest → stencil_coef t' d c = stencil_coef t d c) ∧
    ∀ c, stencil_coef t' dest c =
         fadd (if decide (vback (_dests t) = Some dest)
               then stencil_coef t dest c else f0)
              (fmul (src_coef t src c) w).
Proof.
  intros Hr Hd Hsrc. pose proof Hr as (Hwf & Hco & Ht & Hu).
  destruct (AddWithWeight_value src dest w t Hwf Hco Hd)
    as (t' & Ha & Hwf' & _ & Hkept & He & Hback & _ & Hval).
  { destruct Hsrc as [Hlt|[Hin Hne]]; [by left|right].
    split; [done|]. intros o k Ho Hk. by eapply tagged_below_open. }
  destruct (call_reach _ _ _ _ _ Hr Ha) as [Hr' Hk].
  exists t'. split; [done|]. split; [done|].
  split; [apply (ext_coarse _ _ He)|]. split; [done|]. split; [|split].
  - intros d. split.
    + apply (kept_dests _ _ _ _ Hkept).
    + intros [Hin | ->].
      * destruct (ext_dests _ _ He) as [l ->]. apply elem_of_app. by left.
      * by apply last_Some_elem_of.
  - intros d c Hne. apply (stencil_coef_kept _ _ _ dest); [done| |  |done].
    + by apply Hk.
    + by eapply (slots_kept_AddWithWeight ScalarAccumulator).
  - intros c. rewrite (stencil_coef_open _ _ _ Hwf' Hback), Hval.
    f_equal. case_decide as Hopen.
    + by rewrite (stencil_coef_open _ _ _ Hwf Hopen).
    + by apply open_coef_closed.
Qed.

Lemma src_coef_agree t1 t2 src c :
  agree t1 t2 → src_coef t1 src c = src_coef t2 src c.
Proof.
  intros (Hcv & _ & _ & Hc). unfold src_coef. rewrite Hcv.
  case_bool_decide; [done|apply Hc].
Qed.

Lemma call_agree src dest (w : F) t1 t2 t1' t2' :
  reach_inv t1 → reach_inv t2 → agree t1 t2 → src ≠ dest →
  AddWithWeight src dest w ScalarAccumulator t1 = Some t1' →
  AddWithWeight src dest w ScalarAccumulator t2 = Some t2' →
  reach_inv t1' ∧ reach_inv t2' ∧ agree t1' t2'.
Proof.
  intros Hr1 Hr2 Hag Hne Ha1 Ha2.
  pose proof Hag as (Hcv & Hb & Hin & Hc).
  pose proof Hr1 as (Hwf1 & Hco1 & _). pose proof Hr2 as (Hwf2 & Hco2 & _).
  destruct (decide (src < _coarseVertCount t1 ∨ src ∈ _dests t1))
    as [Hsrc|Hsrc].
  - assert (Hd : 0 ≤ dest).
    { destruct (proj1 (engine_call_defined src dest w t1 Hwf1 Hco1))
        as [[_ Hd]|(Hge & k & Hk & [->|Hd])]; [by eexists|done| |done].
      destruct Hsrc as [?|Hi]; [lia|].
      pose proof (wf_dest_size _ (proj1 Hwf1) _ _ Hi Hk). lia. }
    destruct (contribution_step src dest w t1 Hr1 Hd)
      as (u1 & Hu1 & Hr1' & Hcv1 & Hb1 & Hin1 & Ho1 & Hv1).
    { destruct Hsrc; [by left|by right]. }
    destruct (contribution_step src dest w t2 Hr2 Hd)
      as (u2 & Hu2 & Hr2' & Hcv2 & Hb2 & Hin2 & Ho2 & Hv2).
    { destruct Hsrc as [?|Hi]; [left; by rewrite <- Hcv|right].
      split; [by apply Hin|done]. }
    rewrite Ha1 in Hu1. injection Hu1 as <-.
    rewrite Ha2 in Hu2. injection Hu2 as <-.
    split; [done|]. split; [done|].
    split; [congruence|]. split; [congruence|]. split.
    + intros d. rewrite Hin1, Hin2, Hin. done.
    + intros d c. destruct (decide (d = dest)) as [->|Hdd].
      * rewrite Hv1, Hv2, Hb, Hc, (src_coef_agree _ _ _ _ Hag). done.
      * by rewrite Ho1, Ho2.
  - assert (Hge : ¬ src < _coarseVertCount t1)
      by (intros ?; apply Hsrc; by left).
    assert (Hnin : src ∉ _dests t1) by (intros ?; apply Hsrc; by right).
    rewrite (unowned_source _ _ _ _ _ Hr1 Hge Hnin Ha1).
    rewrite (unowned_source _ _ _ _ _ Hr2 ltac:(by rewrite <- Hcv)
               ltac:(by rewrite <- Hin) Ha2).
    done.
Qed.

Lemma calls_agree (cs : list (call F)) t1 t2 t1' t2' :
  reach_inv t1 → reach_inv t2 → agree t1 t2 →
  (∀ cl, cl ∈ cs → c_src cl ≠ c_dest cl) →
  run_calls cs t1 = Some t1' → run_calls cs t2 = Some t2' →
  agree t1' t2'.
Proof.
  revert t1 t2. induction cs as [|cl cs IH]; intros t1 t2 Hr1 Hr2 Hag Hne H1 H2;
    simpl in *.
  { injection H1 as <-. by injection H2 as <-. }
  apply bind_Some in H1 as (u1 & Hu1 & H1).
  apply bind_Some in H2 as (u2 & Hu2 & H2).
  destruct (call_agree _ _ _ _ _ _ _ Hr1 Hr2 Hag
              (Hne cl ltac:(by left)) Hu1 Hu2) as (Hr1' & Hr2' & Hag').
  apply (IH u1 u2); try done. intros cl' Hin. apply Hne. by right.
Qed.

End Coefficients.

Section ConstructedCoefficients.
Context {F : Type} `{FloatOps F}.
Implicit Types (t : WeightTable F).

Lemma filled_view t n :
  0 ≤ n → filled t n n →
  (∀ d c, stencil_coef t d c =
          if decide (0 ≤ d < n)
          then (if bool_decide (d = c) then fadd f1 f0 else f0) else f0) ∧
  vback (_dests t) = (if decide (n = 0) then None else Some (n - 1)) ∧
  ∀ d, d ∈ _dests t ↔ 0 ≤ d < n.
Proof.
  intros Hn (Li & Lz & Ld & Ls & Lw & Hf). split; [|split].
  - intros d c. unfold stencil_coef. case_decide as Hd.
    + destruct (Hf d Hd) as (-> & -> & _ & Es & Ew). simpl.
      by rewrite Es, Ew.
    + by rewrite (vget_None (_indices t) d) by (by rewrite Li).
  - case_decide as Hz.
    + destruct (_dests t); [done|]. unfold vsize in Ld. simpl in Ld. lia.
    + rewrite vback_vget.
      * rewrite Ld. by destruct (Hf (n - 1) ltac:(lia)) as (_ & _ & -> & _).
      * intros E. rewrite E in Ld. unfold vsize in Ld. simpl in Ld. lia.
  - intros d. rewrite elem_of_vget. split.
    + intros [i Hi]. pose proof (vget_range _ _ _ Hi) as Hr.
      rewrite Ld in Hr. destruct (Hf i Hr) as (_ & _ & Ed & _).
      rewrite Ed in Hi. injection Hi as <-. done.
    + intros Hd. exists d. by destruct (Hf d Hd) as (_ & _ & Ed & _).
Qed.

(** The constructor's table does not depend on the compaction flag, apart
    from the flag itself. *)
Lemma WeightTable_new_agree cv gen c1 c2 t1 t2 :
  WeightTable_new cv gen c1 = Some t1 → WeightTable_new cv gen c2 = Some t2 →
  agree t1 t2.
Proof.
  intros H1 H2. pose proof (WeightTable_new_nonneg _ _ _ _ H1) as Hcv.
  destruct gen.
  - destruct (WeightTable_new_ctrl (F:=F) cv c1 Hcv)
      as (u1 & Hu1 & Hf1 & _ & _ & _ & _ & Hc1 & _).
    destruct (WeightTable_new_ctrl (F:=F) cv c2 Hcv)
      as (u2 & Hu2 & Hf2 & _ & _ & _ & _ & Hc2 & _).
    rewrite H1 in Hu1. injection Hu1 as <-.
    rewrite H2 in Hu2. injection Hu2 as <-.
    destruct (filled_view _ _ Hcv Hf1) as (Hv1 & Hb1 & Hi1).
    destruct (filled_view _ _ Hcv Hf2) as (Hv2 & Hb2 & Hi2).
    split; [congruence|]. split; [congruence|]. split.
    + intros d. by rewrite Hi1, Hi2.
    + intros d c. by rewrite Hv1, Hv2.
  - rewrite WeightTable_new_plain in H1, H2 by done.
    injection H1 as <-. injection H2 as <-.
    split; [done|]. split; [done|]. split; [done|].
    intros d c. unfold stencil_coef. simpl.
    rewrite (vget_None [] d); [done|]. unfold vsize. simpl. lia.
Qed.

End ConstructedCoefficients.

(** X13.  Compaction does not change what a stencil means.  In exact
    arithmetic, if the same sequence of engine calls, none of which names its
    own destination as the source, builds a table with compaction and a table
    without, then every stencil has the same coefficient for every coarse
    vertex in both: the sum of the weights stored for that vertex in the
    stencil's range.  The stored entries differ (duplicates are merged), the
    values do not. *)
Theorem compaction_keeps_coefficients {F : Type} `{FloatOps F}
    `{!ExactLaws F} cv gen (cs : list (call F)) (tc tf : WeightTable F) :
  build cv gen true cs = Some tc → build cv gen false cs = Some tf →
  (∀ cl, cl ∈ cs → c_src cl ≠ c_dest cl) →
  ∀ d c, stencil_coef tc d c = stencil_coef tf d c.
Proof.
  intros Hc Hf Hne. unfold build in *.
  apply bind_Some in Hc as (c0 & Hc0 & Hc).
  apply bind_Some in Hf as (f0' & Hf0 & Hf).
  pose proof (calls_agree cs c0 f0' tc tf (WeightTable_new_reach _ _ _ _ Hc0)
                (WeightTable_new_reach _ _ _ _ Hf0)
                (WeightTable_new_agree _ _ _ _ _ _ Hc0 Hf0) Hne Hc Hf)
    as (_ & _ & _ & Hv).
  exact Hv.
Qed.

Lemma merging_calls_no_self :
  ∀ cl, cl ∈ merging_calls → c_src cl ≠ c_dest cl.
Proof.
  intros cl Hin. unfold merging_calls in Hin.
  repeat (apply elem_of_cons in Hin as [-> | Hin]; [simpl; lia|]).
  by apply elem_of_nil in Hin.
Qed.

Lemma compaction_keeps_coefficients_witness :
  build 2 true true merging_calls = Some merged_table ∧
  build 2 true false merging_calls = Some unmerged_table ∧
  GetNumVerticesTotal merged_table = 6 ∧
  GetNumVerticesTotal unmerged_table = 9 ∧
  ∀ d c, stencil_coef merged_table d c = stencil_coef unmerged_table d c.
Proof.
  assert (build 2 true true merging_calls = Some merged_table) as Hc
    by (vm_compute; reflexivity).
  assert (build 2 true false merging_calls = Some unmerged_table) as Hf
    by (vm_compute; reflexivity).
  split; [exact Hc|]. split; [exact Hf|].
  split; [vm_compute; reflexivity|]. split; [vm_compute; reflexivity|].
  exact (compaction_keeps_coefficients 2 true merging_calls
           merged_table unmerged_table Hc Hf merging_calls_no_self).
Defined.

(** X14.  Contributions to one destination can be issued in either order.
    In exact arithmetic, on any table built through the facade, two calls
    [Index::AddWithWeight] on the same destination (not negative), with
    weights that are not 0 and sources that are coarse vertices or other
    vertices owning stored entries, are defined in both orders, and both
    orders give every stencil the same coefficient for every coarse vertex.
    The stored entries may come in a different order. *)
Theorem contributions_commute {F : Type} `{FloatOps F} `{!ExactLaws F}
    cv gen compact (xs : list (write F)) (t : WeightTable F)
    (dest s1 s2 : Z) (w1 w2 : F) :
  built cv gen compact xs = Some t → 0 ≤ dest →
  feq w1 f0 = false → feq w2 f0 = false →
  s1 < cv ∨ (s1 ∈ _dests t ∧ s1 ≠ dest) →
  s2 < cv ∨ (s2 ∈ _dests t ∧ s2 ≠ dest) →
  ∃ ta tb,
    (Index_AddWithWeight dest s1 w1 t ≫= Index_AddWithWeight dest s2 w2)
      = Some ta ∧
    (Index_AddWithWeight dest s2 w2 t ≫= Index_AddWithWeight dest s1 w1)
      = Some tb ∧
    ∀ d c, stencil_coef ta d c = stencil_coef tb d c.
Proof.
  intros Hb Hd Hw1 Hw2 Hs1 Hs2.
  assert (Hr : reach_inv t).
  { unfold built in Hb. apply bind_Some in Hb as (t0 & Hn & Hw).
    pose proof (WeightTable_new_reach _ _ _ _ Hn) as (Hwf0 & Hco0 & Ht0 & Hu0).
    destruct (do_writes_post _ _ _ Hwf0 Hco0 Hw) as (Hwf & Hco & _).
    destruct (lift_do_writes (fun t => tagged t ∧ unowned_empty t)
                others_kept others_kept_refl others_kept_trans reach_step
                xs t0 t Hwf0 Hco0 (conj Ht0 Hu0) Hw) as [Ht Hu].
    by repeat (split; [done|]). }
  destruct (built_inv _ _ _ _ _ Hb) as (_ & _ & _ & Hcv & _).
  rewrite <- Hcv in Hs1, Hs2.
  assert (Hstep : ∀ sa wa sb wb,
    sa < _coarseVertCount t ∨ (sa ∈ _dests t ∧ sa ≠ dest) →
    sb < _coarseVertCount t ∨ (sb ∈ _dests t ∧ sb ≠ dest) →
    ∃ tab,
      (AddWithWeight sa dest wa ScalarAccumulator t
         ≫= AddWithWeight sb dest wb ScalarAccumulator) = Some tab ∧
      (∀ d c, d ≠ dest → stencil_coef tab d c = stencil_coef t d c) ∧
      ∀ c, stencil_coef tab dest c =
           fadd (fadd (if decide (vback (_dests t) = Some dest)
                       then stencil_coef t dest c else f0)
                      (fmul (src_coef t sa c) wa))
                (fmul (src_coef t sb c) wb)).
  { intros sa wa sb wb Ha Hb'.
    destruct (contribution_step sa dest wa t Hr Hd Ha)
      as (u & Hu & Hru & Hcu & Hbu & Hiu & Hou & Hvu).
    destruct (contribution_step sb dest wb u Hru Hd)
      as (v & Hv & Hrv & Hcv' & Hbv & Hiv & Hov & Hvv).
    { rewrite Hcu. destruct Hb' as [?|[Hin ?]]; [by left|right].
      split; [|done]. apply Hiu. by left. }
    exists v. rewrite Hu. simpl. split; [done|]. split.
    - intros d c Hne. by rewrite Hov, Hou.
    - intros c. rewrite Hvv, decide_True by done. rewrite Hvu. f_equal.
      f_equal. unfold src_coef. rewrite Hcu.
      destruct Hb' as [Hlt|[_ Hne]].
      + by rewrite bool_decide_eq_true_2 by done.
      + case_bool_decide; [done|]. by apply Hou. }
  destruct (Hstep s1 w1 s2 w2 Hs1 Hs2) as (ta & Hta & Hoa & Hva).
  destruct (Hstep s2 w2 s1 w1 Hs2 Hs1) as (tb & Htb & Hob & Hvb).
  exists ta, tb. unfold Index_AddWithWeight. rewrite Hw1, Hw2.
  split; [done|]. split; [done|]. intros d c.
  destruct (decide (d = dest)) as [->|Hne].
  - rewrite Hva, Hvb. rewrite <- !fadd_assoc. f_equal. apply fadd_comm.
  - by rewrite Hoa, Hob.
Qed.

Lemma contributions_commute_witness :
  ∃ ta tb,
    (Index_AddWithWeight 5 4 q_half exact_mid_table
       ≫= Index_AddWithWeight 5 0 q_04) = Some ta ∧
    (Index_AddWithWeight 5 0 q_04 exact_mid_table
       ≫= Index_AddWithWeight 5 4 q_half) = Some tb ∧
    ∀ d c, stencil_coef ta d c = stencil_coef tb d c.
Proof.
  apply (contributions_commute 3 true true exact_writes).
  - vm_compute. reflexivity.
  - lia.
  - vm_compute. reflexivity.
  - vm_compute. reflexivity.
  - right. split; [|lia]. apply elem_of_vget. exists 4.
    vm_compute. reflexivity.
  - left. lia.
Defined.

(** * The claims on compaction, the derivative channels and the expansion *)

(** ** Repeated contributions of one source *)

Section Repeated.
Context {F : Type} `{FloatOps F}.
Implicit Types (t : WeightTable F) (xs : list (write F)).

Lemma built_distinct cv gen xs t :
  built cv gen true xs = Some t → distinct_sources t.
Proof.
  intros Hb.
  destruct (lift_built (fun t => _compactWeights t = true ∧ distinct_sources t)
              (fun _ _ _ => True) (fun _ _ => I) (fun _ _ _ _ _ _ => I)
              distinct_step cv gen true xs t) as (_ & _ & _ & Hd); [|done|done].
  intros t0 Hn. split.
  - by destruct (WeightTable_new_wf _ _ _ _ Hn) as (_ & _ & _ & ->).
  - by destruct (WeightTable_new_tagged _ _ _ _ Hn).
Qed.

(** One facade contribution of a coarse source that the open stencil of the
    destination already holds at [i], compaction on: the weight is added to
    the entry [i] and nothing else changes. *)
Lemma held_contribution t dest src (w w0 : F) i :
  wf t → distinct_sources t → _compactWeights t = true →
  vback (_dests t) = Some dest → src < _coarseVertCount t →
  feq w f0 = false → fmul w f1 = w →
  _lastOffset t ≤ i → vget (_sources t) i = Some src →
  vget (_weights t) i = Some w0 →
  Index_AddWithWeight dest src w t
  = Some (with_weights t (<[Z.to_nat i := fadd w0 w]> (_weights t))).
Proof.
  intros [Hs Hw] Hdis Hc Hb Hsrc Hnz H1 Hi Hsi Hwi.
  destruct (wf_cur _ Hs _ Hb) as [Ho Hk].
  pose proof (vget_range _ _ _ Hsi) as Hr.
  unfold Index_AddWithWeight. rewrite Hnz.
  unfold AddWithWeight. rewrite bool_decide_eq_true_2 by done.
  rewrite (merge_found ScalarAccumulator src dest w w_one t i Hs Hc Hb Hi Hsi).
  - change (w_mul w w_one) with (fmul w f1). rewrite H1.
    unfold Add, ScalarAccumulator. rewrite Hwi. simpl.
    rewrite vset_Some by lia. done.
  - intros k Hk' Hsk.
    assert (k = i); [|lia].
    apply (Hdis dest _ _ k i src Ho Hk); [lia|lia|done|done].
Qed.

End Repeated.

(** C3, as amended.  In binary32, on any table built through the facade, two
    successive facade contributions of one coarse source [src], with nonzero
    weights [w1] and [w2], to the destination [dest] are defined.  With
    compaction: when the open stencil of [dest] does not hold [src] yet, the
    storage grows by the single entry [(src, w1 + w2)] and the size of the
    stencil grows by 1; when the open stencil holds [src] already, with the
    weight [w0], no entry is added, the size is unchanged and that entry
    holds [(w0 + w1) + w2]; either way the stencil has exactly one entry for
    [src] afterwards.  Without compaction the storage grows by the two
    entries [(src, w1)] and [(src, w2)], whose weights sum to [w1 + w2], and
    the size grows by 2. *)
Theorem compaction_of_repeated_source cv gen compact
    (xs : list (write spec_float)) (t : WeightTable spec_float)
    (dest src : Z) (w1 w2 : spec_float) :
  built cv gen compact xs = Some t → 0 ≤ dest → src < cv →
  valid_binary 24 128 w1 = true → valid_binary 24 128 w2 = true →
  feq w1 f0 = false → feq w2 f0 = false →
  ∃ t', (Index_AddWithWeight dest src w1 t
           ≫= Index_AddWithWeight dest src w2) = Some t' ∧
    vget (_indices t') dest = Some (open_start t dest) ∧
    if compact then
      (src ∉ open_sources t dest →
       _sources t' = _sources t ++ [src] ∧
       _weights t' = _weights t ++ [b32_add w1 w2] ∧
       vget (_sizes t') dest
         = Some (vsize (_sources t) - open_start t dest + 1)) ∧
      (∀ i w0, open_start t dest ≤ i → vget (_sources t) i = Some src →
         vget (_weights t) i = Some w0 →
         _sources t' = _sources t ∧
         _weights t' =
           <[Z.to_nat i := b32_add (b32_add w0 w1) w2]> (_weights t) ∧
         vget (_sizes t') dest
           = Some (vsize (_sources t) - open_start t dest)) ∧
      (∀ i j, open_start t dest ≤ i → open_start t dest ≤ j →
         vget (_sources t') i = Some src → vget (_sources t') j = Some src →
         i = j)
    else
      _sources t' = _sources t ++ [src; src] ∧
      _weights t' = _weights t ++ [w1; w2] ∧
      vget (_sizes t') dest
        = Some (vsize (_sources t) - open_start t dest + 2).
Proof.
  intros Hb Hd Hsrc Hv1 Hv2 Hn1 Hn2.
  destruct (built_inv _ _ _ _ _ Hb) as (Hwf & Hco & _ & Hcv & Hcp).
  pose proof (b32_mul_one_r _ Hv1) as H1. pose proof (b32_mul_one_r _ Hv2) as H2.
  rewrite <- Hcv in Hsrc.
  destruct (decide (_compactWeights t = true ∧ src ∈ open_sources t dest))
    as [[Hc Hin]|Hfresh].
  - (* the open stencil holds the source *)
    rewrite Hc in Hcp. subst compact.
    pose proof (built_distinct _ _ _ _ Hb) as Hdis.
    assert (Hopen : vback (_dests t) = Some dest).
    { destruct (decide (vback (_dests t) = Some dest)) as [|Hne]; [done|].
      unfold open_sources, open_start in Hin. rewrite decide_False in Hin by done.
      unfold vsize in Hin. rewrite Nat2Z.id, drop_all in Hin.
      by apply elem_of_nil in Hin. }
    pose proof (open_start_vback t dest Hopen) as Hos.
    pose proof (open_start_range t dest (proj1 Hwf)) as Hor.
    apply drop_elem_vget in Hin as (i0 & Hi0 & Hs0); [|lia].
    rewrite Hos in Hi0.
    pose proof (vget_range _ _ _ Hs0) as Hr0.
    destruct (vget_is_Some (_weights t) i0) as [x0 Hx0];
      [by rewrite (proj2 Hwf)|].
    destruct (wf_cur _ (proj1 Hwf) _ Hopen) as [Ho Hk].
    set (t1 := with_weights t (<[Z.to_nat i0 := b32_add x0 w1]> (_weights t))).
    assert (Hwf1 : wf t1).
    { split; [by apply (shape_ok_same t); [by repeat split|apply Hwf]|].
      unfold t1. simpl. rewrite vsize_insert. apply Hwf. }
    assert (E1 : Index_AddWithWeight dest src w1 t = Some t1)
      by exact (held_contribution t dest src w1 x0 i0 Hwf Hdis Hc Hopen Hsrc
                  Hn1 H1 Hi0 Hs0 Hx0).
    assert (Hx1 : vget (_weights t1) i0 = Some (b32_add x0 w1)).
    { unfold t1. simpl. apply vget_insert_eq. by rewrite (proj2 Hwf). }
    pose proof (held_contribution t1 dest src w2 (b32_add x0 w1) i0 Hwf1 Hdis
                  Hc Hopen Hsrc Hn2 H2 Hi0 Hs0 Hx1) as E2.
    rewrite E1. cbn [mbind option_bind]. rewrite E2.
    eexists. split; [done|]. simpl. rewrite Hos. split; [done|].
    split; [|split].
    + intros Hnin. destruct Hnin. unfold open_sources. rewrite Hos.
      by apply (elem_of_drop_vget _ _ i0); [lia|].
    + intros i w0 Hi Hsi Hwi.
      assert (i = i0) as ->.
      { pose proof (vget_range _ _ _ Hsi).
        apply (Hdis dest _ _ i i0 src Ho Hk); [lia|lia|done|done]. }
      rewrite Hx0 in Hwi. injection Hwi as <-.
      split; [done|]. split; [by rewrite list_insert_insert_eq|done].
    + intros i j Hi Hj Hsi Hsj.
      pose proof (vget_range _ _ _ Hsi). pose proof (vget_range _ _ _ Hsj).
      apply (Hdis dest _ _ i j src Ho Hk); [lia|lia|done|done].
  - (* the source is new to the open stencil, or compaction is off *)
    assert (Hnew : _compactWeights t = true → src ∉ open_sources t dest).
    { intros Hc Hin. apply Hfresh. by split. }
    destruct (compaction_generic t dest src w1 w2 Hwf Hd Hsrc Hn1 Hn2 H1 H2
                Hnew) as (t' & Hrun & Hix & Hres).
    exists t'. split; [done|]. split; [done|].
    rewrite Hcp in Hres. destruct compact; [|done].
    destruct Hres as (Es & Ew & Ez & Hu).
    split; [done|]. split.
    + intros i w0 Hi Hsi _. destruct (Hnew Hcp).
      pose proof (open_start_range t dest (proj1 Hwf)).
      unfold open_sources. by apply (elem_of_drop_vget _ _ i); [lia|].
    + intros i j Hi Hj Hsi Hsj. by rewrite (Hu i Hi Hsi), (Hu j Hj Hsj).
Qed.

Lemma compaction_of_repeated_source_witness :
  built 2 false true held_writes = Some held_table ∧
  vback (_dests held_table) = Some 2 ∧
  (1 ∉ open_sources held_table 2) ∧
  vget (_sizes held_table) 2 = Some 1 ∧
  ∃ t', (Index_AddWithWeight 2 1 b32_half held_table
           ≫= Index_AddWithWeight 2 1 b32_half) = Some t' ∧
    _sources t' = [0; 1] ∧
    _weights t' = [b32_half; b32_one] ∧
    vget (_sizes t') 2 = Some 2 ∧
    (∀ i j, 0 ≤ i → 0 ≤ j →
       vget (_sources t') i = Some 1 → vget (_sources t') j = Some 1 →
       i = j).
Proof.
  assert (built 2 false true held_writes = Some held_table) as Hb
    by (vm_compute; reflexivity).
  assert (1 ∉ open_sources held_table 2) as Hnew.
  { vm_compute. intros Hin. apply elem_of_cons in Hin as [Hin|Hin];
      [discriminate|by apply elem_of_nil in Hin]. }
  split; [exact Hb|]. split; [reflexivity|]. split; [exact Hnew|].
  split; [reflexivity|].
  destruct (compaction_of_repeated_source 2 false true held_writes held_table
              2 1 b32_half b32_half Hb ltac:(lia) ltac:(lia)
              eq_refl eq_refl eq_refl eq_refl)
    as (t' & Hrun & _ & Hfresh & _ & Hone).
  destruct (Hfresh Hnew) as (Es & Ew & Ez).
  exists t'. split; [exact Hrun|]. split; [exact Es|].
  split; [exact Ew|]. split; [exact Ez|]. exact Hone.
Defined.

(** The claim as worded fails when the open stencil already holds the
    source: vertex 2 is open and holds the source 0 with the weight 0.5; two
    more contributions of 0.5 for the source 0 leave the size of the stencil
    at 1 (it grows by 0, not by 1) and the single entry holds 1.5, not
    [w1 + w2 = 1.0]. *)
Lemma compaction_of_repeated_source_counterexample :
  built 2 false true held_writes = Some held_table ∧
  vback (_dests held_table) = Some 2 ∧
  (Index_AddWithWeight 2 0 b32_half held_table
     ≫= Index_AddWithWeight 2 0 b32_half) = Some held_again_table ∧
  vget (_sizes held_table) 2 = Some 1 ∧
  vget (_sizes held_again_table) 2 = Some 1 ∧
  _sources held_again_table = [0] ∧
  _weights held_again_table = [b32_15] ∧
  b32_add b32_half b32_half = b32_one ∧
  b32_15 ≠ b32_one.
Proof.
  do 8 (split; [vm_compute; reflexivity|]). discriminate.
Qed.

(** ** Each channel of the derivative interface on its own *)

Section ChannelView.
Context {F : Type} `{FloatOps F}.
Variable c : channel.
Implicit Types (t : WeightTable F) (a : PointDerivWeight F).

Ltac chan_simpl :=
  cbn -[vget vset vback vpush vresize vsize PushBack chan chan_weights] in *.
Ltac chan_bind Ha :=
  let x := fresh "x" in let Hx := fresh "Hx" in
  apply bind_Some in Ha as (x & Hx & Ha); chan_simpl; rewrite Hx; chan_simpl.

Lemma chan_Add i a t t' :
  Add PointDerivAccumulator i a t = Some t' →
  Add ScalarAccumulator i (chan c a) (channel_view c t)
  = Some (channel_view c t').
Proof.
  intros Ha. simpl in Ha.
  apply bind_Some in Ha as (w0 & Hw0 & Ha).
  apply bind_Some in Ha as (ws & Hws & Ha).
  apply bind_Some in Ha as (u0 & Hu0 & Ha).
  apply bind_Some in Ha as (us & Hus & Ha).
  apply bind_Some in Ha as (v0 & Hv0 & Ha).
  apply bind_Some in Ha as (vs & Hvs & Ha). injection Ha as <-.
  destruct c; simpl.
  - by rewrite Hw0; simpl; rewrite Hws.
  - by rewrite Hu0; simpl; rewrite Hus.
  - by rewrite Hv0; simpl; rewrite Hvs.
Qed.

Lemma chan_Get i t g :
  Get PointDerivAccumulator i t = Some g →
  Get ScalarAccumulator i (channel_view c t) = Some (chan c g).
Proof.
  intros Hg. simpl in Hg.
  apply bind_Some in Hg as (w0 & Hw0 & Hg).
  apply bind_Some in Hg as (u0 & Hu0 & Hg).
  apply bind_Some in Hg as (v0 & Hv0 & Hg). injection Hg as <-.
  by destruct c.
Qed.

Lemma chan_mul a b : chan c (w_mul a b) = fmul (chan c a) (chan c b).
Proof. by destruct c. Qed.

Lemma chan_one : chan c w_one = f1.
Proof. by destruct c. Qed.

Lemma add_chan src dst a t td :
  add src dst a PointDerivAccumulator t = Some td →
  add src dst (chan c a) ScalarAccumulator (channel_view c t)
  = Some (channel_view c td).
Proof.
  unfold add. chan_simpl. intros Ha.
  destruct (bool_decide (_dests t = [])
            || bool_decide (vback (_dests t) ≠ Some dst)).
  - apply bind_Some in Ha as (t1 & Ht1 & Ha).
    destruct (decide (dst + 1 > vsize (_indices t))) as [Hg|Hg];
      chan_simpl; chan_bind Ht1; chan_bind Ht1; injection Ht1 as <-;
      chan_simpl; chan_bind Ha; chan_bind Ha; injection Ha as <-;
      by destruct c.
  - chan_simpl. chan_bind Ha. chan_bind Ha. injection Ha as <-.
    by destruct c.
Qed.

Lemma merge_chan src dst a f lo n t td :
  merge src dst a f lo n PointDerivAccumulator t = Some td →
  merge src dst (chan c a) (chan c f) lo n ScalarAccumulator
    (channel_view c t) = Some (channel_view c td).
Proof.
  unfold merge.
  change (merge_guard (channel_view c t) lo dst) with (merge_guard t lo dst).
  change (_sources (channel_view c t)) with (_sources t).
  change (w_mul (chan c a) (chan c f)) with (fmul (chan c a) (chan c f)).
  rewrite <- chan_mul.
  intros Hm. destruct (merge_guard t lo dst) as [[|]|]; simpl in *;
    [|by apply add_chan|done].
  destruct (scan_sources (_sources t) src lo (Z.to_nat (n - lo)))
    as [[i|]|]; simpl in *; [by apply chan_Add|by apply add_chan|done].
Qed.

Lemma resolve_loop_chan n i dest a t td :
  resolve_loop n i dest a PointDerivAccumulator t = Some td →
  resolve_loop n i dest (chan c a) ScalarAccumulator (channel_view c t)
    = Some (channel_view c td).
Proof.
  revert i t. induction n as [|n IH]; intros i t Hr; simpl in Hr.
  { by injection Hr as <-. }
  apply bind_Some in Hr as (s & Hs & Hr). case_bool_decide as Hlt; [|done].
  apply bind_Some in Hr as (g & Hg & Hr).
  apply bind_Some in Hr as (t1 & Hm & Hr).
  cbn [resolve_loop]. change (_sources (channel_view c t)) with (_sources t).
  rewrite Hs. cbn [mbind option_bind].
  change (_coarseVertCount (channel_view c t)) with (_coarseVertCount t).
  rewrite bool_decide_eq_true_2 by done.
  rewrite (chan_Get _ _ _ Hg). cbn [mbind option_bind].
  change (_lastOffset (channel_view c t)) with (_lastOffset t).
  change (_size (channel_view c t)) with (_size t).
  rewrite (merge_chan _ _ _ _ _ _ _ _ Hm). cbn [mbind option_bind].
  by apply IH.
Qed.

Lemma AddWithWeight_chan src dest a t td :
  AddWithWeight src dest a PointDerivAccumulator t = Some td →
  AddWithWeight src dest (chan c a) ScalarAccumulator (channel_view c t)
    = Some (channel_view c td).
Proof.
  unfold AddWithWeight.
  change (_coarseVertCount (channel_view c t)) with (_coarseVertCount t).
  change (_sizes (channel_view c t)) with (_sizes t).
  change (_indices (channel_view c t)) with (_indices t).
  change (_lastOffset (channel_view c t)) with (_lastOffset t).
  change (_size (channel_view c t)) with (_size t).
  intros Ha. case_bool_decide.
  - change (w_one (W:=F)) with (f1 (F:=F)). rewrite <- chan_one.
    by apply merge_chan.
  - apply bind_Some in Ha as (len & -> & Ha).
    apply bind_Some in Ha as (start & -> & Ha). simpl.
    by apply resolve_loop_chan.
Qed.

Lemma stencil_deriv_loop_chan n i dest st (w wu wv : F) t td :
  stencil_deriv_loop n i dest st w wu wv t = Some td →
  stencil_loop n i dest st (chan c (mkPointDerivWeight w wu wv))
    (channel_view c t) = Some (channel_view c td).
Proof.
  revert i t. induction n as [|n IH]; intros i t Hl; simpl in Hl.
  { by injection Hl as <-. }
  apply bind_Some in Hl as (w0 & Hw0 & Hl).
  cbn [stencil_loop]. rewrite Hw0. cbn [mbind option_bind].
  destruct (feq w0 f0); [by apply IH|].
  apply bind_Some in Hl as (s & -> & Hl).
  apply bind_Some in Hl as (t1 & Ha & Hl). cbn [mbind option_bind].
  apply AddWithWeight_chan in Ha.
  replace (chan c (pdw_mul (mkPointDerivWeight w wu wv)
                     (PointDerivWeight_of_float w0)))
    with (fmul (chan c (mkPointDerivWeight w wu wv)) w0) in Ha
    by (by destruct c).
  rewrite Ha. cbn [mbind option_bind]. by apply IH.
Qed.

End ChannelView.

(** C7, as amended.  The channels of the derivative payload never
    cross-contaminate: whenever a derivative-aware facade write with weights
    [(w, wu, wv)], not all 0, is defined, each channel of the table it
    builds is what the loop of the scalar overload builds from that channel
    of the table alone with that channel's weight.  And in binary32, on a
    table built through the facade with compaction whose derivative vectors
    run in parallel with the sources, contributing
    [(weight, du, dv) = (0, 1, 0)] and then [(1, 0, 0)] through the one-entry
    external stencil [{src, 1.0}], for a coarse source [src] that the open
    stencil of [dest] does not hold yet, appends the single entry [src] with
    weight 1, du weight 1 and dv weight 0. *)
Theorem derivative_channels_independent cv gen
    (xs : list (write spec_float)) (t : WeightTable spec_float)
    (dest src : Z) :
  built cv gen true xs = Some t → deriv_len t →
  0 ≤ dest → src < cv → src ∉ open_sources t dest →
  (∀ (c : channel) (d : Z) (st : Stencil spec_float) (w wu wv : spec_float)
     (u u' : WeightTable spec_float),
     feq w f0 && feq wu f0 && feq wv f0 = false →
     Index_AddWithWeight_deriv d st w wu wv u = Some u' →
     stencil_loop (Z.to_nat (GetSizePtr st)) 0 d st
       (chan c (mkPointDerivWeight w wu wv)) (channel_view c u)
     = Some (channel_view c u')) ∧
  ∃ t',
    (Index_AddWithWeight_deriv dest (mkStencil 1 [src] [b32_one])
       b32_zero b32_one b32_zero t
     ≫= Index_AddWithWeight_deriv dest (mkStencil 1 [src] [b32_one])
          b32_one b32_zero b32_zero) = Some t' ∧
    _sources t' = _sources t ++ [src] ∧
    _weights t' = _weights t ++ [b32_one] ∧
    _duWeights t' = _duWeights t ++ [b32_one] ∧
    _dvWeights t' = _dvWeights t ++ [b32_zero] ∧
    vget (_indices t') dest = Some (open_start t dest) ∧
    vget (_sizes t') dest = Some (vsize (_sources t) - open_start t dest + 1).
Proof.
  intros Hb Hlen Hd Hsrc Hnew. split.
  { intros c d st w wu wv u u' Hnz Hw.
    unfold Index_AddWithWeight_deriv in Hw. rewrite Hnz in Hw.
    by apply stencil_deriv_loop_chan. }
  destruct (built_inv _ _ _ _ _ Hb) as (Hwf & _ & _ & Hcv & Hk).
  rewrite <- Hcv in Hsrc.
  rewrite deriv_single by reflexivity.
  destruct (deriv_twice t dest src
              (pdw_mul (mkPointDerivWeight b32_zero b32_one b32_zero)
                       (PointDerivWeight_of_float b32_one))
              (pdw_mul (mkPointDerivWeight b32_one b32_zero b32_zero)
                       (PointDerivWeight_of_float b32_one))
              Hwf Hlen Hk Hd Hsrc Hnew)
    as (t' & Hrun & Hs & Hw & Hu & Hv & Hi & Hz).
  exists t'. split.
  - destruct (AddWithWeight src dest _ PointDerivAccumulator t) as [t1|];
      [|done].
    simpl in Hrun |- *. by rewrite deriv_single by reflexivity.
  - by repeat split.
Qed.

Lemma derivative_channels_independent_witness :
  built 3 false true deriv_writes = Some deriv_table ∧
  deriv_len deriv_table ∧
  vback (_dests deriv_table) = Some 3 ∧
  (1 ∉ open_sources deriv_table 3) ∧
  ∃ t',
    (Index_AddWithWeight_deriv 3 (mkStencil 1 [1] [b32_one])
       b32_zero b32_one b32_zero deriv_table
     ≫= Index_AddWithWeight_deriv 3 (mkStencil 1 [1] [b32_one])
          b32_one b32_zero b32_zero) = Some t' ∧
    _sources t' = _sources deriv_table ++ [1] ∧
    _weights t' = _weights deriv_table ++ [b32_one] ∧
    _duWeights t' = _duWeights deriv_table ++ [b32_one] ∧
    _dvWeights t' = _dvWeights deriv_table ++ [b32_zero] ∧
    vget (_indices t') 3 = Some (open_start deriv_table 3) ∧
    vget (_sizes t') 3
      = Some (vsize (_sources deriv_table) - open_start deriv_table 3 + 1).
Proof.
  assert (built 3 false true deriv_writes = Some deriv_table) as Hb
    by (vm_compute; reflexivity).
  assert (1 ∉ open_sources deriv_table 3) as Hnew.
  { vm_compute. intros Hin. apply elem_of_cons in Hin as [Hin|Hin];
      [discriminate|by apply elem_of_nil in Hin]. }
  assert (deriv_len deriv_table) as Hlen by (by repeat split).
  split; [exact Hb|]. split; [exact Hlen|]. split; [reflexivity|].
  split; [exact Hnew|].
  exact (proj2 (derivative_channels_independent 3 false deriv_writes
                  deriv_table 3 1 Hb Hlen ltac:(lia) ltac:(lia) Hnew)).
Defined.

(** The scenario of the claim fails on other tables.  With the control
    vertex stencils pre-populated the derivative vectors are shorter than
    the weights: for one control vertex, the contribution [(0, 1, 0)] of
    control vertex 0 to vertex 1 appends a slot 1 to the weights and a slot 0
    to the derivative vectors, and the contribution [(1, 0, 0)] then indexes
    the derivative vectors at 1, past their end.  And when the open stencil
    already holds the source, the two contributions are added to its entry:
    on [deriv_table], where vertex 3 holds the source 0 with [(1, 1, 0)], the
    entry becomes [(2, 2, 0)]. *)
Lemma derivative_channels_counterexample :
  (built 1 true true [] = Some ctrl1 ∧
   ¬ deriv_len ctrl1 ∧
   Index_AddWithWeight_deriv 1 (mkStencil 1 [0] [b32_one])
     b32_zero b32_one b32_zero ctrl1 = Some ctrl1_du_table ∧
   vsize (_weights ctrl1_du_table) = 2 ∧
   vsize (_duWeights ctrl1_du_table) = 1 ∧
   Index_AddWithWeight_deriv 1 (mkStencil 1 [0] [b32_one])
     b32_one b32_zero b32_zero ctrl1_du_table = None) ∧
  (built 3 false true deriv_writes = Some deriv_table ∧
   deriv_len deriv_table ∧
   vback (_dests deriv_table) = Some 3 ∧
   (Index_AddWithWeight_deriv 3 (mkStencil 1 [0] [b32_one])
      b32_zero b32_one b32_zero deriv_table
    ≫= Index_AddWithWeight_deriv 3 (mkStencil 1 [0] [b32_one])
         b32_one b32_zero b32_zero) = Some deriv_again_table ∧
   _sources deriv_again_table = [0] ∧
   _weights deriv_again_table = [b32_two] ∧
   _duWeights deriv_again_table = [b32_two] ∧
   _dvWeights deriv_again_table = [b32_zero] ∧
   b32_two ≠ b32_one).
Proof.
  split.
  - split; [vm_compute; reflexivity|]. split.
    { intros (_ & Hu & _). vm_compute in Hu. discriminate Hu. }
    repeat split; vm_compute; reflexivity.
  - split; [vm_compute; reflexivity|]. split; [by repeat split|].
    do 6 (split; [vm_compute; reflexivity|]). discriminate.
Qed.

(** ** The algebraic expansion under the contract *)

Section Chains.
Context {F : Type} `{FloatOps F} `{!ExactLaws F}.
Implicit Types (t : WeightTable F) (c d : Z) (l : list F).

Lemma src_chains_coef cv t env fin cur src c :
  chain_inv cv t env fin cur →
  src < cv ∨ src ∈ fin ∨ cur = Some src →
  src_coef t src c = fsum (src_chains cv env src c).
Proof.
  intros (_ & Hcv & _ & _ & Hval & _) Hsrc.
  unfold src_coef, src_chains. rewrite Hcv. case_bool_decide as Hlt.
  - case_bool_decide; simpl; [by rewrite fadd_0_r|done].
  - apply Hval. destruct Hsrc as [?|?]; [done|done].
Qed.

(** One call under the contract keeps the invariant; at the start of the
    run the destination must not be the one the constructor left open. *)
Lemma chain_call cv t env fin cur cl :
  chain_inv cv t env fin cur →
  0 ≤ c_dest cl → c_dest cl ∉ finalized fin cur (c_dest cl) →
  c_src cl < cv ∨ c_src cl ∈ finalized fin cur (c_dest cl) →
  (cur = None → vback (_dests t) ≠ Some (c_dest cl)) →
  ∃ t', run_call cl t = Some t' ∧
        chain_inv cv t' (chain_step cv env cl)
          (finalized fin cur (c_dest cl)) (Some (c_dest cl)).
Proof.
  intros Hinv Hd Hnotin Hsrc Hstart.
  pose proof Hinv as (Hr & Hcv & Hfin & Hcur & Hval & Hnil).
  destruct cl as [src dest w]. simpl in *.
  assert (Hfin' : ∀ x, x ∈ finalized fin cur dest →
            (x ∈ fin ∨ cur = Some x) ∧ x ≠ dest ∧ x ∈ _dests t).
  { intros x Hx. split; [|split].
    - apply elem_of_finalized in Hx as [?|[? _]]; auto.
    - intros ->. done.
    - apply elem_of_finalized in Hx as [?|[Hc _]]; [by apply Hfin|].
      apply last_Some_elem_of. by apply Hcur. }
  destruct (contribution_step src dest w t Hr Hd)
    as (t' & Ha & Hr' & Hcv' & Hb' & Hin' & Hoth & Hnew).
  { rewrite Hcv. destruct Hsrc as [?|Hx]; [by left|right].
    destruct (Hfin' _ Hx) as (_ & ? & ?). done. }
  exists t'. split; [exact Ha|].
  split; [done|]. split; [congruence|]. split; [|split; [|split]].
  - intros x Hx. apply Hin'. left. by destruct (Hfin' _ Hx) as (_ & _ & ?).
  - intros x [= <-]. done.
  - intros x c Hx. unfold chain_step. simpl.
    destruct (decide (x = dest)) as [->|Hne].
    + rewrite bool_decide_eq_true_2 by done.
      rewrite Hnew, fsum_app, fsum_scale. f_equal.
      * destruct (decide (cur = Some dest)) as [Hc|Hc].
        -- rewrite decide_True by (by apply Hcur). apply Hval. by right.
        -- assert (Hnf : dest ∉ fin).
           { intros Hf. apply Hnotin. apply elem_of_finalized. by left. }
           rewrite (Hnil dest c) by (intros [?|?]; done).
           rewrite decide_False; [done|].
           destruct cur as [d0|]; [|by apply Hstart].
           rewrite (Hcur d0 eq_refl). congruence.
      * f_equal. apply (src_chains_coef cv t env fin cur); [done|].
        destruct Hsrc as [?|Hx']; [by left|right].
        by destruct (Hfin' _ Hx') as (? & _).
    + rewrite bool_decide_eq_false_2 by done.
      rewrite Hoth by done. apply Hval.
      destruct Hx as [Hx|[= ?]]; [|done].
      by destruct (Hfin' _ Hx) as (? & _).
  - intros x c Hx. unfold chain_step. simpl.
    case_bool_decide as Hxd; [destruct Hx; by right; subst|].
    apply Hnil. intros [Hf|Hc]; apply Hx; left; apply elem_of_finalized;
      [by left|right; split; [done|congruence]].
Qed.

Lemma chain_run cv cs t env fin cur :
  chain_inv cv t env fin cur →
  sequential_from cv fin cur cs = true →
  (cur = None → ∀ cl, head cs = Some cl →
                vback (_dests t) ≠ Some (c_dest cl)) →
  ∃ t' fin' cur',
    run_calls cs t = Some t' ∧
    chain_inv cv t' (fold_left (chain_step cv) cs env) fin' cur' ∧
    ∀ d, d ∈ fin ∨ cur = Some d ∨ d ∈ map c_dest cs →
         d ∈ fin' ∨ cur' = Some d.
Proof.
  revert t env fin cur. induction cs as [|cl cs IH];
    intros t env fin cur Hinv Hseq Hstart.
  { exists t, fin, cur. split; [done|]. split; [done|].
    intros d [?|[?|Hin]]; auto. by apply elem_of_nil in Hin. }
  simpl in Hseq.
  apply andb_prop in Hseq as [Hseq Hrest].
  apply andb_prop in Hseq as [Hseq Hsrc].
  apply andb_prop in Hseq as [Hd Hnotin].
  apply bool_decide_eq_true in Hd. apply bool_decide_eq_true in Hnotin.
  assert (Hsrc' : c_src cl < cv ∨ c_src cl ∈ finalized fin cur (c_dest cl)).
  { apply orb_prop in Hsrc as [Hs|Hs]; apply bool_decide_eq_true in Hs; auto. }
  destruct (chain_call cv t env fin cur cl Hinv Hd Hnotin Hsrc')
    as (t1 & Ht1 & Hinv1).
  { intros Hc. by apply Hstart. }
  destruct (IH _ _ _ _ Hinv1 Hrest) as (t' & fin' & cur' & Ht' & Hinv' & Hsub);
    [done|].
  exists t', fin', cur'. simpl. rewrite Ht1. simpl.
  split; [done|]. split; [done|]. intros d Hd'. apply Hsub.
  destruct (decide (d = c_dest cl)) as [->|Hne]; [auto|].
  destruct Hd' as [?|[?|Hin]].
  - left. apply elem_of_finalized. auto.
  - left. apply elem_of_finalized. auto.
  - simpl in Hin. apply elem_of_cons in Hin as [?|?]; [done|auto].
Qed.

(** Under exact arithmetic, the coefficient of every coarse vertex in the
    stencil of every destination of a run under the contract is the sum of
    the products of the weights along the contribution chains. *)
Lemma expansion_exact cv gen compact cs :
  sequential cv cs = true → fresh_start cv gen cs = true → 0 ≤ cv →
  ∃ t, build cv gen compact cs = Some t ∧
       ∀ cl c, cl ∈ cs →
         stencil_coef t (c_dest cl) c
         = fsum (chain_products cv cs (c_dest cl) c).
Proof.
  intros Hseq Hfresh Hcv. unfold build.
  assert (is_Some (WeightTable_new (F:=F) cv gen compact)) as [t0 Ht0].
  { destruct gen.
    - destruct (WeightTable_new_ctrl (F:=F) cv compact Hcv) as (t0 & -> & _).
      eauto.
    - rewrite WeightTable_new_plain by done. eauto. }
  rewrite Ht0. simpl.
  destruct (WeightTable_new_wf _ _ _ _ Ht0) as (_ & _ & Hcv0 & _).
  destruct (chain_run cv cs t0 (fun _ _ => []) [] None)
    as (t & fin & cur & Ht & Hinv & Hsub); [|done| |].
  { split; [by eapply WeightTable_new_reach|]. split; [done|].
    split; [intros d Hin; by apply elem_of_nil in Hin|].
    split; [done|].
    split; [intros d c [Hin|?]; [by apply elem_of_nil in Hin|done]|done]. }
  { intros _ cl Hhd Hback. destruct cs as [|cl' cs']; [done|].
    simpl in Hhd. injection Hhd as ->. simpl in Hfresh.
    apply negb_true_iff, andb_false_iff in Hfresh.
    destruct gen.
    - destruct (WeightTable_new_ctrl (F:=F) cv compact Hcv)
        as (u & Hu & Hf & _).
      rewrite Ht0 in Hu. injection Hu as <-.
      destruct (filled_view _ _ Hcv Hf) as (_ & Hb & _).
      rewrite Hb in Hback. case_decide; [done|]. injection Hback as Hback.
      destruct Hfresh as [?|Hne]; [done|].
      apply bool_decide_eq_false in Hne. congruence.
    - rewrite WeightTable_new_plain in Ht0 by done. by injection Ht0 as <-. }
  exists t. split; [done|]. intros cl c Hin.
  destruct Hinv as (_ & _ & _ & _ & Hval & _).
  apply Hval. apply Hsub. right. right.
  apply list_elem_of_fmap. eauto.
Qed.

End Chains.



